(** * ssh_fb: the ban-decision engine of [internal/monitor/monitor.go]

    A shallow embedding of the monitor: the two Go maps
    ([failedAttempts], [bannedIPs]), the [sync.RWMutex] guarding them, the
    blacklist file, and the calls made to the firewall, the notifier and
    the logger.  Everything the process cannot decide by itself (clock
    readings, results of the collaborators, the iteration order of a Go
    map, I/O faults) is supplied by an explicit environment record, so
    every definition below is an executable function. *)

From Stdlib Require Import ZArith Lia String Ascii List.
From stdpp Require Import gmap strings list fin_maps.

Local Open Scope string_scope.
Local Open Scope list_scope.

(** ** Go machine integers and time *)

Module GoInt.

(** Go's [int] and [int64] on the supported 64-bit targets. *)
Definition min_int : Z := (- 2 ^ 63)%Z.
Definition max_int : Z := (2 ^ 63 - 1)%Z.

(** Two's complement wrap-around of an arithmetic result. *)
Definition wrap64 (z : Z) : Z := ((z + 2 ^ 63) mod 2 ^ 64 - 2 ^ 63)%Z.

Definition in_range (z : Z) : Prop := (min_int <= z <= max_int)%Z.

End GoInt.

(** [time.Time] as nanoseconds on the time line; [time.Duration] is an
    [int64] count of nanoseconds. *)
Abbreviation Time := Z.
Definition Hour : Z := 3600000000000%Z.
Definition Millisecond : Z := 1000000%Z.
Definition Second : Z := 1000000000%Z.

(** [t.Before(u)] and [t.After(u)]: both strict. *)
Definition Before (t u : Time) : bool := (t <? u)%Z.
Definition After (t u : Time) : bool := (u <? t)%Z.

(** ** Errors, log entries, messages, observable effects *)

(** A Go [error] value; [option error] plays the role of a possibly-nil
    error. *)
Inductive error : Type :=
| EOF                       (* io.EOF *)
| ErrTooLong                (* bufio.ErrTooLong *)
| Errorf (text : string).   (* fmt.Errorf and errors of the OS *)

Global Instance error_eq_dec : EqDecision error.
Proof. solve_decision. Defined.

Inductive Level : Type := Info | Warn | Error.

(** The log entries of monitor.go, one constructor per message text, with
    the structured fields attached by [WithField], [WithFields] and
    [WithError]. *)
Inductive LogEntry : Type :=
| LogBannedAttempt (ip : string)                   (* Warn  line 181 *)
| LogLoginFailed (ip : string) (attempts max_attempts : Z)
                                                   (* Warn  line 191 *)
| LogBanFailed (ip : string) (err : error)         (* Error line 221 *)
| LogBanned (ip : string) (duration : Z) (expire_time : Time)
                                                   (* Info  line 231 *)
| LogUnbanFailed (ip : string) (err : error)       (* Error line 120 *)
| LogUnbanned (ip : string)                        (* Info  line 122 *)
| LogLoginOk (ip : string).                        (* Info  line 206 *)

Definition level_of (l : LogEntry) : Level :=
  match l with
  | LogBannedAttempt _ | LogLoginFailed _ _ _ => Warn
  | LogBanFailed _ _ | LogUnbanFailed _ _ => Error
  | LogBanned _ _ _ | LogUnbanned _ | LogLoginOk _ => Info
  end.

(** The three Telegram texts of telegram.go, by their arguments (the
    wall-clock stamp printed inside the text is left out). *)
Inductive Message : Type :=
| MsgLoginSuccess (ipInfo server : string)
| MsgLoginFailed (ipInfo : string) (attempts max_attempts : Z)
                 (server : string)
| MsgIPBanned (ip ipInfo : string) (duration : Z) (expire_time : Time)
              (server : string).

(** What the process does to the outside world, in program order. *)
Inductive Effect : Type :=
| Log (entry : LogEntry)
| UfwDeny (ip : string)          (* firewall.BanIP:   ufw deny from ip *)
| UfwDelete (ip : string)        (* firewall.UnbanIP: ufw delete deny  *)
| Send (msg : Message)           (* Telegram.SendMessage               *)
| OpenTrunc                      (* blacklist opened with O_TRUNC      *)
| OpenRead                       (* blacklist opened read-only         *)
| WriteString (s : string)       (* file.WriteString on the blacklist  *)
| SeekEnd                        (* file.Seek(0, 2) on the ssh log     *)
| Sleep (d : Z).                 (* time.Sleep                         *)

Global Instance LogEntry_eq_dec : EqDecision LogEntry.
Proof. solve_decision. Defined.
Global Instance Message_eq_dec : EqDecision Message.
Proof. solve_decision. Defined.
Global Instance Effect_eq_dec : EqDecision Effect.
Proof. solve_decision. Defined.

(** ** Configuration (internal/config) *)

Record Config : Type := {
  MaxFailedAttempts : Z;       (* SSHProtection.MaxFailedAttempts, int *)
  BanDurationHours : Z;        (* SSHProtection.BanDurationHours, int  *)
  ServiceName : string;
  InstallPath : string;
  LoginSuccessEnabled : bool;  (* Notifications.LoginSuccess.Enabled   *)
  LoginFailedEnabled : bool;   (* Notifications.LoginFailed.Enabled    *)
  IPBannedEnabled : bool       (* Notifications.IPBanned.Enabled       *)
}.

(** [validateConfig] accepts only positive thresholds and durations. *)
Definition validConfig (c : Config) : Prop :=
  (0 < MaxFailedAttempts c <= GoInt.max_int)%Z ∧
  (0 < BanDurationHours c <= GoInt.max_int)%Z.

(** [time.Duration(m.config.SSHProtection.BanDurationHours) * time.Hour] *)
Definition banDuration (c : Config) : Z :=
  GoInt.wrap64 (BanDurationHours c * Hour).

(** [fmt.Sprintf("%s (%s)", ServiceName, InstallPath)] *)
Definition serverName (c : Config) : string :=
  ServiceName c +:+ " (" +:+ InstallPath c +:+ ")".

(** ** The monitor's state *)

(** [sync.RWMutex]: free, held by a writer, or held by [n+1] readers. *)
Inductive RWMutex : Type :=
| Unlocked
| WLocked
| RLocked (n : nat).

Global Instance RWMutex_eq_dec : EqDecision RWMutex.
Proof. solve_decision. Defined.

Record World : Type := mkWorld {
  failedAttempts : gmap string Z;   (* m.failedAttempts            *)
  bannedIPs : gmap string Time;     (* m.bannedIPs                 *)
  mu : RWMutex;                     (* m.mu                        *)
  blacklist : string;               (* bytes of the blacklist file *)
  trace : list Effect               (* effects so far, oldest first *)
}.

(** [NewMonitor]: two empty maps, a free mutex. *)
Definition NewMonitor (file : string) : World :=
  mkWorld ∅ ∅ Unlocked file [].

(** [m.failedAttempts[ip]] read as Go reads a map: zero when absent. *)
Definition attempts (w : World) (ip : string) : Z :=
  default 0%Z (failedAttempts w !! ip).

(** [listBanned]: the keys of the Ban Record map. *)
Definition listBanned (w : World) : gset string := dom (bannedIPs w).

Definition set_failedAttempts (f : gmap string Z → gmap string Z)
    (w : World) : World :=
  mkWorld (f (failedAttempts w)) (bannedIPs w) (mu w) (blacklist w) (trace w).
Definition set_bannedIPs (f : gmap string Time → gmap string Time)
    (w : World) : World :=
  mkWorld (failedAttempts w) (f (bannedIPs w)) (mu w) (blacklist w) (trace w).
Definition set_mu (m : RWMutex) (w : World) : World :=
  mkWorld (failedAttempts w) (bannedIPs w) m (blacklist w) (trace w).
Definition set_blacklist (f : string → string) (w : World) : World :=
  mkWorld (failedAttempts w) (bannedIPs w) (mu w) (f (blacklist w)) (trace w).
Definition emit_effect (e : Effect) (w : World) : World :=
  mkWorld (failedAttempts w) (bannedIPs w) (mu w) (blacklist w)
          (trace w ++ [e]).

(** ** A state monad with blocking

    A call either returns a value in a new world, or never returns:
    the goroutine is parked on the mutex for good ([Deadlock]), or the
    runtime aborts the process ([Panic]). *)

Inductive Halt : Type := Deadlock | Panic.

Inductive Result (A : Type) : Type :=
| Done (a : A) (w : World)
| Halted (h : Halt) (w : World).
Arguments Done {A} a w.
Arguments Halted {A} h w.

Definition M (A : Type) : Type := World → Result A.

Definition ret {A} (a : A) : M A := fun w => Done a w.

Definition bind {A B} (m : M A) (k : A → M B) : M B :=
  fun w => match m w with
           | Done a w' => k a w'
           | Halted h w' => Halted h w'
           end.

Global Instance M_ret : MRet M := @ret.
Global Instance M_bind : MBind M := fun A B k m => bind m k.

Definition get {A} (f : World → A) : M A := fun w => Done (f w) w.
Definition modify (f : World → World) : M unit := fun w => Done tt (f w).
Definition emit (e : Effect) : M unit := modify (emit_effect e).
Definition logger (entry : LogEntry) : M unit := emit (Log entry).

(** The world a call leaves behind, returned or not. *)
Definition world_of {A} (r : Result A) : World :=
  match r with Done _ w => w | Halted _ w => w end.

Definition returned {A} (r : Result A) : bool :=
  match r with Done _ _ => true | Halted _ _ => false end.

(** ** The mutex

    Every function of monitor.go that takes [m.mu] releases it before it
    returns, so between two top-level operations the mutex is free
    unless its holder is parked for ever or has leaked it; a [Lock] or
    [RLock] that finds it held in a conflicting mode therefore never
    returns.  [sync.RWMutex] is not reentrant. *)

Definition Lock : M unit := fun w =>
  match mu w with
  | Unlocked => Done tt (set_mu WLocked w)
  | _ => Halted Deadlock w
  end.

Definition Unlock : M unit := fun w =>
  match mu w with
  | WLocked => Done tt (set_mu Unlocked w)
  | _ => Halted Panic w          (* fatal: Unlock of unlocked RWMutex *)
  end.

Definition RLock : M unit := fun w =>
  match mu w with
  | Unlocked => Done tt (set_mu (RLocked 0) w)
  | RLocked n => Done tt (set_mu (RLocked (S n)) w)
  | WLocked => Halted Deadlock w
  end.

Definition RUnlock : M unit := fun w =>
  match mu w with
  | RLocked 0 => Done tt (set_mu Unlocked w)
  | RLocked (S n) => Done tt (set_mu (RLocked n) w)
  | _ => Halted Panic w          (* fatal: RUnlock of unlocked RWMutex *)
  end.

(** ** Collaborators

    The firewall, the Telegram bot and the geolocation client are
    outside the engine: each call is recorded in the trace and its result
    is read from the environment of the operation. *)

(** [firewall.BanIP] / [firewall.UnbanIP]: run ufw, return its error. *)
Definition BanIP (res : option error) (ip : string) : M (option error) :=
  emit (UfwDeny ip);; mret res.

Definition UnbanIP (res : option error) (ip : string) : M (option error) :=
  emit (UfwDelete ip);; mret res.

(** [Telegram.SendMessage]: one [bot.Send], its error handed back. *)
Definition SendMessage (res : option error) (msg : Message)
    : M (option error) :=
  emit (Send msg);; mret res.

Definition NotifyLoginSuccess (c : Config) (res : option error)
    (ip ipInfo server : string) : M (option error) :=
  if negb (LoginSuccessEnabled c) then mret None
  else SendMessage res (MsgLoginSuccess ipInfo server).

Definition NotifyLoginFailed (c : Config) (res : option error)
    (ip ipInfo server : string) (n max_n : Z) : M (option error) :=
  if negb (LoginFailedEnabled c) then mret None
  else SendMessage res (MsgLoginFailed ipInfo n max_n server).

Definition NotifyIPBanned (c : Config) (res : option error)
    (ip ipInfo server : string) (duration : Z) (expireTime : Time)
    : M (option error) :=
  if negb (IPBannedEnabled c) then mret None
  else SendMessage res (MsgIPBanned ip ipInfo duration expireTime server).

(** ** The blacklist file *)

Definition LF : ascii := ascii_of_nat 10.
Definition CR : ascii := ascii_of_nat 13.
Definition newline : string := String LF "".

(** Outcome of one [file.WriteString]: everything written, or an error
    after the first [n] bytes. *)
Inductive WriteResult : Type :=
| WriteOk
| WriteFail (n : nat) (err : error).

Record SaveEnv : Type := {
  save_open : option error;             (* os.OpenFile, O_TRUNC        *)
  save_order : list (string * Time);    (* order of range m.bannedIPs  *)
  save_write : nat → WriteResult        (* result of the i-th write    *)
}.

(** An iteration order is one of the orders in which Go may walk the
    map: every entry once. *)
Definition ranges (order : list (string * Time)) (m : gmap string Time)
    : Prop :=
  order ≡ₚ map_to_list m.

(** The loop of [saveBlacklist], lines 101-105; [i] counts the writes.
    A failed write returns at once, with the read lock still held. *)
Fixpoint writeEntries (e : SaveEnv) (i : nat) (entries : list (string * Time))
    : M (option error) :=
  match entries with
  | [] => RUnlock;; mret None
  | (ip, _) :: rest =>
      let line := ip +:+ newline in
      emit (WriteString line);;
      match save_write e i with
      | WriteOk =>
          modify (set_blacklist (fun f => f +:+ line));;
          writeEntries e (S i) rest
      | WriteFail n err =>
          modify (set_blacklist (fun f => f +:+ substring 0 n line));;
          mret (Some err)
      end
  end.

Definition saveBlacklist (e : SaveEnv) : M (option error) :=
  emit OpenTrunc;;
  match save_open e with
  | Some err => mret (Some err)
  | None =>
      modify (set_blacklist (fun _ => ""));;
      RLock;;
      writeEntries e 0 (save_order e)
  end.

(** ** The Ban State Store and the Decision Coordinator *)

Record FailEnv : Type := {
  now_check : Time;             (* time.Now() inside isIPBanned         *)
  now_ban : Time;               (* time.Now() inside banIP              *)
  ufw_deny : option error;      (* result of firewall.BanIP             *)
  save_env : SaveEnv;           (* what saveBlacklist meets             *)
  geo_ban : string;             (* FormatIPInfo inside banIP            *)
  geo_failed : string;          (* FormatIPInfo in handleFailedLogin    *)
  send_banned : option error;   (* result of the ban notification       *)
  send_failed : option error    (* result of the failure notification   *)
}.

Record SuccessEnv : Type := {
  geo_success : string;         (* FormatIPInfo in handleSuccessfulLogin *)
  send_success : option error   (* result of the success notification    *)
}.

(** [isIPBanned], lines 243-253. *)
Definition isIPBanned (now : Time) (ip : string) : M bool :=
  banned ← get bannedIPs;
  match banned !! ip with
  | Some banTime =>
      if Before now banTime then mret true
      else
        modify (set_bannedIPs (delete ip));;
        modify (set_failedAttempts (delete ip));;
        mret false
  | None => mret false
  end.

(** [banIP], lines 216-236. *)
Definition banIP (c : Config) (e : FailEnv) (ip : string) : M unit :=
  let banTime := (now_ban e + banDuration c)%Z in
  modify (set_bannedIPs <[ip := banTime]>);;
  err ← BanIP (ufw_deny e) ip;
  match err with
  | Some err => logger (LogBanFailed ip err)
  | None =>
      _ ← saveBlacklist (save_env e);
      logger (LogBanned ip (BanDurationHours c) banTime);;
      _ ← NotifyIPBanned c (send_banned e) ip (geo_ban e) (serverName c)
            (banDuration c) banTime;
      mret tt
  end.

(** [m.failedAttempts[ip]++] *)
Definition incrFailed (ip : string) : M unit :=
  modify (set_failedAttempts
            (fun f => <[ip := GoInt.wrap64 (default 0%Z (f !! ip) + 1)]> f)).

(** [handleFailedLogin], lines 176-200; the deferred [Unlock] runs on
    both return paths. *)
Definition handleFailedLogin (c : Config) (e : FailEnv) (ip : string)
    : M unit :=
  Lock;;
  banned ← isIPBanned (now_check e) ip;
  if (banned : bool) then
    logger (LogBannedAttempt ip);;
    Unlock
  else
    incrFailed ip;;
    n ← get (fun w => attempts w ip);
    logger (LogLoginFailed ip n (MaxFailedAttempts c));;
    (if (MaxFailedAttempts c <=? n)%Z then banIP c e ip else mret tt);;
    n' ← get (fun w => attempts w ip);
    _ ← NotifyLoginFailed c (send_failed e) ip (geo_failed e) (serverName c)
          n' (MaxFailedAttempts c);
    Unlock.

(** [handleSuccessfulLogin], lines 205-211: no lock, no state. *)
Definition handleSuccessfulLogin (c : Config) (e : SuccessEnv) (ip : string)
    : M unit :=
  logger (LogLoginOk ip);;
  _ ← NotifyLoginSuccess c (send_success e) ip (geo_success e) (serverName c);
  mret tt.

(** ** The Expiry Sweeper *)

Record SweepEnv : Type := {
  sweep_order : list (string * Time);  (* order of range m.bannedIPs     *)
  now_visit : string → Time;           (* time.Now() when ip is visited  *)
  ufw_delete : string → option error   (* result of firewall.UnbanIP ip  *)
}.

(** The body of the inner loop of [cleanupBannedIPs], lines 118-126. *)
Definition cleanupEntry (e : SweepEnv) (entry : string * Time) : M unit :=
  let '(ip, banTime) := entry in
  if After (now_visit e ip) banTime then
    err ← UnbanIP (ufw_delete e ip) ip;
    match err with
    | Some err => logger (LogUnbanFailed ip err)
    | None => logger (LogUnbanned ip)
    end;;
    modify (set_bannedIPs (delete ip));;
    modify (set_failedAttempts (delete ip))
  else mret tt.

Fixpoint forEach {A} (f : A → M unit) (l : list A) : M unit :=
  match l with
  | [] => mret tt
  | x :: rest => f x;; forEach f rest
  end.

(** One tick of the ticker loop, lines 116-128. *)
Definition cleanupTick (e : SweepEnv) : M unit :=
  Lock;;
  forEach (cleanupEntry e) (sweep_order e);;
  Unlock.

(** [cleanupBannedIPs] over the ticks delivered so far. *)
Definition cleanupBannedIPs (ticks : list SweepEnv) : M unit :=
  forEach cleanupTick ticks.

(** ** Loading the blacklist: [bufio.Scanner] with [bufio.ScanLines] *)

(** [bufio.MaxScanTokenSize]: a line must fit the 64 KiB buffer, and the
    buffer full of bytes without a line end is [ErrTooLong]. *)
Definition MaxScanTokenSize : N := 65536%N.

Definition fits (raw : string) : bool :=
  (N.of_nat (String.length raw) <? MaxScanTokenSize)%N.

(** [dropCR]: one carriage return at the end of the line is dropped. *)
Fixpoint dropCR (s : string) : string :=
  match s with
  | "" => ""
  | String c "" => if Ascii.eqb c CR then "" else s
  | String c s' => String c (dropCR s')
  end.

(** All the tokens [scanner.Scan] delivers for the bytes [s], the line in
    progress being [cur], and the value of [scanner.Err()] at the end. An
    unterminated last line is a token too; an empty rest is not. *)
Fixpoint scanFrom (cur s : string) : list string * option error :=
  match s with
  | "" =>
      if String.eqb cur "" then ([], None)
      else if fits cur then ([dropCR cur], None)
      else ([], Some ErrTooLong)
  | String c s' =>
      if Ascii.eqb c LF then
        if fits cur then
          let '(ls, err) := scanFrom "" s' in (dropCR cur :: ls, err)
        else ([], Some ErrTooLong)
      else scanFrom (cur +:+ String c "") s'
  end.

Definition scanLines (s : string) : list string * option error :=
  scanFrom "" s.

Record LoadEnv : Type := {
  load_open : option error;          (* os.OpenFile, O_RDONLY|O_CREATE  *)
  load_read : option (nat * error);  (* a read fault after n bytes      *)
  load_now : nat → Time              (* time.Now() at the i-th line     *)
}.

(** The loop of [loadBlacklist], lines 80-85. *)
Fixpoint insertLines (c : Config) (e : LoadEnv) (i : nat)
    (lines : list string) : M unit :=
  match lines with
  | [] => mret tt
  | ip :: rest =>
      (if String.eqb ip "" then mret tt
       else modify (set_bannedIPs
                      <[ip := (load_now e i + banDuration c)%Z]>));;
      insertLines c e (S i) rest
  end.

(** [loadBlacklist], lines 72-88.  [scanner.Err()] is nil at end of
    file, and the first error otherwise. *)
Definition loadBlacklist (c : Config) (e : LoadEnv) : M (option error) :=
  emit OpenRead;;
  match load_open e with
  | Some err => mret (Some err)
  | None =>
      content ← get blacklist;
      let visible :=
        match load_read e with
        | Some (n, _) => substring 0 n content
        | None => content
        end in
      let '(lines, too_long) := scanLines visible in
      insertLines c e 0 lines;;
      mret (match too_long, load_read e with
            | Some err, _ => Some err
            | None, Some (_, EOF) => None
            | None, Some (_, err) => Some err
            | None, None => None
            end)
  end.

(** ** The Event Extractor *)

(** [strings.Contains] *)
Fixpoint Contains (s sub : string) : bool :=
  String.prefix sub s ||
  match s with
  | "" => false
  | String _ s' => Contains s' sub
  end.

Definition is_digit (c : ascii) : bool :=
  let n := nat_of_ascii c in Nat.leb 48 n && Nat.leb n 57.

(** The longest run of digits at the head of [s], and what follows. *)
Fixpoint digits (s : string) : string * string :=
  match s with
  | String c s' =>
      if is_digit c then let '(d, r) := digits s' in (String c d, r)
      else ("", s)
  | "" => ("", "")
  end.

(** [\d+] *)
Definition digits1 (s : string) : option (string * string) :=
  let '(d, r) := digits s in
  if String.eqb d "" then None else Some (d, r).

(** [\.] *)
Definition dot (s : string) : option string :=
  match s with
  | String c r => if Ascii.eqb c "." then Some r else None
  | "" => None
  end.

(** [(\d+\.\d+\.\d+\.\d+)] anchored at the head of [s]. A run of digits
    never contains the dot that must follow it, so the greedy match is
    the only one. *)
Definition quad (s : string) : option string :=
  '(a, r) ← digits1 s; r ← dot r;
  '(b, r) ← digits1 r; r ← dot r;
  '(c, r) ← digits1 r; r ← dot r;
  '(d, _) ← digits1 r;
  Some (a +:+ "." +:+ b +:+ "." +:+ c +:+ "." +:+ d).

Definition afterFrom (s : string) : option string :=
  if String.prefix "from " s then quad (substring 5 (String.length s - 5) s)
  else None.

(** [regexp.MustCompile(`from (\d+\.\d+\.\d+\.\d+)`).FindStringSubmatch]:
    the capture of the leftmost match. *)
Fixpoint findAddress (s : string) : option string :=
  match afterFrom s with
  | Some ip => Some ip
  | None =>
      match s with
      | "" => None
      | String _ s' => findAddress s'
      end
  end.

Inductive Event : Type :=
| FailedLogin (address : string)
| SuccessfulLogin (address : string).

(** Lines 157-169 as a function of the line. *)
Definition extract (line : string) : option Event :=
  if Contains line "Failed password" then
    FailedLogin <$> findAddress line
  else if Contains line "Accepted password" then
    SuccessfulLogin <$> findAddress line
  else None.

(** ** The Log Tailer *)

Record ReadEnv : Type := {
  log_file : string;           (* bytes of the ssh log at this read     *)
  read_fault : option error;   (* error of the read, if not end of file *)
  fail_env : FailEnv;          (* what a failure handler would meet     *)
  success_env : SuccessEnv     (* what a success handler would meet     *)
}.

Inductive ReadOutcome : Type :=
| GotLine (line : string) (pos' : nat)
| ReadError (err : error) (pos' : nat).

(** Index of the first line feed. *)
Fixpoint indexLF (s : string) : option nat :=
  match s with
  | "" => None
  | String c s' => if Ascii.eqb c LF then Some 0 else S <$> indexLF s'
  end.

(** [reader.ReadString('\n')] with the reader at offset [pos]: a whole
    line with its line feed, or the bytes before the end are consumed and
    the error comes back with them. *)
Definition ReadString (pos : nat) (r : ReadEnv) : ReadOutcome :=
  let avail := substring pos (String.length (log_file r) - pos) (log_file r) in
  match indexLF avail with
  | Some j => GotLine (substring 0 (S j) avail) (pos + S j)
  | None => ReadError (default EOF (read_fault r)) (pos + String.length avail)
  end.

Inductive TailStatus : Type :=
| Exited (err : error)       (* monitorSSHLogs returned err         *)
| Reading (pos : nat).       (* still in the loop, about to read    *)

Definition dispatch (c : Config) (r : ReadEnv) (line : string) : M unit :=
  match extract line with
  | Some (FailedLogin ip) => handleFailedLogin c (fail_env r) ip
  | Some (SuccessfulLogin ip) => handleSuccessfulLogin c (success_env r) ip
  | None => mret tt
  end.

(** The [for] loop of [monitorSSHLogs], lines 147-170, over the reads
    performed so far. *)
Fixpoint tailLoop (c : Config) (pos : nat) (reads : list ReadEnv)
    : M TailStatus :=
  match reads with
  | [] => mret (Reading pos)
  | r :: rest =>
      match ReadString pos r with
      | ReadError EOF pos' =>
          emit (Sleep (100 * Millisecond));;
          tailLoop c pos' rest
      | ReadError err _ => mret (Exited err)
      | GotLine line pos' =>
          dispatch c r line;;
          tailLoop c pos' rest
      end
  end.

Record TailEnv : Type := {
  log_open : option error;     (* os.Open of the ssh log         *)
  log_at_open : string;        (* its bytes when it is opened    *)
  log_reads : list ReadEnv     (* the reads that follow          *)
}.

(** [monitorSSHLogs], lines 136-171. *)
Definition monitorSSHLogs (c : Config) (e : TailEnv) : M TailStatus :=
  match log_open e with
  | Some err => mret (Exited err)
  | None =>
      emit SeekEnd;;
      tailLoop c (String.length (log_at_open e)) (log_reads e)
  end.

(** ** The process: monitor goroutine and sweeper goroutine

    [Start] loads the blacklist, starts the sweeper and then tails the
    log.  Each handler and each tick runs under the mutex, so the two
    goroutines interleave operation by operation.  A goroutine whose
    operation never returns takes no further step. *)

Inductive Op : Type :=
| OnFailedLogin (e : FailEnv) (ip : string)
| OnSuccessfulLogin (e : SuccessEnv) (ip : string)
| CheckBanned (now : Time) (ip : string)
| SweepTick (e : SweepEnv).

Definition exec (c : Config) (op : Op) : M unit :=
  match op with
  | OnFailedLogin e ip => handleFailedLogin c e ip
  | OnSuccessfulLogin e ip => handleSuccessfulLogin c e ip
  | CheckBanned now ip => _ ← isIPBanned now ip; mret tt
  | SweepTick e => cleanupTick e
  end.

Definition by_sweeper (op : Op) : bool :=
  match op with SweepTick _ => true | _ => false end.

Record System : Type := mkSystem {
  world : World;
  monitor_parked : bool;
  sweeper_parked : bool
}.

Definition sys_step (c : Config) (op : Op) (s : System) : System :=
  if (if by_sweeper op then sweeper_parked s else monitor_parked s) then s
  else
    match exec c op (world s) with
    | Done _ w => mkSystem w (monitor_parked s) (sweeper_parked s)
    | Halted Deadlock w =>
        if by_sweeper op then mkSystem w (monitor_parked s) true
        else mkSystem w true (sweeper_parked s)
    | Halted Panic w => mkSystem w true true
    end.

Definition sys_run (c : Config) (ops : list Op) (s : System) : System :=
  foldl (fun s op => sys_step c op s) s ops.

(** A sweep walks the ban map as it stands when the tick starts. *)
Definition admissible (s : System) (op : Op) : Prop :=
  match op with
  | SweepTick e => ranges (sweep_order e) (bannedIPs (world s))
  | _ => True
  end.

(** The states of a started process: [Start] went past [loadBlacklist]
    without error, then operations followed. *)
Inductive reachable (c : Config) : System → Prop :=
| reach_start file e w :
    loadBlacklist c e (NewMonitor file) = Done None w →
    reachable c (mkSystem w false false)
| reach_step s op :
    reachable c s → admissible s op → reachable c (sys_step c op s).

(** ** Reading the store *)

(** The verdict [isIPBanned] gives at time [now]. *)
Definition banned_at (now : Time) (ip : string) (w : World) : bool :=
  match bannedIPs w !! ip with
  | Some banTime => Before now banTime
  | None => false
  end.

(** Both records of [ip] removed. *)
Definition forget (ip : string) (w : World) : World :=
  set_failedAttempts (delete ip) (set_bannedIPs (delete ip) w).

(** The effects a call added to the trace. *)
Definition added (before after : World) : list Effect :=
  drop (length (trace before)) (trace after).

(** The store after [isIPBanned] has looked at [ip] at time [now]. *)
Definition expired (now : Time) (ip : string) (w : World) : World :=
  match bannedIPs w !! ip with
  | Some banTime => if Before now banTime then w else forget ip w
  | None => w
  end.

(** The count [handleFailedLogin] reaches for an address it counts. *)
Definition next_count (e : FailEnv) (ip : string) (w : World) : Z :=
  GoInt.wrap64 (attempts (expired (now_check e) ip w) ip + 1).

(** The expiry [banIP] computes. *)
Definition ban_expiry (c : Config) (e : FailEnv) : Time :=
  (now_ban e + banDuration c)%Z.

(** What the two notifications of the failure path put on the wire. *)
Definition sent_failed (c : Config) (e : FailEnv) (n : Z) : list Effect :=
  if LoginFailedEnabled c
  then [Send (MsgLoginFailed (geo_failed e) n (MaxFailedAttempts c)
                             (serverName c))]
  else [].

Definition sent_banned (c : Config) (e : FailEnv) (ip : string)
    : list Effect :=
  if IPBannedEnabled c
  then [Send (MsgIPBanned ip (geo_ban e) (banDuration c) (ban_expiry c e)
                          (serverName c))]
  else [].

Definition sent_success (c : Config) (e : SuccessEnv) : list Effect :=
  if LoginSuccessEnabled c
  then [Send (MsgLoginSuccess (geo_success e) (serverName c))]
  else [].

(** The store when [handleFailedLogin] has counted a failure of [ip] and
    logged it, the mutex held. *)
Definition counted (c : Config) (e : FailEnv) (ip : string) (w : World)
    : World :=
  let w1 := expired (now_check e) ip w in
  let n := next_count e ip w in
  mkWorld (<[ip := n]> (failedAttempts w1)) (bannedIPs w1) WLocked
          (blacklist w)
          (trace w ++ [Log (LogLoginFailed ip n (MaxFailedAttempts c))]).

(** The store [banIP] leaves for [ip], from [counted]: the Ban Record
    set, the mutex [m], the blacklist [file], the effects [effs] added. *)
Definition with_ban (c : Config) (e : FailEnv) (ip : string) (w : World)
    (m : RWMutex) (file : string) (effs : list Effect) : World :=
  let w2 := counted c e ip w in
  mkWorld (failedAttempts w2) (<[ip := ban_expiry c e]> (bannedIPs w2)) m
          file (trace w2 ++ effs).

(** ** The ban transition *)

(** [handleFailedLogin c e ip] meets the mutex free, does not find [ip]
    under ban, and the count it reaches is at the threshold. *)
Definition ban_transition (c : Config) (e : FailEnv) (ip : string)
    (w : World) : Prop :=
  mu w = Unlocked ∧
  banned_at (now_check e) ip w = false ∧
  (MaxFailedAttempts c <= next_count e ip w)%Z.

(** Every ban transition creates the record, persists the blacklist,
    calls the firewall and sends the ban notification. *)
Definition ban_is_complete (c : Config) : Prop :=
  ∀ e ip w, ban_transition c e ip w →
    let w' := world_of (handleFailedLogin c e ip w) in
    bannedIPs w' !! ip = Some (ban_expiry c e) ∧
    OpenTrunc ∈ added w w' ∧
    UfwDeny ip ∈ added w w' ∧
    Send (MsgIPBanned ip (geo_ban e) (banDuration c) (ban_expiry c e)
                      (serverName c)) ∈ added w w'.

(** ** A deployment with threshold 3 and bans of 24 hours *)

Module Scenario.

Definition cfg : Config := {|
  MaxFailedAttempts := 3;
  BanDurationHours := 24;
  ServiceName := "ssh_fb";
  InstallPath := "/opt/ssh_fb";
  LoginSuccessEnabled := true;
  LoginFailedEnabled := true;
  IPBannedEnabled := true
|}.

Definition attacker : string := "10.0.0.1".

(** Every collaborator works: ufw obeys, the blacklist opens and takes
    every write, Telegram delivers. *)
Definition healthy (now : Time) (order : list (string * Time)) : FailEnv := {|
  now_check := now;
  now_ban := now;
  ufw_deny := None;
  save_env := {| save_open := None; save_order := order;
                 save_write := fun _ => WriteOk |};
  geo_ban := "IP: 10.0.0.1";
  geo_failed := "IP: 10.0.0.1";
  send_banned := None;
  send_failed := None
|}.

(** The same with ufw failing. *)
Definition ufw_down (now : Time) : FailEnv := {|
  now_check := now;
  now_ban := now;
  ufw_deny := Some (Errorf "ufw: exit status 1");
  save_env := {| save_open := None; save_order := [];
                 save_write := fun _ => WriteOk |};
  geo_ban := "IP: 10.0.0.1";
  geo_failed := "IP: 10.0.0.1";
  send_banned := None;
  send_failed := None
|}.

(** [Start] on an empty blacklist file. *)
Definition quiet_load : LoadEnv := {|
  load_open := None;
  load_read := None;
  load_now := fun _ => 0%Z
|}.

Definition fresh : System :=
  mkSystem (world_of (loadBlacklist cfg quiet_load (NewMonitor "")))
           false false.

(** Three failures of the attacker one second apart, then a fourth. *)
Definition three_failures : list Op :=
  [ OnFailedLogin (healthy (1 * Second) []) attacker;
    OnFailedLogin (healthy (2 * Second) []) attacker;
    OnFailedLogin
      (healthy (3 * Second) [(attacker, (3 * Second + 24 * Hour)%Z)])
      attacker ].

Definition fourth_failure : Op :=
  OnFailedLogin (healthy (4 * Second) []) attacker.

(** Five bans, two of them run out at the tick of [day]; ufw refuses
    to lift the block of the first of the two. *)
Definition day : Time := (24 * Hour)%Z.

Definition five_bans : World :=
  mkWorld
    (list_to_map [("10.0.0.1", 3%Z); ("10.0.0.2", 3%Z); ("10.0.0.3", 3%Z);
                  ("10.0.0.4", 3%Z); ("10.0.0.5", 3%Z); ("10.0.0.9", 1%Z)])
    (list_to_map [("10.0.0.1", (day - 2)%Z); ("10.0.0.2", (day - 1)%Z);
                  ("10.0.0.3", day); ("10.0.0.4", (day + 1)%Z);
                  ("10.0.0.5", (day + 2)%Z)])
    Unlocked "" [].

Definition tick : SweepEnv := {|
  sweep_order := map_to_list (bannedIPs five_bans);
  now_visit := fun _ => day;
  ufw_delete := fun ip =>
    if String.eqb ip "10.0.0.1" then Some (Errorf "ufw: exit status 1")
    else None
|}.

Definition is_rejection (eff : Effect) : bool :=
  match eff with
  | Log (LogBannedAttempt _) => true
  | _ => false
  end.

End Scenario.

(** ** Reading a sweep *)

(** The entry has run out when the sweeper visits it. *)
Definition lapsed (e : SweepEnv) (entry : string * Time) : bool :=
  After (now_visit e entry.1) entry.2.

(** What the visit of one entry adds to the trace. *)
Definition unban_effects (e : SweepEnv) (entry : string * Time)
    : list Effect :=
  if lapsed e entry then
    [UfwDelete entry.1;
     Log (match ufw_delete e entry.1 with
          | Some err => LogUnbanFailed entry.1 err
          | None => LogUnbanned entry.1
          end)]
  else [].

(** The store after the visit of one entry. *)
Definition visit (e : SweepEnv) (w : World) (entry : string * Time) : World :=
  if lapsed e entry then
    mkWorld (delete entry.1 (failedAttempts w)) (delete entry.1 (bannedIPs w))
            (mu w) (blacklist w) (trace w ++ unban_effects e entry)
  else w.

(** The addresses the firewall was asked to unblock, in call order. *)
Definition unblock_calls (effs : list Effect) : list string :=
  omap (fun eff => match eff with UfwDelete ip => Some ip | _ => None end)
       effs.

(** ** Reading a run *)

(** The operation finds the record of [ip], which expires at
    [expiresAt], run out: a failure handler or a check of [ip] at or
    after [expiresAt], or a sweep visiting [ip] after it. *)
Definition expires (op : Op) (ip : string) (expiresAt : Time) : Prop :=
  match op with
  | OnFailedLogin e ip' => ip' = ip ∧ (expiresAt <= now_check e)%Z
  | CheckBanned now ip' => ip' = ip ∧ (expiresAt <= now)%Z
  | SweepTick e => (expiresAt < now_visit e ip)%Z
  | OnSuccessfulLogin _ _ => False
  end.

(** Every sweep of the run walks the ban map of its time. *)
Fixpoint admissible_run (c : Config) (ops : list Op) (s : System) : Prop :=
  match ops with
  | [] => True
  | op :: rest => admissible s op ∧ admissible_run c rest (sys_step c op s)
  end.

(** The counts stay within the threshold, and a count at the threshold
    has its Ban Record. *)
Definition counts_bounded (c : Config) (w : World) : Prop :=
  ∀ ip n, failedAttempts w !! ip = Some n →
    (0 < n <= MaxFailedAttempts c)%Z ∧
    (n = MaxFailedAttempts c → is_Some (bannedIPs w !! ip)).

(** ** Reading the blacklist file *)

(** The line [saveBlacklist] writes for an entry of the map. *)
Definition line_of (entry : string * Time) : string :=
  entry.1 +:+ newline.

Definition lines_of (entries : list (string * Time)) : string :=
  foldr (fun x acc => line_of x +:+ acc) "" entries.

(** An address that survives a trip through the file: not empty, short
    enough for the scanner, without line feed, not ending in a carriage
    return.  The addresses the extractor produces are made of digits
    and dots. *)
Definition well_formed (ip : string) : bool :=
  negb (String.eqb ip "") && fits ip &&
  match indexLF ip with None => true | Some _ => false end &&
  String.eqb (dropCR ip) ip.

(** The mutex after a reader has left. *)
Definition reader_left (m : RWMutex) : RWMutex :=
  match m with
  | RLocked (S n) => RLocked n
  | _ => Unlocked
  end.

(** The mutex after a reader has entered. *)
Definition reader_entered (m : RWMutex) : RWMutex :=
  match m with
  | RLocked n => RLocked (S n)
  | _ => RLocked 0
  end.

(** ** Reading the notifications *)

(** The same environment with other results for the two sends of the
    failure path, and for the send of the success path. *)
Definition with_sends (e : FailEnv) (banned failed : option error)
    : FailEnv := {|
  now_check := now_check e;
  now_ban := now_ban e;
  ufw_deny := ufw_deny e;
  save_env := save_env e;
  geo_ban := geo_ban e;
  geo_failed := geo_failed e;
  send_banned := banned;
  send_failed := failed
|}.

Definition with_send (e : SuccessEnv) (res : option error) : SuccessEnv := {|
  geo_success := geo_success e;
  send_success := res
|}.

Definition is_send (eff : Effect) : bool :=
  match eff with Send _ => true | _ => false end.

Definition is_error_entry (eff : Effect) : bool :=
  match eff with
  | Log entry => match level_of entry with Error => true | _ => false end
  | _ => false
  end.

(** The number of Telegram sends among the effects. *)
Definition sends (effs : list Effect) : nat :=
  length (filter is_send effs).

(** Every failed send of a failure notification leaves an error entry
    in the log. *)
Definition send_failures_logged (c : Config) : Prop :=
  ∀ e ip w err,
    mu w = Unlocked → banned_at (now_check e) ip w = false →
    LoginFailedEnabled c = true → send_failed e = Some err →
    ∃ eff, eff ∈ added w (world_of (handleFailedLogin c e ip w)) ∧
           is_error_entry eff = true.

Module Notices.

(** The scenario's first failure, the Telegram send failing. *)
Definition telegram_down : FailEnv :=
  with_sends (Scenario.healthy (1 * Second) []) None
             (Some (Errorf "telegram: 502 Bad Gateway")).

End Notices.

(** ** Reading the tailer *)

(** The read meets no fault other than the end of the file. *)
Definition fault_free (r : ReadEnv) : Prop :=
  read_fault r = None ∨ read_fault r = Some EOF.

(** The loop has returned. *)
Definition exited (r : Result TailStatus) : bool :=
  match r with
  | Done (Exited _) _ => true
  | _ => false
  end.

(** The bytes the reader has not consumed yet. *)
Definition unread (pos : nat) (r : ReadEnv) : string :=
  substring pos (String.length (log_file r) - pos) (log_file r).

(** [n] sleeps of the retry interval. *)
Definition naps (n : nat) : list Effect :=
  replicate n (Sleep (100 * Millisecond)).

(** ** Start *)

(** [Start], lines 56-67: load the blacklist, start the sweeper, tail
    the log.  The sweeper goroutine is the [SweepTick] steps of
    [sys_step]. *)
Definition Start (c : Config) (le : LoadEnv) (te : TailEnv) : M TailStatus :=
  err ← loadBlacklist c le;
  match err with
  | Some err => mret (Exited err)
  | None => monitorSSHLogs c te
  end.

Module Tailing.

(** The ssh log cannot be opened. *)
Definition unreadable : TailEnv := {|
  log_open := Some (Errorf "open /var/log/auth.log: permission denied");
  log_at_open := "";
  log_reads := []
|}.

End Tailing.

(** ** The process after a ban *)

Module Parked.

Definition other : string := "10.0.0.2".

(** The attacker reaches the threshold while ufw fails. *)
Definition refused_ban : list Op :=
  take 2 Scenario.three_failures ++
  [OnFailedLogin (Scenario.ufw_down (3 * Second)) Scenario.attacker].

(** Then another address reaches it, every collaborator working. *)
Definition other_ban : list Op :=
  [ OnFailedLogin (Scenario.healthy (4 * Second) []) other;
    OnFailedLogin (Scenario.healthy (5 * Second) []) other;
    OnFailedLogin
      (Scenario.healthy (6 * Second)
         [(Scenario.attacker, (3 * Second + 24 * Hour)%Z);
          (other, (6 * Second + 24 * Hour)%Z)])
      other ].

(** A failure of the attacker while its ban is in force. *)
Definition later_failure : Op :=
  OnFailedLogin (Scenario.healthy (7 * Second) []) Scenario.attacker.

(** A tick an hour after the bans of the first day have run out, ufw
    working. *)
Definition late_tick (w : World) : SweepEnv := {|
  sweep_order := map_to_list (bannedIPs w);
  now_visit := fun _ => (25 * Hour)%Z;
  ufw_delete := fun _ => None
|}.

(** [Start] on a blacklist file that lists one address. *)
Definition listed : System :=
  mkSystem (world_of (loadBlacklist Scenario.cfg Scenario.quiet_load
                        (NewMonitor ("10.0.0.9" +:+ newline))))
           false false.

Definition is_truncation (eff : Effect) : bool :=
  match eff with OpenTrunc => true | _ => false end.

Definition is_write (eff : Effect) : bool :=
  match eff with WriteString _ => true | _ => false end.

End Parked.

(** ** A write that fails part-way *)

(** After a write that fails part-way, the file holds the lines of the
    addresses written before the failure and nothing else. *)
Definition partial_write_keeps_whole_lines : Prop :=
  ∀ (e : SaveEnv) (w : World) pre ip t post n err,
    mu w ≠ WLocked → save_open e = None →
    ranges (save_order e) (bannedIPs w) →
    save_order e = pre ++ (ip, t) :: post →
    (∀ j, (j < length pre)%nat → save_write e j = WriteOk) →
    save_write e (length pre) = WriteFail n err →
    blacklist (world_of (saveBlacklist e w)) = lines_of pre.

Module Partial.

(** The disk fills up during the third write, after four bytes. *)
Definition disk_full : SaveEnv := {|
  save_open := None;
  save_order := map_to_list (bannedIPs Scenario.five_bans);
  save_write := fun i =>
    match i with
    | 2%nat => WriteFail 4 (Errorf "no space left on device")
    | _ => WriteOk
    end
|}.

End Partial.

(** ** The error of the save on the ban path *)

(** The store when [banIP] has set the record of [ip] and ufw has
    obeyed: where [saveBlacklist] is called. *)
Definition blocked (c : Config) (e : FailEnv) (ip : string) (w : World)
    : World :=
  emit_effect (UfwDeny ip) (set_bannedIPs <[ip := ban_expiry c e]> w).

(** The store when [banIP] has logged the ban and sent its notification,
    from the store [w] the save left. *)
Definition announced (c : Config) (e : FailEnv) (ip : string) (w : World)
    : World :=
  mkWorld (failedAttempts w) (bannedIPs w) (mu w) (blacklist w)
          (trace w
           ++ Log (LogBanned ip (BanDurationHours c) (ban_expiry c e))
           :: sent_banned c e ip).

(** ** More readings of the blacklist file *)

(** A file of the given lines, each ended by carriage return and line
    feed. *)
Definition crlf_lines_of (ips : list string) : string :=
  foldr (fun ip acc => ip +:+ String CR newline +:+ acc) "" ips.

(** The same lines, each ended by a line feed only. *)
Definition lf_lines_of (ips : list string) : string :=
  foldr (fun ip acc => ip +:+ newline +:+ acc) "" ips.

Module Loading.

(** A blacklist file with an empty line, a line ended by carriage
    return and line feed, a repeated address and no final line feed. *)
Definition messy : string :=
  "10.0.0.1" +:+ newline +:+ newline +:+
  "10.0.0.2" +:+ String CR newline +:+
  "10.0.0.1".

Definition by_line : LoadEnv := {|
  load_open := None;
  load_read := None;
  load_now := fun i => (Z.of_nat i * Second)%Z
|}.

End Loading.

(** ** More readings of the tailer *)

(** The handlers run for the lines, one line per read. *)
Fixpoint dispatchAll (c : Config) (reads : list ReadEnv)
    (lines : list string) : M unit :=
  match reads, lines with
  | r :: reads', l :: lines' =>
      dispatch c r (l +:+ newline);; dispatchAll c reads' lines'
  | _, _ => mret tt
  end.

Module Torn.

(** A line of the ssh log written in two pieces. *)
Definition head : string := "sshd[7]: Failed password for root from 10.0.".
Definition tail : string := "0.1 port 22 ssh2".

End Torn.

Module TornReads.

Definition first : ReadEnv := {|
  log_file := Torn.head;
  read_fault := None;
  fail_env := Scenario.healthy (1 * Second) [];
  success_env := {| geo_success := ""; send_success := None |}
|}.

Definition second : ReadEnv := {|
  log_file := Torn.head +:+ Torn.tail +:+ newline;
  read_fault := None;
  fail_env := Scenario.healthy (2 * Second) [];
  success_env := {| geo_success := ""; send_success := None |}
|}.

End TornReads.

Module Appended.

Definition line1 : string :=
  "sshd[7]: Failed password for root from 10.0.0.1 port 22 ssh2".
Definition line2 : string :=
  "sshd[8]: Accepted password for ann from 10.0.0.7 port 22 ssh2".

Definition read (now : Time) : ReadEnv := {|
  log_file := lf_lines_of [line1; line2];
  read_fault := None;
  fail_env := Scenario.healthy now [];
  success_env := {| geo_success := ""; send_success := None |}
|}.

End Appended.

(** ** Durations *)

(** The largest number of hours whose nanoseconds fit [time.Duration]. *)
Definition max_ban_hours : Z := 2562047%Z.

Module LongBan.

(** Bans of 3 000 000 hours at the first failure. *)
Definition cfg : Config := {|
  MaxFailedAttempts := 1;
  BanDurationHours := 3000000;
  ServiceName := "ssh_fb";
  InstallPath := "/opt/ssh_fb";
  LoginSuccessEnabled := true;
  LoginFailedEnabled := true;
  IPBannedEnabled := true
|}.

End LongBan.

(** ** Reading the extractor *)

(** Every character of the string passes the test. *)
Fixpoint chars_ok (P : ascii → bool) (s : string) : bool :=
  match s with
  | "" => true
  | String c s' => P c && chars_ok P s'
  end.

(** A non-empty run of decimal digits. *)
Definition is_number (s : string) : bool :=
  negb (String.eqb s "") && chars_ok is_digit s.

(** The address carried by an event. *)
Definition address_of (ev : Event) : string :=
  match ev with
  | FailedLogin ip => ip
  | SuccessfulLogin ip => ip
  end.

(** The string does not begin with a digit. *)
Definition no_digit_ahead (s : string) : bool :=
  match s with
  | "" => true
  | String c _ => negb (is_digit c)
  end.

(** A digit or a dot. *)
Definition is_plain (c : ascii) : bool := is_digit c || Ascii.eqb c ".".

Module Injected.

(** A failed login whose user name holds a "from" and an address. *)
Definition line : string :=
  "sshd[9]: Failed password for invalid user x from 192.0.2.7 from 10.0.0.1 port 22 ssh2".

End Injected.

(** * The geolocation client (pkg/ipinfo) *)

Module IPInfo.

Record IPInfo : Type := {
  Country : string;
  Region : string;
  City : string;
  ISP : string;
  Location : string
}.

Record Client : Type := {
  apiURL : string;
  language : string;
  timeout : Z;          (* seconds, int *)
  retryCount : Z;       (* int *)
  retryInterval : Z     (* seconds, int *)
}.

(** [NewClient], lines 39-50. *)
Definition NewClient (url lang : string) (secs retries interval : Z)
    : Client := {|
  apiURL := url;
  language := lang;
  timeout := secs;
  retryCount := retries;
  retryInterval := interval
|}.

(** What one request meets: [httpClient.Get] fails, or it answers and
    the JSON decoder fails, or the body decodes. *)
Inductive Response : Type :=
| GetFails (err : error)
| DecodeFails (err : error)
| Decoded (info : IPInfo).

(** What the client does to the outside world, in program order. *)
Inductive Call : Type :=
| HttpGet (url : string)
| Nap (d : Z)                  (* time.Sleep *)
| CloseBody.                   (* a deferred resp.Body.Close() *)

(** The errors of [GetIPInfo], by their text. *)
Inductive Failure : Type :=
| FetchFailed (cause : option error)   (* lines 70 and 87 *)
| ParseFailed (cause : error).         (* line 81 *)

(** [fmt.Sprintf("%s/%s?lang=%s", c.apiURL, ip, c.language)] *)
Definition url_of (c : Client) (ip : string) : string :=
  apiURL c +:+ "/" +:+ ip +:+ "?lang=" +:+ language c.

(** [time.Duration(c.retryInterval) * time.Second] *)
Definition retryWait (c : Client) : Z :=
  GoInt.wrap64 (retryInterval c * Second).

(** The loop of lines 62-85 from counter [i] on, followed by line 87;
    [resp i] is what the request of round [i] meets, [opened] counts the
    deferred closes registered so far, which run when the function
    returns.  The fuel bounds the rounds. *)
Fixpoint rounds (c : Client) (url : string) (resp : Z → Response)
    (fuel : nat) (i : Z) (lastErr : option error) (opened : nat)
    : option (list Call * (IPInfo + Failure)) :=
  if (i <=? retryCount c)%Z then
    match fuel with
    | O => None
    | S fuel' =>
        match resp i with
        | GetFails err =>
            if (i <? retryCount c)%Z then
              match rounds c url resp fuel' (GoInt.wrap64 (i + 1))
                      (Some err) opened with
              | Some (calls, r) =>
                  Some (HttpGet url :: Nap (retryWait c) :: calls, r)
              | None => None
              end
            else
              Some (HttpGet url :: repeat CloseBody opened,
                    inr (FetchFailed (Some err)))
        | DecodeFails err =>
            if (i <? retryCount c)%Z then
              match rounds c url resp fuel' (GoInt.wrap64 (i + 1))
                      (Some err) (S opened) with
              | Some (calls, r) =>
                  Some (HttpGet url :: Nap (retryWait c) :: calls, r)
              | None => None
              end
            else
              Some (HttpGet url :: repeat CloseBody (S opened),
                    inr (ParseFailed err))
        | Decoded info =>
            Some (HttpGet url :: repeat CloseBody (S opened), inl info)
        end
    end
  else Some (repeat CloseBody opened, inr (FetchFailed lastErr)).

(** [GetIPInfo], lines 58-88. *)
Definition GetIPInfo (c : Client) (resp : Z → Response) (ip : string)
    : option (list Call * (IPInfo + Failure)) :=
  rounds c (url_of c ip) resp (Z.to_nat (retryCount c + 1)) 0 None 0.

(** The two texts of [FormatIPInfo]. *)
Definition unknown_origin (ip : string) : string :=
  "IP: " +:+ ip +:+ " (无法获取属地信息)".

Definition origin (ip : string) (info : IPInfo) : string :=
  "IP: " +:+ ip +:+ newline +:+
  "属地: " +:+ Country info +:+ " " +:+ Region info +:+ " " +:+ City info
  +:+ newline +:+
  "ISP: " +:+ ISP info.

(** [FormatIPInfo], lines 95-103. *)
Definition FormatIPInfo (c : Client) (resp : Z → Response) (ip : string)
    : option (list Call * string) :=
  match GetIPInfo c resp ip with
  | Some (calls, inl info) => Some (calls, origin ip info)
  | Some (calls, inr _) => Some (calls, unknown_origin ip)
  | None => None
  end.

(** ** Readings of the retry loop *)

(** [n] failed rounds, each followed by the pause. *)
Fixpoint retried (c : Client) (ip : string) (n : nat) : list Call :=
  match n with
  | O => []
  | S n' => HttpGet (url_of c ip) :: Nap (retryWait c) :: retried c ip n'
  end.

Definition answered (r : Response) : bool :=
  match r with GetFails _ => false | _ => true end.

Definition failed (r : Response) : bool :=
  match r with Decoded _ => false | _ => true end.

(** The bodies opened by the rounds [from], ..., [from + n - 1]. *)
Fixpoint bodies (resp : Z → Response) (from : Z) (n : nat) : nat :=
  match n with
  | O => O
  | S n' =>
      (if answered (resp from) then 1 else 0) + bodies resp (from + 1) n'
  end%nat.

(** What the caller gets when a round is the last one. *)
Definition verdict (r : Response) : IPInfo + Failure :=
  match r with
  | GetFails err => inr (FetchFailed (Some err))
  | DecodeFails err => inr (ParseFailed err)
  | Decoded info => inl info
  end.

Definition is_get (x : Call) : bool :=
  match x with HttpGet _ => true | _ => false end.

Definition is_nap (x : Call) : bool :=
  match x with Nap _ => true | _ => false end.

Definition gets (calls : list Call) : nat :=
  length (List.filter is_get calls).

Definition naps (calls : list Call) : nat :=
  length (List.filter is_nap calls).

End IPInfo.

(** * The configuration file (internal/config) *)

Module ConfigFile.

Record TelegramSection : Type := {
  BotToken : string;
  ChatID : Z                      (* int64 *)
}.

Record SSHProtectionSection : Type := {
  MaxFailedAttempts : Z;          (* int *)
  BanDurationHours : Z;           (* int *)
  SSHLogFile : string
}.

Record BlacklistSection : Type := {
  File : string;
  CleanupIntervalHours : Z        (* int *)
}.

Record LoggingSection : Type := {
  LogFile : string;
  MaxSize : Z;
  MaxBackups : Z;
  MaxAge : Z;
  Compress : bool;
  RotateInterval : Z
}.

Record ServiceSection : Type := {
  InstallPath : string;
  ServiceName : string;
  ServiceFile : string;
  User : string;
  WorkingDirectory : string
}.

Record IPInfoSection : Type := {
  APIURL : string;
  Language : string;
  Timeout : Z;
  RetryCount : Z;
  RetryInterval : Z
}.

Record Notification : Type := {
  Enabled : bool;
  Template : string
}.

Record NotificationsSection : Type := {
  LoginSuccess : Notification;
  LoginFailed : Notification;
  IPBanned : Notification
}.

Record DebugSection : Type := {
  DebugEnabled : bool;
  LogLevel : string;
  TraceRequests : bool;
  ProfileCPU : bool;
  ProfileMemory : bool
}.

Record Config : Type := {
  Telegram : TelegramSection;
  SSHProtection : SSHProtectionSection;
  Blacklist : BlacklistSection;
  Logging : LoggingSection;
  Service : ServiceSection;
  IPInfo : IPInfoSection;
  Notifications : NotificationsSection;
  Debug : DebugSection
}.

(** The errors of [validateConfig] and [LoadConfig], by their text. *)
Inductive ConfigError : Type :=
| BadBotToken                     (* line 100 *)
| BadChatID                       (* line 103 *)
| BadMaxFailedAttempts            (* line 107 *)
| BadBanDurationHours             (* line 110 *)
| NoSSHLogFile                    (* line 113 *)
| NoBlacklistFile                 (* line 117 *)
| BadCleanupIntervalHours         (* line 120 *)
| NoLogFile                       (* line 124 *)
| NoInstallPath                   (* line 128 *)
| NoServiceName                   (* line 131 *)
| NoAPIURL                        (* line 135 *)
| LinuxLogPath                    (* line 149 *)
| LogDirFailed (err : error)      (* line 154 *)
| BlacklistDirFailed (err : error) (* line 159 *)
| CannotOpen (err : error)        (* line 81 *)
| CannotParse (err : error).      (* line 88 *)

(** [os.MkdirAll(filepath.Dir(file), 0755)] *)
Inductive FsCall : Type :=
| MkdirAllDirOf (file : string).

(** Where the validation runs: [runtime.GOOS] and what the two
    [os.MkdirAll] calls of [validateWindowsConfig] meet. *)
Record Host : Type := {
  GOOS : string;
  mkdir_log : option error;
  mkdir_blacklist : option error
}.

(** [validateWindowsConfig], lines 147-163. *)
Definition validateWindowsConfig (h : Host) (c : Config)
    : list FsCall * option ConfigError :=
  if String.prefix "/var/" (SSHLogFile (SSHProtection c)) then
    ([], Some LinuxLogPath)
  else
    match mkdir_log h with
    | Some err =>
        ([MkdirAllDirOf (LogFile (Logging c))], Some (LogDirFailed err))
    | None =>
        match mkdir_blacklist h with
        | Some err =>
            ([MkdirAllDirOf (LogFile (Logging c));
              MkdirAllDirOf (File (Blacklist c))],
             Some (BlacklistDirFailed err))
        | None =>
            ([MkdirAllDirOf (LogFile (Logging c));
              MkdirAllDirOf (File (Blacklist c))], None)
        end
    end.

Definition is_empty (s : string) : bool :=
  match s with EmptyString => true | String _ _ => false end.

(** [validateConfig], lines 98-145. *)
Definition validateConfig (h : Host) (c : Config)
    : list FsCall * option ConfigError :=
  if is_empty (BotToken (Telegram c))
     || String.eqb (BotToken (Telegram c)) "your_bot_token" then
    ([], Some BadBotToken)
  else if (ChatID (Telegram c) =? 0)%Z
          || (ChatID (Telegram c) =? 123456789)%Z then
    ([], Some BadChatID)
  else if (MaxFailedAttempts (SSHProtection c) <=? 0)%Z then
    ([], Some BadMaxFailedAttempts)
  else if (BanDurationHours (SSHProtection c) <=? 0)%Z then
    ([], Some BadBanDurationHours)
  else if is_empty (SSHLogFile (SSHProtection c)) then
    ([], Some NoSSHLogFile)
  else if is_empty (File (Blacklist c)) then
    ([], Some NoBlacklistFile)
  else if (CleanupIntervalHours (Blacklist c) <=? 0)%Z then
    ([], Some BadCleanupIntervalHours)
  else if is_empty (LogFile (Logging c)) then
    ([], Some NoLogFile)
  else if is_empty (InstallPath (Service c)) then
    ([], Some NoInstallPath)
  else if is_empty (ServiceName (Service c)) then
    ([], Some NoServiceName)
  else if is_empty (APIURL (IPInfo c)) then
    ([], Some NoAPIURL)
  else if String.eqb (GOOS h) "windows" then
    validateWindowsConfig h c
  else ([], None).

(** What [os.Open] and the YAML decoder give for the configuration
    file. *)
Inductive Source : Type :=
| Unreadable (err : error)
| Malformed (err : error)
| Parsed (c : Config).

(** [LoadConfig], lines 78-96. *)
Definition LoadConfig (h : Host) (src : Source)
    : list FsCall * (Config + ConfigError) :=
  match src with
  | Unreadable err => ([], inr (CannotOpen err))
  | Malformed err => ([], inr (CannotParse err))
  | Parsed c =>
      match validateConfig h c with
      | (calls, Some err) => (calls, inr err)
      | (calls, None) => (calls, inl c)
      end
  end.

(** Every field check of [validateConfig] passes. *)
Definition fields_ok (c : Config) : Prop :=
  BotToken (Telegram c) ≠ "" ∧
  BotToken (Telegram c) ≠ "your_bot_token" ∧
  ChatID (Telegram c) ≠ 0%Z ∧
  ChatID (Telegram c) ≠ 123456789%Z ∧
  (0 < MaxFailedAttempts (SSHProtection c))%Z ∧
  (0 < BanDurationHours (SSHProtection c))%Z ∧
  SSHLogFile (SSHProtection c) ≠ "" ∧
  File (Blacklist c) ≠ "" ∧
  (0 < CleanupIntervalHours (Blacklist c))%Z ∧
  LogFile (Logging c) ≠ "" ∧
  InstallPath (Service c) ≠ "" ∧
  ServiceName (Service c) ≠ "" ∧
  APIURL (IPInfo c) ≠ "".

(** The values decoded into the [int] fields the monitor computes
    with. *)
Definition typed (c : Config) : Prop :=
  GoInt.in_range (MaxFailedAttempts (SSHProtection c)) ∧
  GoInt.in_range (BanDurationHours (SSHProtection c)) ∧
  GoInt.in_range (RetryCount (IPInfo c)).

(** The configuration shipped with the program (configs/config.yaml). *)
Definition shipped : Config := {|
  Telegram := {| BotToken := "your_bot_token"; ChatID := 123456789 |};
  SSHProtection := {|
    MaxFailedAttempts := 5;
    BanDurationHours := 24;
    SSHLogFile := "/var/log/auth.log" |};
  Blacklist := {| File := "blacklist.txt"; CleanupIntervalHours := 24 |};
  Logging := {|
    LogFile := "ssh_fb.log";
    MaxSize := 10;
    MaxBackups := 5;
    MaxAge := 30;
    Compress := true;
    RotateInterval := 24 |};
  Service := {|
    InstallPath := "/opt/ssh_fb";
    ServiceName := "ssh_fb";
    ServiceFile := "ssh_fb.service";
    User := "root";
    WorkingDirectory := "/opt/ssh_fb" |};
  IPInfo := {|
    APIURL := "https://ipapi.co";
    Language := "zh";
    Timeout := 5;
    RetryCount := 3;
    RetryInterval := 1 |};
  Notifications := {|
    LoginSuccess := {| Enabled := true; Template := "" |};
    LoginFailed := {| Enabled := true; Template := "" |};
    IPBanned := {| Enabled := true; Template := "" |} |};
  Debug := {|
    DebugEnabled := false;
    LogLevel := "info";
    TraceRequests := false;
    ProfileCPU := false;
    ProfileMemory := false |}
|}.

(** The shipped configuration with the operator's credentials filled
    in. *)
Definition with_credentials (token : string) (chat : Z) (c : Config)
    : Config := {|
  Telegram := {| BotToken := token; ChatID := chat |};
  SSHProtection := SSHProtection c;
  Blacklist := Blacklist c;
  Logging := Logging c;
  Service := Service c;
  IPInfo := IPInfo c;
  Notifications := Notifications c;
  Debug := Debug c
|}.

Definition with_retries (n : Z) (c : Config) : Config := {|
  Telegram := Telegram c;
  SSHProtection := SSHProtection c;
  Blacklist := Blacklist c;
  Logging := Logging c;
  Service := Service c;
  IPInfo := {|
    APIURL := APIURL (IPInfo c);
    Language := Language (IPInfo c);
    Timeout := Timeout (IPInfo c);
    RetryCount := n;
    RetryInterval := RetryInterval (IPInfo c) |};
  Notifications := Notifications c;
  Debug := Debug c
|}.

Definition linux : Host := {|
  GOOS := "linux";
  mkdir_log := None;
  mkdir_blacklist := None
|}.

End ConfigFile.

(** What the monitor and the notifier read of the configuration. *)
Definition monitor_config (c : ConfigFile.Config) : Config := {|
  MaxFailedAttempts :=
    ConfigFile.MaxFailedAttempts (ConfigFile.SSHProtection c);
  BanDurationHours :=
    ConfigFile.BanDurationHours (ConfigFile.SSHProtection c);
  ServiceName := ConfigFile.ServiceName (ConfigFile.Service c);
  InstallPath := ConfigFile.InstallPath (ConfigFile.Service c);
  LoginSuccessEnabled :=
    ConfigFile.Enabled (ConfigFile.LoginSuccess (ConfigFile.Notifications c));
  LoginFailedEnabled :=
    ConfigFile.Enabled (ConfigFile.LoginFailed (ConfigFile.Notifications c));
  IPBannedEnabled :=
    ConfigFile.Enabled (ConfigFile.IPBanned (ConfigFile.Notifications c))
|}.

(** The client built by [NewMonitor], monitor.go line 46. *)
Definition monitor_client (c : ConfigFile.Config) : IPInfo.Client :=
  IPInfo.NewClient
    (ConfigFile.APIURL (ConfigFile.IPInfo c))
    (ConfigFile.Language (ConfigFile.IPInfo c))
    (ConfigFile.Timeout (ConfigFile.IPInfo c))
    (ConfigFile.RetryCount (ConfigFile.IPInfo c))
    (ConfigFile.RetryInterval (ConfigFile.IPInfo c)).

Module Lookup.

(** The client of the shipped configuration. *)
Definition client : IPInfo.Client :=
  monitor_client ConfigFile.shipped.

Definition beijing : IPInfo.IPInfo := {|
  IPInfo.Country := "CN";
  IPInfo.Region := "Beijing";
  IPInfo.City := "Beijing";
  IPInfo.ISP := "AS4808";
  IPInfo.Location := ""
|}.

(** The service is unreachable once, answers garbage once, and then
    answers. *)
Definition flaky (i : Z) : IPInfo.Response :=
  if (i =? 0)%Z then IPInfo.GetFails (Errorf "connection refused")
  else if (i =? 1)%Z then IPInfo.DecodeFails (Errorf "unexpected end of JSON input")
  else IPInfo.Decoded beijing.

(** The service is never reachable. *)
Definition down (i : Z) : IPInfo.Response :=
  IPInfo.GetFails (Errorf "connection refused").

End Lookup.

(** * Installation and start-up (pkg/firewall, cmd/ssh_fb) *)

Module Setup.

(** A file name: a literal, or [filepath.Join(dir, name)]. *)
Inductive Path : Type :=
| At (name : string)
| Join (dir name : string).

(** The entries written through the logger by main.go. *)
Inductive Notice : Type :=
| InstallBegins              (* Info, line 191 *)
| InstallEnds                (* Info, line 255 *)
| InstallSucceeded           (* Info, line 99  *)
| UninstallBegins            (* Info, line 260 *)
| UninstallEnds              (* Info, line 291 *)
| UninstallSucceeded         (* Info, line 107 *)
| Starting                   (* Info, line 112 *)
| InstallingUfw              (* Info, line 178 *)
| EnablingUfw.               (* Info, line 182 *)

Inductive Trouble : Type :=
| StopFailed                 (* Warn, line 265 *)
| DisableFailed              (* Warn, line 271 *)
| RemoveUnitFailed           (* Warn, line 277 *)
| ReloadUnitsFailed          (* Warn, line 283 *)
| RemoveDirFailed.           (* Warn, line 288 *)

(** The complaints of the flag package, by their text. *)
Inductive FlagError : Type :=
| BadSyntax (arg : string)             (* bad flag syntax: %s *)
| NotDefined (name : string)           (* flag provided but not defined *)
| BadBoolean (value name : string).    (* invalid boolean value *)

(** What is printed on standard output. *)
Inductive Printed : Type :=
| UnknownCommand (word : string)     (* line 68 *)
| Usage                              (* flag.Usage *)
| VersionInfo                        (* line 80 *)
| ConfigFailed (err : ConfigFile.ConfigError).   (* line 88 *)

(** What the start-up code does to the operating system, in program
    order. *)
Inductive Step : Type :=
| Run (argv : list string)           (* exec.Command(argv...).Run() *)
| LookPath (name : string)           (* exec.LookPath *)
| MkdirAll (path : string)
| MkdirAllDirOf (file : string)      (* os.MkdirAll(filepath.Dir(file)) *)
| OpenAppend (file : string)         (* the log file, line 166 *)
| Executable                         (* os.Executable() *)
| Open (path : Path)
| Create (path : Path)
| Copy (dst src : Path)              (* io.Copy *)
| Stat (path : Path)
| Chmod (path : Path)
| Close (path : Path)                (* a deferred Close *)
| WriteFile (path : Path) (content : string)
| Remove (path : Path)
| RemoveAll (path : string)
| Info (n : Notice)
| Warnf (t : Trouble) (err : error)
| Fatal                              (* logger.Fatal, logger.Fatalf *)
| Printf (p : Printed)               (* fmt.Printf, flag.Usage *)
| Stderr (err : FlagError)           (* the flag package's complaint *)
| NewBotAPI (token : string).        (* notification.NewTelegram *)

(** A computation that leaves a trace of steps. *)
Definition Script (A : Type) : Type := list Step * A.

#[global] Instance Script_ret : MRet Script := fun A a => ([], a).

#[global] Instance Script_bind : MBind Script := fun A B k m =>
  let '(t, a) := m in let '(t', b) := k a in (t ++ t', b).

Definition step {A} (s : Step) (res : A) : Script A := ([s], res).

(** ** pkg/firewall *)

(** What the commands of the firewall package meet. *)
Record ToolsEnv : Type := {
  ufw_status : option error;     (* ufw status                 *)
  has_apt_get : bool;            (* exec.LookPath("apt-get")   *)
  has_yum : bool;                (* exec.LookPath("yum")       *)
  has_dnf : bool;                (* exec.LookPath("dnf")       *)
  apt_update : option error;     (* apt-get update             *)
  pkg_install : option error;    (* the one install command    *)
  ufw_enable : option error      (* ufw enable                 *)
}.

Inductive UfwError : Type :=
| UpdateFailed (err : error)         (* line 77 *)
| NoPackageManager                   (* line 85 *)
| InstallFailed (err : error)        (* line 89 *)
| EnableFailed (err : error).        (* line 59 *)

(** [IsEnabled], lines 48-51. *)
Definition IsEnabled (e : ToolsEnv) : Script bool :=
  err ← step (Run ["ufw"; "status"]) (ufw_status e);
  mret (bool_decide (err = None)).

(** [Enable], lines 56-62. *)
Definition Enable (e : ToolsEnv) : Script (option UfwError) :=
  err ← step (Run ["ufw"; "enable"]) (ufw_enable e);
  mret (EnableFailed <$> err).

(** Lines 88-92 of [Install]. *)
Definition runInstall (e : ToolsEnv) (argv : list string)
    : Script (option UfwError) :=
  err ← step (Run argv) (pkg_install e);
  mret (InstallFailed <$> err).

(** [Install], lines 71-93. *)
Definition Install (e : ToolsEnv) : Script (option UfwError) :=
  apt ← step (LookPath "apt-get") (has_apt_get e);
  if (apt : bool) then
    err ← step (Run ["apt-get"; "update"]) (apt_update e);
    match err with
    | Some err => mret (Some (UpdateFailed err))
    | None => runInstall e ["apt-get"; "install"; "-y"; "ufw"]
    end
  else
    yum ← step (LookPath "yum") (has_yum e);
    if (yum : bool) then runInstall e ["yum"; "install"; "-y"; "ufw"]
    else
      dnf ← step (LookPath "dnf") (has_dnf e);
      if (dnf : bool) then runInstall e ["dnf"; "install"; "-y"; "ufw"]
      else mret (Some NoPackageManager).

(** ** cmd/ssh_fb *)

(** [checkAndInstallTools], lines 175-188. *)
Definition checkAndInstallTools (e : ToolsEnv) : Script (option UfwError) :=
  enabled ← IsEnabled e;
  if negb enabled then
    step (Info InstallingUfw) tt;;
    err ← Install e;
    match err with
    | Some err => mret (Some err)
    | None =>
        step (Info EnablingUfw) tt;;
        err ← Enable e;
        match err with
        | Some err => mret (Some err)
        | None => mret None
        end
    end
  else mret None.

(** What one [copyFile] meets. *)
Record CopyEnv : Type := {
  open_src : option error;
  create_dst : option error;
  io_copy : option error;
  stat_src : option error;
  chmod_dst : option error
}.

(** [copyFile], lines 295-319; the deferred closes run last, the
    destination first. *)
Definition copyFile (e : CopyEnv) (src dst : Path) : Script (option error) :=
  err ← step (Open src) (open_src e);
  match err with
  | Some err => mret (Some err)
  | None =>
      err ← step (Create dst) (create_dst e);
      match err with
      | Some err => step (Close src) (Some err)
      | None =>
          res ←
            (err ← step (Copy dst src) (io_copy e);
             match err with
             | Some err => mret (Some err)
             | None =>
                 err ← step (Stat src) (stat_src e);
                 match err with
                 | Some err => mret (Some err)
                 | None => step (Chmod dst) (chmod_dst e)
                 end
             end);
          step (Close dst) tt;;
          step (Close src) res
      end
  end.

(** What [installService] meets. *)
Record InstallEnv : Type := {
  mkdir_install : option error;
  os_executable : error + string;
  copy_program : CopyEnv;
  copy_config : CopyEnv;
  write_unit : option error;
  daemon_reload : option error;
  enable_unit : option error;
  start_unit : option error
}.

Inductive InstallError : Type :=
| MkdirFailed (err : error)          (* line 195 *)
| NoExecutable (err : error)         (* line 201 *)
| CopyProgramFailed (err : error)    (* line 206 *)
| CopyConfigFailed (err : error)     (* line 211 *)
| WriteUnitFailed (err : error)      (* line 235 *)
| ReloadFailed (err : error)         (* line 241 *)
| EnableUnitFailed (err : error)     (* line 247 *)
| StartFailed (err : error).         (* line 252 *)

(** The unit file of lines 215-231. *)
Definition unit_text (c : ConfigFile.Config) : string :=
  "[Unit]" +:+ newline +:+
  "Description=SSH Protection Service" +:+ newline +:+
  "After=network.target" +:+ newline +:+
  newline +:+
  "[Service]" +:+ newline +:+
  "Type=simple" +:+ newline +:+
  "User=" +:+ ConfigFile.User (ConfigFile.Service c) +:+ newline +:+
  "WorkingDirectory=" +:+
    ConfigFile.WorkingDirectory (ConfigFile.Service c) +:+ newline +:+
  "ExecStart=" +:+ ConfigFile.InstallPath (ConfigFile.Service c) +:+
    "/ssh_fb" +:+ newline +:+
  "Restart=always" +:+ newline +:+
  "RestartSec=10" +:+ newline +:+
  newline +:+
  "[Install]" +:+ newline +:+
  "WantedBy=multi-user.target".

Definition unit_path (c : ConfigFile.Config) : Path :=
  Join "/etc/systemd/system" (ConfigFile.ServiceFile (ConfigFile.Service c)).

(** [installService], lines 190-257. *)
Definition installService (c : ConfigFile.Config) (e : InstallEnv)
    : Script (option InstallError) :=
  let dir := ConfigFile.InstallPath (ConfigFile.Service c) in
  let name := ConfigFile.ServiceName (ConfigFile.Service c) in
  step (Info InstallBegins) tt;;
  err ← step (MkdirAll dir) (mkdir_install e);
  match err with
  | Some err => mret (Some (MkdirFailed err))
  | None =>
  execPath ← step Executable (os_executable e);
  match execPath with
  | inl err => mret (Some (NoExecutable err))
  | inr execPath =>
  err ← copyFile (copy_program e) (At execPath) (Join dir "ssh_fb");
  match err with
  | Some err => mret (Some (CopyProgramFailed err))
  | None =>
  err ← copyFile (copy_config e) (At "configs/config.yaml")
          (Join dir "config.yaml");
  match err with
  | Some err => mret (Some (CopyConfigFailed err))
  | None =>
  err ← step (WriteFile (unit_path c) (unit_text c)) (write_unit e);
  match err with
  | Some err => mret (Some (WriteUnitFailed err))
  | None =>
  err ← step (Run ["systemctl"; "daemon-reload"]) (daemon_reload e);
  match err with
  | Some err => mret (Some (ReloadFailed err))
  | None =>
  err ← step (Run ["systemctl"; "enable"; name]) (enable_unit e);
  match err with
  | Some err => mret (Some (EnableUnitFailed err))
  | None =>
  err ← step (Run ["systemctl"; "start"; name]) (start_unit e);
  match err with
  | Some err => mret (Some (StartFailed err))
  | None =>
  step (Info InstallEnds) tt;;
  mret None
  end end end end end end end end.

(** What [uninstallService] meets. *)
Record UninstallEnv : Type := {
  stop_unit : option error;
  disable_unit : option error;
  remove_unit : option error;
  reload_units : option error;
  remove_dir : option error
}.

(** [if err := ...; err != nil { logger.Warnf(...) }] *)
Definition warnIf (t : Trouble) (err : option error) : Script unit :=
  match err with
  | Some err => step (Warnf t err) tt
  | None => mret tt
  end.

(** [uninstallService], lines 259-293. *)
Definition uninstallService (c : ConfigFile.Config) (e : UninstallEnv)
    : Script (option InstallError) :=
  let dir := ConfigFile.InstallPath (ConfigFile.Service c) in
  let name := ConfigFile.ServiceName (ConfigFile.Service c) in
  step (Info UninstallBegins) tt;;
  err ← step (Run ["systemctl"; "stop"; name]) (stop_unit e);
  warnIf StopFailed err;;
  err ← step (Run ["systemctl"; "disable"; name]) (disable_unit e);
  warnIf DisableFailed err;;
  err ← step (Remove (unit_path c)) (remove_unit e);
  warnIf RemoveUnitFailed err;;
  err ← step (Run ["systemctl"; "daemon-reload"]) (reload_units e);
  warnIf ReloadUnitsFailed err;;
  err ← step (RemoveAll dir) (remove_dir e);
  warnIf RemoveDirFailed err;;
  step (Info UninstallEnds) tt;;
  mret None.

(** What [initLogger] meets. *)
Record LoggerEnv : Type := {
  mkdir_logdir : option error;
  open_logfile : option error
}.

(** How [main] ends: with [os.Exit], or by reaching [mon.Start()] with
    the monitor of a configuration. *)
Inductive Ending : Type :=
| Exit (code : Z)
| Serve (c : ConfigFile.Config).

(** [initLogger], lines 143-173, up to the logger's own settings:
    [None] when it has ended the process through [Fatalf]. *)
Definition initLogger (c : ConfigFile.Config) (e : LoggerEnv)
    : Script (option unit) :=
  let file := ConfigFile.LogFile (ConfigFile.Logging c) in
  err ← step (MkdirAllDirOf file) (mkdir_logdir e);
  match err with
  | Some _ => step Fatal None
  | None =>
      err ← step (OpenAppend file) (open_logfile e);
      match err with
      | Some _ => step Fatal None
      | None => mret (Some tt)
      end
  end.

(** The four switches of lines 33-36. *)
Record Flags : Type := {
  cmdInstall : bool;
  cmdUninstall : bool;
  cmdHelp : bool;
  cmdVersion : bool
}.

(** Their values before [flag.Parse]. *)
Definition no_flags : Flags := {|
  cmdInstall := false;
  cmdUninstall := false;
  cmdHelp := false;
  cmdVersion := false
|}.

(** ** [flag.Parse] (package flag of the Go library) *)

(** [strconv.ParseBool] *)
Definition ParseBool (s : string) : option bool :=
  if bool_decide (s ∈ ["1"; "t"; "T"; "TRUE"; "true"; "True"]) then Some true
  else if bool_decide (s ∈ ["0"; "f"; "F"; "FALSE"; "false"; "False"])
  then Some false
  else None.

(** The text before the first "=" and the text after it, if there is
    one. *)
Fixpoint cutEq (s : string) : string * option string :=
  match s with
  | "" => ("", None)
  | String c s' =>
      if Ascii.eqb c "=" then ("", Some s')
      else let '(name, value) := cutEq s' in (String c name, value)
  end.

(** [f.formal[name]]: the switch of that name, as the function that
    sets it. *)
Definition formal (name : string) : option (bool → Flags → Flags) :=
  if String.eqb name "install" then
    Some (fun b f => {| cmdInstall := b; cmdUninstall := cmdUninstall f;
                        cmdHelp := cmdHelp f; cmdVersion := cmdVersion f |})
  else if String.eqb name "uninstall" then
    Some (fun b f => {| cmdInstall := cmdInstall f; cmdUninstall := b;
                        cmdHelp := cmdHelp f; cmdVersion := cmdVersion f |})
  else if String.eqb name "help" then
    Some (fun b f => {| cmdInstall := cmdInstall f;
                        cmdUninstall := cmdUninstall f;
                        cmdHelp := b; cmdVersion := cmdVersion f |})
  else if String.eqb name "version" then
    Some (fun b f => {| cmdInstall := cmdInstall f;
                        cmdUninstall := cmdUninstall f;
                        cmdHelp := cmdHelp f; cmdVersion := b |})
  else None.

(** What [parseOne] makes of the first argument. *)
Inductive Seen : Type :=
| NoFlag                         (* not a switch, or "--": parsing ends *)
| Switch (f : Flags)             (* a switch, set                       *)
| HelpAsked                      (* -h, not defined: ErrHelp            *)
| Refused (err : FlagError).

(** The argument [arg] with its minus signs taken off. *)
Definition parseSwitch (f : Flags) (arg name : string) : Seen :=
  match name with
  | "" => Refused (BadSyntax arg)
  | String c rest =>
      if Ascii.eqb c "-" || Ascii.eqb c "=" then Refused (BadSyntax arg)
      else
        let '(tail, value) := cutEq rest in
        let name := String c tail in
        match formal name with
        | None =>
            if String.eqb name "help" || String.eqb name "h"
            then HelpAsked else Refused (NotDefined name)
        | Some set =>
            match value with
            | Some v =>
                match ParseBool v with
                | Some b => Switch (set b f)
                | None => Refused (BadBoolean v name)
                end
            | None => Switch (set true f)
            end
        end
  end.

(** [parseOne] on the argument [s]. *)
Definition parseOne (f : Flags) (s : string) : Seen :=
  match s with
  | String c1 (String c2 rest) =>
      if negb (Ascii.eqb c1 "-") then NoFlag
      else if Ascii.eqb c2 "-" then
        match rest with
        | "" => NoFlag
        | _ => parseSwitch f s rest
        end
      else parseSwitch f s (String c2 rest)
  | _ => NoFlag
  end.

(** How [flag.Parse] ends. *)
Inductive Parsing : Type :=
| Parsed (f : Flags)             (* it returns            *)
| Helped                         (* usage, os.Exit(0)     *)
| Rejected (err : FlagError).    (* complaint, usage, os.Exit(2) *)

(** [flag.Parse] over [os.Args[1:]], the error handling being
    [ExitOnError]. *)
Fixpoint Parse (f : Flags) (arguments : list string) : Parsing :=
  match arguments with
  | [] => Parsed f
  | s :: rest =>
      match parseOne f s with
      | NoFlag => Parsed f
      | Switch f' => Parse f' rest
      | HelpAsked => Helped
      | Refused err => Rejected err
      end
  end.

(** Lines 57-72: the first word stands for a switch when no switch is
    given; [None] for an unknown word. *)
Definition byWord (f : Flags) (args : list string) : option Flags :=
  if negb (cmdInstall f) && negb (cmdUninstall f) && negb (cmdHelp f)
     && negb (cmdVersion f) && (1 <? length args)%nat then
    match args !! 1%nat with
    | Some word =>
        if String.eqb word "install" then
          Some {| cmdInstall := true; cmdUninstall := cmdUninstall f;
                  cmdHelp := cmdHelp f; cmdVersion := cmdVersion f |}
        else if String.eqb word "uninstall" then
          Some {| cmdInstall := cmdInstall f; cmdUninstall := true;
                  cmdHelp := cmdHelp f; cmdVersion := cmdVersion f |}
        else if String.eqb word "help" then
          Some {| cmdInstall := cmdInstall f; cmdUninstall := cmdUninstall f;
                  cmdHelp := true; cmdVersion := cmdVersion f |}
        else if String.eqb word "version" then
          Some {| cmdInstall := cmdInstall f; cmdUninstall := cmdUninstall f;
                  cmdHelp := cmdHelp f; cmdVersion := true |}
        else None
    | None => Some f
    end
  else Some f.

(** What one run of [main] meets.  [os.Args] is never empty: package
    flag reads [os.Args[0]] when it is initialised. *)
Record MainEnv : Type := {
  program : string;                    (* os.Args[0]  *)
  arguments : list string;             (* os.Args[1:] *)
  host : ConfigFile.Host;
  source : ConfigFile.Source;          (* configs/config.yaml *)
  logger_env : LoggerEnv;
  install_env : InstallEnv;
  uninstall_env : UninstallEnv;
  tools_env : ToolsEnv;
  new_telegram : option error          (* tgbotapi.NewBotAPI *)
}.

(** [os.Args] *)
Definition args (e : MainEnv) : list string := program e :: arguments e.

Definition lift (calls : list ConfigFile.FsCall) : list Step :=
  map (fun x => match x with
                | ConfigFile.MkdirAllDirOf file => MkdirAllDirOf file
                end) calls.

(** Lines 74-141 of [main], the switches being [f], up to the call of
    [mon.Start()]; the goroutine of line 130 is started just before
    it. *)
Definition serve (e : MainEnv) (f : Flags) : Script Ending :=
  if cmdHelp f then
    step (Printf Usage) tt;;
    mret (Exit 0)
  else if cmdVersion f then
    step (Printf VersionInfo) tt;;
    mret (Exit 0)
  else
    match ConfigFile.LoadConfig (host e) (source e) with
    | (calls, inr err) =>
        (lift calls, tt);;
        step (Printf (ConfigFailed err)) tt;;
        mret (Exit 1)
    | (calls, inl cfg) =>
        (lift calls, tt);;
        logger ← initLogger cfg (logger_env e);
        match logger with
        | None => mret (Exit 1)
        | Some _ =>
            if cmdInstall f then
              err ← installService cfg (install_env e);
              match err with
              | Some _ => step Fatal (Exit 1)
              | None =>
                  step (Info InstallSucceeded) tt;;
                  mret (Exit 0)
              end
            else if cmdUninstall f then
              err ← uninstallService cfg (uninstall_env e);
              match err with
              | Some _ => step Fatal (Exit 1)
              | None =>
                  step (Info UninstallSucceeded) tt;;
                  mret (Exit 0)
              end
            else
              step (Info Starting) tt;;
              err ← checkAndInstallTools (tools_env e);
              match err with
              | Some _ => step Fatal (Exit 1)
              | None =>
                  err ← step (NewBotAPI
                                (ConfigFile.BotToken
                                   (ConfigFile.Telegram cfg)))
                          (new_telegram e);
                  match err with
                  | Some _ => step Fatal (Exit 1)
                  | None => mret (Serve cfg)
                  end
              end
        end
    end.

(** [main], lines 54-141. *)
Definition main (e : MainEnv) : Script Ending :=
  match Parse no_flags (arguments e) with
  | Rejected err =>
      step (Stderr err) tt;;
      step (Printf Usage) tt;;
      mret (Exit 2)
  | Helped =>
      step (Printf Usage) tt;;
      mret (Exit 0)
  | Parsed fl =>
      match byWord fl (args e) with
      | None =>
          step (Printf (UnknownCommand (default "" (args e !! 1%nat)))) tt;;
          step (Printf Usage) tt;;
          mret (Exit 1)
      | Some f => serve e f
      end
  end.

(** ** Readings of the start-up code *)

(** The steps that change the system: not the log entries, not the
    deferred closes. *)
Definition is_work (s : Step) : bool :=
  match s with
  | Info _ | Warnf _ _ | Close _ => false
  | _ => true
  end.

Definition work (t : list Step) : list Step := List.filter is_work t.

Definition is_warning (s : Step) : bool :=
  match s with Warnf _ _ => true | _ => false end.

Definition warnings (t : list Step) : list Step :=
  List.filter is_warning t.

(** The same installation with nothing in its way. *)
Definition smooth_copy : CopyEnv := {|
  open_src := None;
  create_dst := None;
  io_copy := None;
  stat_src := None;
  chmod_dst := None
|}.

Definition unhindered (e : InstallEnv) : InstallEnv := {|
  mkdir_install := None;
  os_executable :=
    inr (match os_executable e with inr path => path | inl _ => "" end);
  copy_program := smooth_copy;
  copy_config := smooth_copy;
  write_unit := None;
  daemon_reload := None;
  enable_unit := None;
  start_unit := None
|}.

Definition copied (e : CopyEnv) : Prop :=
  open_src e = None ∧ create_dst e = None ∧ io_copy e = None ∧
  stat_src e = None ∧ chmod_dst e = None.

Definition all_went_well (e : InstallEnv) : Prop :=
  mkdir_install e = None ∧
  (∃ path, os_executable e = inr path) ∧
  copied (copy_program e) ∧ copied (copy_config e) ∧
  write_unit e = None ∧ daemon_reload e = None ∧
  enable_unit e = None ∧ start_unit e = None.

(** The five removals of [uninstallService]. *)
Definition removals (c : ConfigFile.Config) : list Step :=
  [Run ["systemctl"; "stop";
        ConfigFile.ServiceName (ConfigFile.Service c)];
   Run ["systemctl"; "disable";
        ConfigFile.ServiceName (ConfigFile.Service c)];
   Remove (unit_path c);
   Run ["systemctl"; "daemon-reload"];
   RemoveAll (ConfigFile.InstallPath (ConfigFile.Service c))].

Definition failures (e : UninstallEnv) : nat :=
  length (omap id [stop_unit e; disable_unit e; remove_unit e;
                   reload_units e; remove_dir e]).

(** The install commands of the three package managers. *)
Definition install_with (manager : string) : Step :=
  Run [manager; "install"; "-y"; "ufw"].

(** A package manager is found and does its work. *)
Definition installable (e : ToolsEnv) : Prop :=
  (has_apt_get e = true ∧ apt_update e = None ∨
   has_apt_get e = false ∧ (has_yum e = true ∨ has_dnf e = true)) ∧
  pkg_install e = None.

(** The manager [Install] turns to. *)
Definition manager (e : ToolsEnv) : option string :=
  if has_apt_get e then Some "apt-get"
  else if has_yum e then Some "yum"
  else if has_dnf e then Some "dnf"
  else None.

(** Two runs of the program with the operator's credentials in the
    configuration. *)
Definition ready : ConfigFile.Config :=
  ConfigFile.with_credentials "7:token" 42 ConfigFile.shipped.

Definition nothing_installed : UninstallEnv := {|
  stop_unit := Some (Errorf "exit status 5");
  disable_unit := Some (Errorf "exit status 1");
  remove_unit := Some (Errorf "no such file or directory");
  reload_units := Some (Errorf "exit status 1");
  remove_dir := Some (Errorf "permission denied")
|}.

Definition started_with (cfg : ConfigFile.Config) (words : list string)
    : MainEnv := {|
  program := "./ssh_fb";
  arguments := words;
  host := ConfigFile.linux;
  source := ConfigFile.Parsed cfg;
  logger_env := {| mkdir_logdir := None; open_logfile := None |};
  install_env := unhindered {|
    mkdir_install := None;
    os_executable := inr "/root/ssh_fb";
    copy_program := smooth_copy;
    copy_config := smooth_copy;
    write_unit := None;
    daemon_reload := None;
    enable_unit := None;
    start_unit := None |};
  uninstall_env := nothing_installed;
  tools_env := {|
    ufw_status := None;
    has_apt_get := true;
    has_yum := false;
    has_dnf := false;
    apt_update := None;
    pkg_install := None;
    ufw_enable := None |};
  new_telegram := None
|}.

Definition started (words : list string) : MainEnv :=
  started_with ready words.

End Setup.

(** * The bot commands (internal/notification) *)

Module Commands.

(** What one [TestCommand] meets. *)
Record TestEnv : Type := {
  test_now : Time;                 (* time.Now(), line 149 *)
  test_success : option error;     (* result of the first send  *)
  test_failed : option error;      (* result of the second send *)
  test_banned : option error       (* result of the third send  *)
}.

(** The errors of [TestCommand], by their text. *)
Inductive TestFailure : Type :=
| SuccessNoticeFailed (err : error)    (* line 140 *)
| FailureNoticeFailed (err : error)    (* line 145 *)
| BanNoticeFailed (err : error).       (* line 150 *)

(** The arguments of lines 139, 144 and 149. *)
Definition origin1 : string :=
  "IP: 192.168.1.1" +:+ newline +:+ "属地: 中国 北京" +:+ newline +:+
  "ISP: 测试ISP".

Definition origin2 : string :=
  "IP: 192.168.1.2" +:+ newline +:+ "属地: 中国 上海" +:+ newline +:+
  "ISP: 测试ISP".

Definition origin3 : string :=
  "IP: 192.168.1.3" +:+ newline +:+ "属地: 中国 广州" +:+ newline +:+
  "ISP: 测试ISP".

Definition test_server : string := "测试服务器".

(** [TestCommand], lines 137-154. *)
Definition TestCommand (c : Config) (e : TestEnv) : M (option TestFailure) :=
  err ← NotifyLoginSuccess c (test_success e)
          "192.168.1.1" origin1 test_server;
  match err with
  | Some err => mret (Some (SuccessNoticeFailed err))
  | None =>
      err ← NotifyLoginFailed c (test_failed e)
              "192.168.1.2" origin2 test_server 3 5;
      match err with
      | Some err => mret (Some (FailureNoticeFailed err))
      | None =>
          err ← NotifyIPBanned c (test_banned e)
                  "192.168.1.3" origin3 test_server
                  (24 * Hour) (test_now e + 24 * Hour);
          match err with
          | Some err => mret (Some (BanNoticeFailed err))
          | None => mret None
          end
      end
  end.

(** The notifications that are enabled, in the order of [TestCommand],
    each with the result of its send. *)
Definition planned (c : Config) (e : TestEnv)
    : list (Message * option error) :=
  (if LoginSuccessEnabled c
   then [(MsgLoginSuccess origin1 test_server, test_success e)] else []) ++
  (if LoginFailedEnabled c
   then [(MsgLoginFailed origin2 3 5 test_server, test_failed e)] else []) ++
  (if IPBannedEnabled c
   then [(MsgIPBanned "192.168.1.3" origin3 (24 * Hour)
            (test_now e + 24 * Hour) test_server, test_banned e)]
   else []).

(** The sends up to and including the first one that fails. *)
Fixpoint attempted {A} (l : list (A * option error)) : list A :=
  match l with
  | [] => []
  | (a, None) :: l' => a :: attempted l'
  | (a, Some _) :: _ => [a]
  end.

(** [update.Message]: the chat it came from, and what [IsCommand()] and
    [Command()] say of it. *)
Record Incoming : Type := {
  Chat : Z;
  IsCommand : bool;
  Command : string
}.

(** The texts of the replies. *)
Inductive ReplyText : Type :=
| Welcome                              (* line 184 *)
| StatusReport                         (* line 186 *)
| TestFailedReply (f : TestFailure)    (* line 189 *)
| TestSentReply                        (* line 191 *)
| HelpReply                            (* line 194 *)
| UnknownReply.                        (* line 196 *)

(** One update off the channel, and what handling it meets. *)
Record Update : Type := {
  Message : option Incoming;
  test_env : TestEnv;
  reply_send : option error            (* result of bot.Send, line 199 *)
}.

(** What the command loop does, in program order: the effects of
    [TestCommand], the replies, and the log entry of line 200. *)
Inductive BotStep : Type :=
| Notice (eff : Effect)
| Reply (chat : Z) (text : ReplyText)
| LogReplyFailed (err : error).

(** The [switch] of lines 182-197: the steps taken for the command and
    the text of the reply; [None] if [TestCommand] does not return. *)
Definition replyTo (c : Config) (u : Update) (m : Incoming)
    : list BotStep * option ReplyText :=
  if String.eqb (Command m) "start" then ([], Some Welcome)
  else if String.eqb (Command m) "status" then ([], Some StatusReport)
  else if String.eqb (Command m) "test" then
    match TestCommand c (test_env u) (NewMonitor "") with
    | Done (Some f) w => (Notice <$> trace w, Some (TestFailedReply f))
    | Done None w => (Notice <$> trace w, Some TestSentReply)
    | Halted _ w => (Notice <$> trace w, None)
    end
  else if String.eqb (Command m) "help" then ([], Some HelpReply)
  else ([], Some UnknownReply).

(** The loop of lines 171-202 over the updates the channel delivers
    before it is closed; the flag tells whether line 204 is reached. *)
Fixpoint HandleCommands (c : Config) (updates : list Update)
    : list BotStep * bool :=
  match updates with
  | [] => ([], true)
  | u :: rest =>
      match Message u with
      | None => HandleCommands c rest
      | Some m =>
          if negb (IsCommand m) then HandleCommands c rest
          else
            match replyTo c u m with
            | (steps, None) => (steps, false)
            | (steps, Some text) =>
                let sent :=
                  Reply (Chat m) text ::
                  match reply_send u with
                  | Some err => [LogReplyFailed err]
                  | None => []
                  end in
                let '(later, ended) := HandleCommands c rest in
                (steps ++ sent ++ later, ended)
            end
      end
  end.

(** ** Readings of the command loop *)

(** The command messages among the updates. *)
Definition command_of (u : Update) : option Incoming :=
  match Message u with
  | Some m => if IsCommand m then Some m else None
  | None => None
  end.

(** The chats replied to, in order. *)
Definition replied (t : list BotStep) : list Z :=
  omap (fun s => match s with Reply chat _ => Some chat | _ => None end) t.

(** The notifications sent, in order. *)
Definition notified (t : list BotStep) : list Effect :=
  omap (fun s => match s with Notice eff => Some eff | _ => None end) t.

(** The errors logged, in order. *)
Definition reply_errors (t : list BotStep) : list error :=
  omap (fun s => match s with LogReplyFailed err => Some err | _ => None end)
       t.

(** The same update coming from another chat. *)
Definition from_chat (f : Z → Z) (u : Update) : Update := {|
  Message :=
    (fun m => {| Chat := f (Chat m);
                 IsCommand := IsCommand m;
                 Command := Command m |}) <$> Message u;
  test_env := test_env u;
  reply_send := reply_send u
|}.

End Commands.

(** ** A blacklist line beyond the scanner's buffer *)

(** [n] bytes without a line feed. *)
Fixpoint filler (n : nat) : string :=
  match n with
  | O => ""
  | S n' => String "x" (filler n')
  end.

Module Overlong.

(** A line that fills the 64 KiB buffer of the scanner. *)
Definition line : string := filler (N.to_nat MaxScanTokenSize).

Definition listed : list string := ["10.0.0.1"; "10.0.0.2"].

(** Two addresses, the long line, and one more address. *)
Definition file : string :=
  lf_lines_of listed +:+ line +:+ (newline +:+ "10.0.0.3" +:+ newline).

End Overlong.

(** * Properties *)

(** ** Running the monad *)

Ltac monad_unfold :=
  unfold mbind, mret, M_bind, M_ret, bind, ret, get, modify, logger, emit
    in *.

Ltac run := monad_unfold; simpl in *.

Ltac store :=
  unfold set_mu, emit_effect, set_bannedIPs, set_failedAttempts,
    set_blacklist, ban_expiry in *; simpl in *.

Lemma world_eta w :
  mkWorld (failedAttempts w) (bannedIPs w) (mu w) (blacklist w) (trace w) = w.
Proof. by destruct w. Qed.

Lemma Before_true t u : Before t u = true ↔ (t < u)%Z.
Proof. unfold Before. apply Z.ltb_lt. Qed.

Lemma Before_false t u : Before t u = false ↔ (u <= t)%Z.
Proof. unfold Before. apply Z.ltb_ge. Qed.

Lemma After_true t u : After t u = true ↔ (u < t)%Z.
Proof. unfold After. apply Z.ltb_lt. Qed.

Lemma After_false t u : After t u = false ↔ (t <= u)%Z.
Proof. unfold After. apply Z.ltb_ge. Qed.

(** ** Machine integers *)

Lemma wrap64_id z : GoInt.in_range z → GoInt.wrap64 z = z.
Proof.
  unfold GoInt.in_range, GoInt.wrap64, GoInt.min_int, GoInt.max_int.
  intros H. rewrite Z.mod_small by lia. lia.
Qed.

Lemma wrap64_range z : GoInt.in_range (GoInt.wrap64 z).
Proof.
  unfold GoInt.in_range, GoInt.wrap64, GoInt.min_int, GoInt.max_int.
  pose proof (Z.mod_pos_bound (z + 2 ^ 63) (2 ^ 64)) as H. lia.
Qed.

(** ** Lazy expiry *)

(** [isIPBanned] always returns; it answers [banned_at] and forgets the
    address exactly when a record exists and has run out. *)
Lemma isIPBanned_spec now ip w :
  isIPBanned now ip w = Done (banned_at now ip w) (expired now ip w).
Proof.
  unfold isIPBanned, banned_at, expired. run.
  destruct (bannedIPs w !! ip) as [banTime|]; [|done].
  by destruct (Before now banTime).
Qed.

(** C2. An address with a Ban Record is reported banned while the clock
    is before [expiresAt], and the call changes nothing; from [expiresAt]
    on, the call answers false and removes the Ban Record and the Attempt
    Record, so that the address is no longer listed as banned. No sweep
    is involved: the call touches neither the firewall nor the trace. *)
Theorem isIPBanned_lazy_expiry (w : World) (ip : string) (expiresAt now : Time) :
  bannedIPs w !! ip = Some expiresAt →
  ((now < expiresAt)%Z → isIPBanned now ip w = Done true w) ∧
  ((expiresAt <= now)%Z →
     ∃ w', isIPBanned now ip w = Done false w' ∧
           bannedIPs w' = delete ip (bannedIPs w) ∧
           failedAttempts w' = delete ip (failedAttempts w) ∧
           bannedIPs w' !! ip = None ∧
           failedAttempts w' !! ip = None ∧
           (ip ∉ listBanned w') ∧
           trace w' = trace w ∧
           isIPBanned now ip w' = Done false w').
Proof.
  intros Hrec. split; intros Hnow; rewrite isIPBanned_spec.
  - unfold banned_at, expired. rewrite Hrec.
    apply Before_true in Hnow. by rewrite Hnow.
  - unfold banned_at, expired. rewrite Hrec.
    apply Before_false in Hnow. rewrite Hnow.
    exists (forget ip w). simpl.
    assert (Hgone : bannedIPs (forget ip w) !! ip = None)
      by (simpl; apply lookup_delete_eq).
    repeat split; try done.
    + apply lookup_delete_eq.
    + unfold listBanned. by apply not_elem_of_dom.
    + rewrite isIPBanned_spec. unfold banned_at, expired. by rewrite Hgone.
Qed.

Lemma isIPBanned_lazy_expiry_witness :
  let w := mkWorld (<["10.0.0.2" := 2%Z]> ∅) (<["10.0.0.2" := 100%Z]> ∅)
                   Unlocked "" [] in
  isIPBanned 99 "10.0.0.2" w = Done true w ∧
  ∃ w', isIPBanned 100 "10.0.0.2" w = Done false w' ∧
        "10.0.0.2" ∉ listBanned w'.
Proof.
  intros w.
  destruct (isIPBanned_lazy_expiry w "10.0.0.2" 100 99) as [Hbefore _];
    [reflexivity|].
  destruct (isIPBanned_lazy_expiry w "10.0.0.2" 100 100) as [_ Hafter];
    [reflexivity|].
  split; [apply Hbefore; lia|].
  destruct Hafter as (w' & Hw' & _ & _ & _ & _ & Hnot & _); [lia|].
  by exists w'.
Defined.

(** ** The failure handler, path by path *)

Lemma handleFailedLogin_held c e ip w :
  mu w ≠ Unlocked → handleFailedLogin c e ip w = Halted Deadlock w.
Proof.
  intros Hmu. unfold handleFailedLogin, Lock. run.
  by destruct (mu w).
Qed.

Lemma expired_banned now ip w :
  banned_at now ip w = true → expired now ip w = w.
Proof.
  unfold banned_at, expired.
  destruct (bannedIPs w !! ip) as [t|]; [|done]. by intros ->.
Qed.

Lemma expired_unbanned now ip w :
  banned_at now ip w = false → bannedIPs (expired now ip w) !! ip = None.
Proof.
  unfold banned_at, expired.
  destruct (bannedIPs w !! ip) as [t|] eqn:Hrec; [|done].
  intros ->. simpl. apply lookup_delete_eq.
Qed.

Lemma expired_mu now ip w : mu (expired now ip w) = mu w.
Proof.
  unfold expired. destruct (bannedIPs w !! ip) as [t|]; [|done].
  by destruct (Before now t).
Qed.

Lemma expired_trace now ip w : trace (expired now ip w) = trace w.
Proof.
  unfold expired. destruct (bannedIPs w !! ip) as [t|]; [|done].
  by destruct (Before now t).
Qed.

Lemma expired_blacklist now ip w : blacklist (expired now ip w) = blacklist w.
Proof.
  unfold expired. destruct (bannedIPs w !! ip) as [t|]; [|done].
  by destruct (Before now t).
Qed.

(** A failure from an address under ban is only logged. *)
Lemma handleFailedLogin_rejected c e ip w :
  mu w = Unlocked → banned_at (now_check e) ip w = true →
  handleFailedLogin c e ip w =
    Done tt (emit_effect (Log (LogBannedAttempt ip)) w).
Proof.
  intros Hmu Hban. unfold handleFailedLogin, Lock, Unlock. run.
  rewrite Hmu. simpl.
  pose proof (isIPBanned_spec (now_check e) ip (set_mu WLocked w)) as Hspec.
  run. rewrite Hspec.
  assert (Hban' : banned_at (now_check e) ip (set_mu WLocked w) = true)
    by done.
  rewrite Hban', (expired_banned _ _ _ Hban'). simpl.
  destruct w; simpl in *. by subst.
Qed.

Lemma attempts_insert ip n f b m bl tr :
  attempts (mkWorld (<[ip := n]> f) b m bl tr) ip = n.
Proof. unfold attempts. simpl. by rewrite lookup_insert_eq. Qed.

(** A failure from an address not under ban is counted and logged first;
    the rest of the handler runs from [counted]. *)
Lemma handleFailedLogin_counts c e ip w :
  mu w = Unlocked → banned_at (now_check e) ip w = false →
  handleFailedLogin c e ip w =
    ((if (MaxFailedAttempts c <=? next_count e ip w)%Z
      then banIP c e ip else mret tt);;
     n' ← get (fun w => attempts w ip);
     _ ← NotifyLoginFailed c (send_failed e) ip (geo_failed e) (serverName c)
           n' (MaxFailedAttempts c);
     Unlock) (counted c e ip w).
Proof.
  intros Hmu Hban. unfold handleFailedLogin, Lock, incrFailed. run.
  rewrite Hmu. simpl.
  pose proof (isIPBanned_spec (now_check e) ip (set_mu WLocked w)) as Hspec.
  run. rewrite Hspec.
  assert (Hban' : banned_at (now_check e) ip (set_mu WLocked w) = false)
    by done.
  rewrite Hban'. simpl.
  assert (Hw2 :
    emit_effect
      (Log (LogLoginFailed ip
         (attempts
            (set_failedAttempts
               (fun f => <[ip:=GoInt.wrap64 (default 0%Z (f !! ip) + 1)]> f)
               (expired (now_check e) ip (set_mu WLocked w))) ip)
         (MaxFailedAttempts c)))
      (set_failedAttempts
         (fun f => <[ip:=GoInt.wrap64 (default 0%Z (f !! ip) + 1)]> f)
         (expired (now_check e) ip (set_mu WLocked w)))
    = counted c e ip w).
  { unfold counted, next_count, expired, attempts, emit_effect,
      set_failedAttempts, forget. simpl.
    destruct (bannedIPs w !! ip) as [t|]; simpl.
    - destruct (Before (now_check e) t); simpl;
        by rewrite lookup_insert_eq.
    - by rewrite lookup_insert_eq. }
  assert (Hn :
    attempts
      (set_failedAttempts
         (fun f => <[ip:=GoInt.wrap64 (default 0%Z (f !! ip) + 1)]> f)
         (expired (now_check e) ip (set_mu WLocked w))) ip
    = next_count e ip w).
  { unfold next_count, expired, attempts, set_failedAttempts, forget. simpl.
    destruct (bannedIPs w !! ip) as [t|]; simpl.
    - destruct (Before (now_check e) t); simpl;
        by rewrite lookup_insert_eq.
    - by rewrite lookup_insert_eq. }
  rewrite Hw2, Hn. reflexivity.
Qed.

(** Below the threshold: counted, logged, notified, released. *)
Lemma handleFailedLogin_below c e ip w :
  mu w = Unlocked → banned_at (now_check e) ip w = false →
  (next_count e ip w < MaxFailedAttempts c)%Z →
  handleFailedLogin c e ip w =
    Done tt (let w2 := counted c e ip w in
             mkWorld (failedAttempts w2) (bannedIPs w2) Unlocked
                     (blacklist w2)
                     (trace w2 ++ sent_failed c e (next_count e ip w))).
Proof.
  intros Hmu Hban Hlt. rewrite handleFailedLogin_counts by done.
  apply Z.leb_gt in Hlt. rewrite Hlt.
  unfold NotifyLoginFailed, SendMessage, Unlock, sent_failed, counted,
    attempts. run.
  rewrite lookup_insert_eq.
  destruct (LoginFailedEnabled c); simpl; [done|].
  by rewrite app_nil_r.
Qed.

(** At the threshold, the firewall refusing: the record stays, the
    handler returns. *)
Lemma handleFailedLogin_ban_refused c e ip w err :
  mu w = Unlocked → banned_at (now_check e) ip w = false →
  (MaxFailedAttempts c <= next_count e ip w)%Z →
  ufw_deny e = Some err →
  handleFailedLogin c e ip w =
    Done tt (with_ban c e ip w Unlocked (blacklist w)
               ([UfwDeny ip; Log (LogBanFailed ip err)]
                ++ sent_failed c e (next_count e ip w))).
Proof.
  intros Hmu Hban Hge Hdeny. rewrite handleFailedLogin_counts by done.
  apply Z.leb_le in Hge. rewrite Hge.
  unfold banIP, BanIP, NotifyLoginFailed, SendMessage, Unlock, sent_failed,
    with_ban, counted, attempts. run.
  rewrite Hdeny. simpl. rewrite lookup_insert_eq.
  destruct (LoginFailedEnabled c); store;
    by rewrite <- !app_assoc.
Qed.

(** At the threshold, the firewall obeying, the blacklist not opening:
    the error of [saveBlacklist] is dropped and the handler goes on. *)
Lemma handleFailedLogin_ban_unsaved c e ip w err :
  mu w = Unlocked → banned_at (now_check e) ip w = false →
  (MaxFailedAttempts c <= next_count e ip w)%Z →
  ufw_deny e = None → save_open (save_env e) = Some err →
  handleFailedLogin c e ip w =
    Done tt (with_ban c e ip w Unlocked (blacklist w)
               ([UfwDeny ip; OpenTrunc;
                 Log (LogBanned ip (BanDurationHours c) (ban_expiry c e))]
                ++ sent_banned c e ip
                ++ sent_failed c e (next_count e ip w))).
Proof.
  intros Hmu Hban Hge Hdeny Hopen. rewrite handleFailedLogin_counts by done.
  apply Z.leb_le in Hge. rewrite Hge.
  unfold banIP, BanIP, saveBlacklist, NotifyIPBanned, NotifyLoginFailed,
    SendMessage, Unlock, sent_failed, sent_banned, with_ban, counted,
    ban_expiry, attempts. run.
  rewrite Hdeny. simpl. rewrite Hopen. simpl.
  destruct (IPBannedEnabled c); simpl; rewrite lookup_insert_eq;
    destruct (LoginFailedEnabled c); store;
    by rewrite <- !app_assoc.
Qed.

(** At the threshold, the firewall obeying, the blacklist opening: the
    file is truncated, and [saveBlacklist] asks for the read lock of the
    mutex its caller holds for writing.  The handler never returns. *)
Lemma handleFailedLogin_ban_deadlock c e ip w :
  mu w = Unlocked → banned_at (now_check e) ip w = false →
  (MaxFailedAttempts c <= next_count e ip w)%Z →
  ufw_deny e = None → save_open (save_env e) = None →
  handleFailedLogin c e ip w =
    Halted Deadlock (with_ban c e ip w WLocked "" [UfwDeny ip; OpenTrunc]).
Proof.
  intros Hmu Hban Hge Hdeny Hopen. rewrite handleFailedLogin_counts by done.
  apply Z.leb_le in Hge. rewrite Hge.
  unfold banIP, BanIP, saveBlacklist, RLock, with_ban, counted. run.
  rewrite Hdeny. simpl. rewrite Hopen. store.
  by rewrite <- !app_assoc.
Qed.

(** ** The threshold scenario *)

(** C1, on the code.  Threshold 3, every collaborator working: the first
    two failures of 10.0.0.1 are counted 1 and 2 and the handler
    returns; the third brings the count to 3, creates the Ban Record and
    calls the firewall, then [saveBlacklist] truncates the file and asks
    for the read lock under the write lock of its caller, so the handler
    never returns.  The monitor goroutine is parked with the mutex held:
    the fourth failure is not handled, hence not rejected, and the
    blacklist file stays empty. *)
Theorem threshold_scenario_deadlocks :
  let s2 := sys_run Scenario.cfg (take 2 Scenario.three_failures)
              Scenario.fresh in
  let s3 := sys_run Scenario.cfg Scenario.three_failures Scenario.fresh in
  let s4 := sys_step Scenario.cfg Scenario.fourth_failure s3 in
  attempts (world s2) Scenario.attacker = 2%Z ∧
  monitor_parked s2 = false ∧
  attempts (world s3) Scenario.attacker = 3%Z ∧
  bannedIPs (world s3) !! Scenario.attacker
    = Some (3 * Second + 24 * Hour)%Z ∧
  banned_at (4 * Second) Scenario.attacker (world s3) = true ∧
  monitor_parked s3 = true ∧
  mu (world s3) = WLocked ∧
  blacklist (world s3) = "" ∧
  handleFailedLogin Scenario.cfg (Scenario.healthy (4 * Second) [])
    Scenario.attacker (world s3) = Halted Deadlock (world s3) ∧
  s4 = s3 ∧
  filter Scenario.is_rejection (trace (world s4)) = [].
Proof.
  vm_compute. repeat split; reflexivity.
Qed.

(** ** The ban transition *)

Lemma added_app w w' effs : trace w' = trace w ++ effs → added w w' = effs.
Proof. intros H. unfold added. rewrite H. apply drop_app_length. Qed.

Lemma counted_trace c e ip w :
  trace (counted c e ip w)
  = trace w ++ [Log (LogLoginFailed ip (next_count e ip w)
                                    (MaxFailedAttempts c))].
Proof. done. Qed.

Lemma with_ban_added c e ip w m file effs :
  added w (with_ban c e ip w m file effs)
  = Log (LogLoginFailed ip (next_count e ip w) (MaxFailedAttempts c))
      :: effs.
Proof.
  apply added_app. unfold with_ban. simpl. by rewrite <- app_assoc.
Qed.

Lemma with_ban_record c e ip w m file effs :
  bannedIPs (with_ban c e ip w m file effs) !! ip = Some (ban_expiry c e).
Proof. unfold with_ban. simpl. apply lookup_insert_eq. Qed.

Lemma with_ban_attempts c e ip w m file effs :
  attempts (with_ban c e ip w m file effs) ip = next_count e ip w.
Proof. unfold with_ban, counted, attempts. simpl. by rewrite lookup_insert_eq. Qed.

(** The claim C3 as written fails: with ufw failing, the third failure
    of the scenario creates the Ban Record and calls the firewall, but
    the blacklist is not opened and no ban notification leaves. *)
Lemma ban_is_complete_fails : ¬ ban_is_complete Scenario.cfg.
Proof.
  intros Hall.
  pose (w2 := world (sys_run Scenario.cfg (take 2 Scenario.three_failures)
                       Scenario.fresh)).
  destruct (Hall (Scenario.ufw_down (3 * Second)) Scenario.attacker w2)
    as (_ & Hopen & _).
  { by vm_compute. }
  vm_compute in Hopen.
  repeat (apply elem_of_cons in Hopen as [Hopen|Hopen]; [discriminate|]).
  by apply elem_of_nil in Hopen.
Qed.

(** C3, amended.  On every ban transition the Ban Record is created
    with expiry = now + configured duration and the firewall is asked to
    block the address, before anything else is done about the ban.  When
    the firewall fails, the failure is logged and the handler returns:
    the blacklist is not persisted and no ban notification is sent. *)
Theorem ban_transition_effects (c : Config) (e : FailEnv) (ip : string)
    (w : World) :
  ban_transition c e ip w →
  let r := handleFailedLogin c e ip w in
  let w' := world_of r in
  let counted_entry :=
    Log (LogLoginFailed ip (next_count e ip w) (MaxFailedAttempts c)) in
  bannedIPs w' !! ip = Some (now_ban e + banDuration c)%Z ∧
  (∃ rest, added w w' = counted_entry :: UfwDeny ip :: rest) ∧
  (∀ err, ufw_deny e = Some err →
     r = Done tt w' ∧
     blacklist w' = blacklist w ∧
     added w w' = counted_entry :: UfwDeny ip :: Log (LogBanFailed ip err)
                    :: sent_failed c e (next_count e ip w)).
Proof.
  intros (Hmu & Hban & Hge). cbv zeta.
  destruct (ufw_deny e) as [err|] eqn:Hdeny.
  - rewrite (handleFailedLogin_ban_refused c e ip w err) by done. cbn [world_of returned].
    rewrite with_ban_record, with_ban_added.
    split; [done|]. split; [eauto|].
    intros err' [= <-]. done.
  - destruct (save_open (save_env e)) as [err|] eqn:Hopen.
    + rewrite (handleFailedLogin_ban_unsaved c e ip w err) by done. cbn [world_of returned].
      rewrite with_ban_record, with_ban_added.
      split; [done|]. split; [eauto|]. done.
    + rewrite (handleFailedLogin_ban_deadlock c e ip w) by done. cbn [world_of returned].
      rewrite with_ban_record, with_ban_added.
      split; [done|]. split; [eauto|]. done.
Qed.

Lemma ban_transition_effects_witness :
  let w2 := world (sys_run Scenario.cfg (take 2 Scenario.three_failures)
                     Scenario.fresh) in
  let e := Scenario.ufw_down (3 * Second) in
  bannedIPs (world_of (handleFailedLogin Scenario.cfg e Scenario.attacker w2))
    !! Scenario.attacker = Some (3 * Second + 24 * Hour)%Z.
Proof.
  intros w2 e.
  assert (Ht : ban_transition Scenario.cfg e Scenario.attacker w2)
    by (by vm_compute).
  exact (proj1 (ban_transition_effects Scenario.cfg e Scenario.attacker w2 Ht)).
Defined.

(** ** The sweep *)

Lemma cleanupEntry_visit e entry w :
  cleanupEntry e entry w = Done tt (visit e w entry).
Proof.
  destruct entry as [ip t].
  unfold cleanupEntry, visit, unban_effects, lapsed, UnbanIP. run.
  destruct (After (now_visit e ip) t); [|done].
  destruct (ufw_delete e ip); store; by rewrite <- app_assoc.
Qed.

Lemma forEach_cleanupEntry e l w :
  forEach (cleanupEntry e) l w = Done tt (foldl (visit e) w l).
Proof.
  revert w. induction l as [|x l IH]; intros w; [done|].
  simpl. run. rewrite cleanupEntry_visit. apply IH.
Qed.

Lemma cleanupTick_held e w :
  mu w ≠ Unlocked → cleanupTick e w = Halted Deadlock w.
Proof.
  intros Hmu. unfold cleanupTick, Lock. run. by destruct (mu w).
Qed.

Lemma visit_mu e w x : mu (visit e w x) = mu w.
Proof. unfold visit. by destruct (lapsed e x). Qed.

Lemma visit_blacklist e w x : blacklist (visit e w x) = blacklist w.
Proof. unfold visit. by destruct (lapsed e x). Qed.

Lemma visit_trace e w x : trace (visit e w x) = trace w ++ unban_effects e x.
Proof.
  unfold visit, unban_effects.
  destruct (lapsed e x); [done|]. by rewrite app_nil_r.
Qed.

Lemma sweep_mu e l w : mu (foldl (visit e) w l) = mu w.
Proof.
  revert w. induction l as [|x l IH]; intros w; [done|].
  simpl. by rewrite IH, visit_mu.
Qed.

Lemma sweep_blacklist e l w : blacklist (foldl (visit e) w l) = blacklist w.
Proof.
  revert w. induction l as [|x l IH]; intros w; [done|].
  simpl. by rewrite IH, visit_blacklist.
Qed.

Lemma sweep_trace e l w :
  trace (foldl (visit e) w l) = trace w ++ concat (unban_effects e <$> l).
Proof.
  revert w. induction l as [|x l IH]; intros w; simpl.
  - by rewrite app_nil_r.
  - by rewrite IH, visit_trace, <- app_assoc.
Qed.

Lemma filter_lapsed_cons e x l :
  filter (lapsed e) (x :: l)
  = if lapsed e x then x :: filter (lapsed e) l else filter (lapsed e) l.
Proof.
  destruct (lapsed e x) eqn:Hx.
  - rewrite filter_cons_True; [done|]. simpl. by rewrite Hx.
  - rewrite filter_cons_False; [done|]. simpl. rewrite Hx. simpl. tauto.
Qed.

(** Which records a sweep over [l] leaves: those of the addresses with
    no lapsed entry in [l]. *)
Lemma sweep_bannedIPs e l w ip :
  bannedIPs (foldl (visit e) w l) !! ip
  = if decide (ip ∈ (filter (lapsed e) l).*1) then None
    else bannedIPs w !! ip.
Proof.
  revert w. induction l as [|x l IH]; intros w; simpl.
  - done.
  - rewrite IH. unfold visit.
    destruct (lapsed e x) eqn:Hx.
    + rewrite filter_lapsed_cons, Hx. simpl.
      destruct (decide (ip = x.1)) as [->|Hne].
      * rewrite (decide_True (P := x.1 ∈ x.1 :: _)) by apply list_elem_of_here.
        case_decide; [done|]. apply lookup_delete_eq.
      * rewrite lookup_delete_ne by done.
        destruct (decide (ip ∈ (filter (lapsed e) l).*1)) as [Hin|Hnin].
        -- rewrite decide_True; [done|]. by apply list_elem_of_further.
        -- rewrite decide_False; [done|].
           intros [?|?]%elem_of_cons; done.
    + rewrite filter_lapsed_cons, Hx. done.
Qed.

Lemma sweep_failedAttempts e l w ip :
  failedAttempts (foldl (visit e) w l) !! ip
  = if decide (ip ∈ (filter (lapsed e) l).*1) then None
    else failedAttempts w !! ip.
Proof.
  revert w. induction l as [|x l IH]; intros w; simpl.
  - done.
  - rewrite IH. unfold visit.
    destruct (lapsed e x) eqn:Hx.
    + rewrite filter_lapsed_cons, Hx. simpl.
      destruct (decide (ip = x.1)) as [->|Hne].
      * rewrite (decide_True (P := x.1 ∈ x.1 :: _)) by apply list_elem_of_here.
        case_decide; [done|]. apply lookup_delete_eq.
      * rewrite lookup_delete_ne by done.
        destruct (decide (ip ∈ (filter (lapsed e) l).*1)) as [Hin|Hnin].
        -- rewrite decide_True; [done|]. by apply list_elem_of_further.
        -- rewrite decide_False; [done|].
           intros [?|?]%elem_of_cons; done.
    + rewrite filter_lapsed_cons, Hx. done.
Qed.

Lemma unblock_calls_app l k :
  unblock_calls (l ++ k) = unblock_calls l ++ unblock_calls k.
Proof. unfold unblock_calls. apply omap_app. Qed.

Lemma sweep_unblock_calls e l :
  unblock_calls (concat (unban_effects e <$> l)) = (filter (lapsed e) l).*1.
Proof.
  induction l as [|x l IH]; [done|].
  rewrite fmap_cons. cbn [concat].
  rewrite unblock_calls_app, IH, filter_lapsed_cons. unfold unban_effects.
  by destruct (lapsed e x).
Qed.

(** Under [ranges], the lapsed keys of the walk are the addresses of
    the map whose record has run out. *)
Lemma lapsed_keys e l (m : gmap string Z) ip :
  ranges l m →
  ip ∈ (filter (lapsed e) l).*1
  ↔ ∃ t, m !! ip = Some t ∧ After (now_visit e ip) t = true.
Proof.
  intros Hr. rewrite list_elem_of_fmap. split.
  - intros ([ip' t] & -> & Hin). apply list_elem_of_filter in Hin as [Hl Hin].
    rewrite Hr in Hin. apply elem_of_map_to_list in Hin.
    exists t. split; [done|]. unfold lapsed in Hl. simpl in *.
    by destruct (After (now_visit e ip') t).
  - intros (t & Hm & Hl). exists (ip, t). split; [done|].
    apply list_elem_of_filter. split.
    + unfold lapsed. simpl. by rewrite Hl.
    + rewrite Hr. by apply elem_of_map_to_list.
Qed.

Lemma lapsed_keys_NoDup e l (m : gmap string Z) :
  ranges l m → NoDup (filter (lapsed e) l).*1.
Proof.
  intros Hr.
  assert (Hnd : NoDup l.*1).
  { rewrite Hr. apply NoDup_fst_map_to_list. }
  clear Hr. induction l as [|x l IH]; simpl.
  - constructor.
  - apply NoDup_cons in Hnd as [Hx Hnd].
    destruct (lapsed e x) eqn:Hlx.
    + rewrite filter_lapsed_cons, Hlx. simpl.
      apply NoDup_cons. split; [|by apply IH].
      intros Hin. apply Hx.
      apply list_elem_of_fmap in Hin as (y & -> & Hy).
      apply list_elem_of_filter in Hy as [_ Hy].
      apply list_elem_of_fmap. by exists y.
    + rewrite filter_lapsed_cons, Hlx. by apply IH.
Qed.

Lemma bind_returns {A B} (m : M A) (k : A → M B) w a w' :
  m w = Done a w' → (m ≫= k) w = k a w'.
Proof. intros H. run. by rewrite H. Qed.

Lemma cleanupTick_free e w :
  mu w = Unlocked →
  cleanupTick e w
  = Done tt (set_mu Unlocked
               (foldl (visit e) (set_mu WLocked w) (sweep_order e))).
Proof.
  intros Hmu. unfold cleanupTick, Lock, Unlock. run. rewrite Hmu.
  pose proof (forEach_cleanupEntry e (sweep_order e) (set_mu WLocked w)) as H.
  run. rewrite H. by rewrite sweep_mu.
Qed.

(** The outcome of a tick that finds the mutex free, address by
    address. *)
Lemma cleanupTick_outcome e w :
  mu w = Unlocked →
  ranges (sweep_order e) (bannedIPs w) →
  let w' := set_mu Unlocked
              (foldl (visit e) (set_mu WLocked w) (sweep_order e)) in
  cleanupTick e w = Done tt w' ∧
  added w w' = concat (unban_effects e <$> sweep_order e) ∧
  ∀ ip,
    (bannedIPs w' !! ip, failedAttempts w' !! ip)
    = match bannedIPs w !! ip with
      | Some t => if After (now_visit e ip) t then (None, None)
                  else (Some t, failedAttempts w !! ip)
      | None => (None, failedAttempts w !! ip)
      end.
Proof.
  intros Hmu Hr. cbv zeta. rewrite cleanupTick_free by done.
  split; [done|]. split.
  { apply added_app. simpl. by rewrite sweep_trace. }
  intros ip. simpl. rewrite sweep_bannedIPs, sweep_failedAttempts. simpl.
  pose proof (lapsed_keys e (sweep_order e) (bannedIPs w) ip Hr) as Hkeys.
  destruct (bannedIPs w !! ip) as [t|] eqn:Hrec.
  - destruct (After (now_visit e ip) t) eqn:Hl.
    + rewrite !decide_True; [done| |]; apply Hkeys; by exists t.
    + rewrite !decide_False; [done| |];
        intros (t' & [= <-] & Hl')%Hkeys; congruence.
  - rewrite !decide_False; [done| |]; by intros (t' & [=] & _)%Hkeys.
Qed.

(** X28. A tick of [cleanupBannedIPs] that finds the mutex free walks
    the ban map once.  For each address whose expiry has passed when it
    is visited, and for no other, the firewall is asked once to unblock
    it and both its records are removed, whether or not the firewall
    call fails; a failure is logged with the address.  Every other
    address keeps its Ban Record and its Attempt Record.  The tick
    returns with the mutex free and the loop goes on to the next
    tick. *)
Theorem cleanupTick_sweeps (e : SweepEnv) (w : World) :
  mu w = Unlocked →
  ranges (sweep_order e) (bannedIPs w) →
  ∃ w', cleanupTick e w = Done tt w' ∧
        (∀ later, cleanupBannedIPs (e :: later) w
                  = cleanupBannedIPs later w') ∧
        mu w' = Unlocked ∧
        blacklist w' = blacklist w ∧
        NoDup (unblock_calls (added w w')) ∧
        (∀ ip expiresAt,
           bannedIPs w !! ip = Some expiresAt →
           (expiresAt < now_visit e ip)%Z →
           ip ∈ unblock_calls (added w w') ∧
           bannedIPs w' !! ip = None ∧
           failedAttempts w' !! ip = None ∧
           (∀ err, ufw_delete e ip = Some err →
                   Log (LogUnbanFailed ip err) ∈ added w w')) ∧
        (∀ ip expiresAt,
           bannedIPs w !! ip = Some expiresAt →
           (now_visit e ip <= expiresAt)%Z →
           (ip ∉ unblock_calls (added w w')) ∧
           bannedIPs w' !! ip = Some expiresAt ∧
           failedAttempts w' !! ip = failedAttempts w !! ip) ∧
        (∀ ip,
           bannedIPs w !! ip = None →
           (ip ∉ unblock_calls (added w w')) ∧
           bannedIPs w' !! ip = None ∧
           failedAttempts w' !! ip = failedAttempts w !! ip).
Proof.
  intros Hmu Hr.
  destruct (cleanupTick_outcome e w Hmu Hr) as (Hrun & Hadded & Hmaps).
  set (l := sweep_order e) in *.
  set (w' := set_mu Unlocked (foldl (visit e) (set_mu WLocked w) l)) in *.
  exists w'. rewrite Hadded, sweep_unblock_calls.
  split; [done|].
  split.
  { intros later. unfold cleanupBannedIPs. cbn [forEach].
    exact (bind_returns (cleanupTick e) (fun _ => forEach cleanupTick later)
             w tt w' Hrun). }
  split; [done|].
  split; [simpl; by rewrite sweep_blacklist|].
  split; [by eapply lapsed_keys_NoDup|].
  split; [|split].
  - intros ip t Hrec Hlt. specialize (Hmaps ip). rewrite Hrec in Hmaps.
    apply After_true in Hlt. rewrite Hlt in Hmaps.
    injection Hmaps as Hb Hf.
    split; [|repeat split; try done].
    + eapply lapsed_keys; [done|]. by exists t.
    + intros err Herr. apply list_elem_of_In, in_concat.
      exists (unban_effects e (ip, t)). split.
      * apply list_elem_of_In, list_elem_of_fmap. exists (ip, t).
        split; [done|]. rewrite Hr. by apply elem_of_map_to_list.
      * unfold unban_effects, lapsed. simpl. rewrite Hlt, Herr. simpl. auto.
  - intros ip t Hrec Hle. specialize (Hmaps ip). rewrite Hrec in Hmaps.
    apply After_false in Hle. rewrite Hle in Hmaps.
    injection Hmaps as Hb Hf. split; [|done].
    intros (t' & Hrec' & Hl)%(lapsed_keys e l (bannedIPs w)); [|done].
    congruence.
  - intros ip Hrec. specialize (Hmaps ip). rewrite Hrec in Hmaps.
    injection Hmaps as Hb Hf. split; [|done].
    intros (t' & Hrec' & Hl)%(lapsed_keys e l (bannedIPs w)); [|done].
    congruence.
Qed.

Lemma cleanupTick_sweeps_witness :
  ∃ w', cleanupTick Scenario.tick Scenario.five_bans = Done tt w' ∧
        mu w' = Unlocked ∧
        blacklist w' = blacklist Scenario.five_bans.
Proof.
  destruct (cleanupTick_sweeps Scenario.tick Scenario.five_bans)
    as (w' & Hrun & _ & Hmu & Hfile & _).
  - reflexivity.
  - exact (Permutation_refl (map_to_list (bannedIPs Scenario.five_bans))).
  - exact (ex_intro _ w' (conj Hrun (conj Hmu Hfile))).
Defined.

(** C5, on the code.  Threshold 3, every collaborator working: the
    third failure of 10.0.0.1 bans it until 24 hours and 3 seconds and
    parks the monitor in [saveBlacklist] with the write lock held.  A
    tick at 25 hours finds the ban run out, but [cleanupBannedIPs] never
    gets the lock: it asks ufw for nothing, both records of the address
    stay, and no later tick runs either. *)
Theorem sweep_behind_parked_monitor :
  let s3 := sys_run Scenario.cfg Scenario.three_failures Scenario.fresh in
  let tick := Parked.late_tick (world s3) in
  let s4 := sys_step Scenario.cfg (SweepTick tick) s3 in
  bannedIPs (world s3) !! Scenario.attacker
    = Some (3 * Second + 24 * Hour)%Z ∧
  After (now_visit tick Scenario.attacker) (3 * Second + 24 * Hour) = true ∧
  sweep_order tick = [(Scenario.attacker, (3 * Second + 24 * Hour)%Z)] ∧
  cleanupBannedIPs [tick] (world s3) = Halted Deadlock (world s3) ∧
  sweeper_parked s4 = true ∧
  world s4 = world s3 ∧
  unblock_calls (trace (world s4)) = [] ∧
  bannedIPs (world s4) !! Scenario.attacker
    = Some (3 * Second + 24 * Hour)%Z ∧
  attempts (world s4) Scenario.attacker = 3%Z ∧
  sys_step Scenario.cfg (SweepTick tick) s4 = s4.
Proof. vm_compute. repeat split; reflexivity. Qed.

(** The sweep of the scenario: two of five bans have run out, ufw fails
    for one of them; two unblock calls, three bans left. *)
Example sweep_two_of_five :
  let w' := world_of (cleanupTick Scenario.tick Scenario.five_bans) in
  length (unblock_calls (added Scenario.five_bans w')) = 2 ∧
  size (bannedIPs w') = 3 ∧
  size (failedAttempts w') = 4.
Proof. by vm_compute. Qed.

(** ** What each operation does to the two maps *)

Lemma handleFailedLogin_idle c e ip w :
  mu w ≠ Unlocked ∨ banned_at (now_check e) ip w = true →
  failedAttempts (world_of (handleFailedLogin c e ip w)) = failedAttempts w ∧
  bannedIPs (world_of (handleFailedLogin c e ip w)) = bannedIPs w.
Proof.
  destruct (decide (mu w = Unlocked)) as [Hmu|Hmu].
  - intros [?|Hban]; [done|]. by rewrite handleFailedLogin_rejected.
  - intros _. by rewrite handleFailedLogin_held.
Qed.

Lemma handleFailedLogin_active c e ip w :
  mu w = Unlocked → banned_at (now_check e) ip w = false →
  let w1 := expired (now_check e) ip w in
  let w' := world_of (handleFailedLogin c e ip w) in
  failedAttempts w' = <[ip := next_count e ip w]> (failedAttempts w1) ∧
  bannedIPs w'
  = if (MaxFailedAttempts c <=? next_count e ip w)%Z
    then <[ip := ban_expiry c e]> (bannedIPs w1)
    else bannedIPs w1.
Proof.
  intros Hmu Hban. cbv zeta.
  destruct (MaxFailedAttempts c <=? next_count e ip w)%Z eqn:Hth.
  - apply Z.leb_le in Hth.
    destruct (ufw_deny e) as [err|] eqn:Hdeny;
      [rewrite (handleFailedLogin_ban_refused c e ip w err) by done; done|].
    destruct (save_open (save_env e)) as [err|] eqn:Hopen;
      [rewrite (handleFailedLogin_ban_unsaved c e ip w err) by done; done|].
    by rewrite handleFailedLogin_ban_deadlock.
  - apply Z.leb_gt in Hth. by rewrite handleFailedLogin_below.
Qed.

Lemma handleSuccessfulLogin_spec c e ip w :
  handleSuccessfulLogin c e ip w
  = Done tt (mkWorld (failedAttempts w) (bannedIPs w) (mu w) (blacklist w)
                     (trace w ++ Log (LogLoginOk ip) :: sent_success c e)).
Proof.
  unfold handleSuccessfulLogin, NotifyLoginSuccess, SendMessage, sent_success.
  run. destruct (LoginSuccessEnabled c); store; by rewrite <- ?app_assoc.
Qed.

Lemma expired_lookup_ne now ip ip' w :
  ip ≠ ip' →
  failedAttempts (expired now ip' w) !! ip = failedAttempts w !! ip ∧
  bannedIPs (expired now ip' w) !! ip = bannedIPs w !! ip.
Proof.
  intros Hne. unfold expired.
  destruct (bannedIPs w !! ip') as [t|]; [|done].
  destruct (Before now t); [done|]. simpl.
  by rewrite !lookup_delete_ne.
Qed.

(** A failure of another address leaves the records of [ip] alone. *)
Lemma handleFailedLogin_other c e ip ip' w :
  ip ≠ ip' →
  failedAttempts (world_of (handleFailedLogin c e ip' w)) !! ip
    = failedAttempts w !! ip ∧
  bannedIPs (world_of (handleFailedLogin c e ip' w)) !! ip
    = bannedIPs w !! ip.
Proof.
  intros Hne.
  destruct (decide (mu w = Unlocked)) as [Hmu|Hmu];
    [|by rewrite handleFailedLogin_held].
  destruct (banned_at (now_check e) ip' w) eqn:Hban;
    [by rewrite handleFailedLogin_rejected|].
  destruct (handleFailedLogin_active c e ip' w Hmu Hban) as [-> ->].
  destruct (expired_lookup_ne (now_check e) ip ip' w Hne) as [Hf Hb].
  rewrite lookup_insert_ne by done. split; [done|].
  destruct (MaxFailedAttempts c <=? next_count e ip' w)%Z; [|done].
  by rewrite lookup_insert_ne.
Qed.

(** ** The counts never overflow *)

Lemma counts_bounded_expired c now ip w :
  counts_bounded c w → counts_bounded c (expired now ip w).
Proof.
  intros Hinv. unfold expired.
  destruct (bannedIPs w !! ip) as [t|]; [|done].
  destruct (Before now t); [done|].
  intros ip' n. simpl.
  destruct (decide (ip' = ip)) as [->|Hne].
  - by rewrite lookup_delete_eq.
  - rewrite !lookup_delete_ne by done. apply Hinv.
Qed.

Lemma next_count_exact c e ip w :
  validConfig c → counts_bounded c w →
  banned_at (now_check e) ip w = false →
  next_count e ip w = (attempts (expired (now_check e) ip w) ip + 1)%Z ∧
  (0 <= attempts (expired (now_check e) ip w) ip < MaxFailedAttempts c)%Z.
Proof.
  intros [Hmax _] Hinv Hban.
  pose proof (counts_bounded_expired c (now_check e) ip w Hinv) as Hinv1.
  pose proof (expired_unbanned _ _ _ Hban) as Hnone.
  unfold next_count, attempts in *.
  destruct (failedAttempts (expired (now_check e) ip w) !! ip) as [n|] eqn:Hn;
    simpl.
  - destruct (Hinv1 ip n Hn) as [Hrange Hrec].
    assert (n ≠ MaxFailedAttempts c).
    { intros Heq. destruct (Hrec Heq) as [t Ht]. congruence. }
    split; [|lia]. apply wrap64_id.
    unfold GoInt.in_range, GoInt.min_int, GoInt.max_int in *. lia.
  - split; [|lia]. apply wrap64_id.
    unfold GoInt.in_range, GoInt.min_int, GoInt.max_int. lia.
Qed.

Lemma counts_bounded_handleFailedLogin c e ip w :
  validConfig c → counts_bounded c w →
  counts_bounded c (world_of (handleFailedLogin c e ip w)).
Proof.
  intros Hc Hinv.
  destruct (decide (mu w = Unlocked)) as [Hmu|Hmu];
    [|by rewrite handleFailedLogin_held].
  destruct (banned_at (now_check e) ip w) eqn:Hban;
    [by rewrite handleFailedLogin_rejected|].
  destruct (handleFailedLogin_active c e ip w Hmu Hban) as [Hf Hb].
  destruct (next_count_exact c e ip w Hc Hinv Hban) as [Hn Hrange].
  pose proof (counts_bounded_expired c (now_check e) ip w Hinv) as Hinv1.
  intros ip' n. rewrite Hf, Hb.
  destruct (decide (ip' = ip)) as [->|Hne].
  - rewrite lookup_insert_eq. intros [= <-]. split; [lia|].
    intros Heq.
    rewrite (proj2 (Z.leb_le _ _)) by lia.
    rewrite lookup_insert_eq. by eexists.
  - rewrite lookup_insert_ne by done. intros Hn'.
    destruct (Hinv1 ip' n Hn') as [Hr Hrec]. split; [done|].
    intros Heq.
    destruct (MaxFailedAttempts c <=? next_count e ip w)%Z; [|by apply Hrec].
    rewrite lookup_insert_ne by done. by apply Hrec.
Qed.

Lemma counts_bounded_visit c e w x :
  counts_bounded c w → counts_bounded c (visit e w x).
Proof.
  intros Hinv. unfold visit. destruct (lapsed e x); [|done].
  intros ip n. simpl.
  destruct (decide (ip = x.1)) as [->|Hne].
  - by rewrite lookup_delete_eq.
  - rewrite !lookup_delete_ne by done. apply Hinv.
Qed.

Lemma counts_bounded_sweep c e l w :
  counts_bounded c w → counts_bounded c (foldl (visit e) w l).
Proof.
  revert w. induction l as [|x l IH]; intros w Hinv; [done|].
  simpl. apply IH. by apply counts_bounded_visit.
Qed.

Lemma counts_bounded_cleanupTick c e w :
  counts_bounded c w → counts_bounded c (world_of (cleanupTick e w)).
Proof.
  intros Hinv.
  destruct (decide (mu w = Unlocked)) as [Hmu|Hmu];
    [|by rewrite cleanupTick_held].
  rewrite cleanupTick_free by done. simpl.
  intros ip n. simpl.
  apply (counts_bounded_sweep c e (sweep_order e) (set_mu WLocked w)).
  exact Hinv.
Qed.

Lemma counts_bounded_exec c op w :
  validConfig c → counts_bounded c w →
  counts_bounded c (world_of (exec c op w)).
Proof.
  intros Hc Hinv. destruct op as [e ip|e ip|now ip|e]; simpl.
  - by apply counts_bounded_handleFailedLogin.
  - by rewrite handleSuccessfulLogin_spec.
  - run. rewrite isIPBanned_spec. simpl. by apply counts_bounded_expired.
  - by apply counts_bounded_cleanupTick.
Qed.

(** The world after a step of the system is the world the operation
    leaves, or the old one when the goroutine is parked. *)
Lemma sys_step_world c op s :
  world (sys_step c op s) = world s ∨
  world (sys_step c op s) = world_of (exec c op (world s)).
Proof.
  unfold sys_step.
  destruct (if by_sweeper op then sweeper_parked s else monitor_parked s);
    [by left|right].
  destruct (exec c op (world s)) as [[] w|[] w]; simpl; try done.
  by destruct (by_sweeper op).
Qed.

Lemma counts_bounded_sys_step c op s :
  validConfig c → counts_bounded c (world s) →
  counts_bounded c (world (sys_step c op s)).
Proof.
  intros Hc Hinv. destruct (sys_step_world c op s) as [-> | ->]; [done|].
  by apply counts_bounded_exec.
Qed.

Lemma insertLines_failedAttempts c e i lines w :
  failedAttempts (world_of (insertLines c e i lines w)) = failedAttempts w.
Proof.
  revert i w. induction lines as [|ip rest IH]; intros i w; [done|].
  simpl. run. destruct (String.eqb ip ""); simpl; by rewrite IH.
Qed.

Lemma insertLines_returns c e i lines w :
  ∃ w', insertLines c e i lines w = Done tt w'.
Proof.
  revert i w. induction lines as [|ip rest IH]; intros i w; [by eexists|].
  simpl. run. destruct (String.eqb ip ""); simpl; apply IH.
Qed.

Lemma loadBlacklist_failedAttempts c e w :
  failedAttempts (world_of (loadBlacklist c e w)) = failedAttempts w.
Proof.
  unfold loadBlacklist. run.
  destruct (load_open e); [done|].
  destruct (scanLines _) as [lines too_long].
  pose proof (insertLines_failedAttempts c e 0 lines (emit_effect OpenRead w))
    as Hf.
  destruct (insertLines_returns c e 0 lines (emit_effect OpenRead w))
    as [w' Hw'].
  run. rewrite Hw' in *. simpl in *. done.
Qed.

Lemma reachable_counts_bounded c s :
  validConfig c → reachable c s → counts_bounded c (world s).
Proof.
  intros Hc. induction 1 as [file e w Hload|s op Hs IH Hadm].
  - pose proof (loadBlacklist_failedAttempts c e (NewMonitor file)) as Hf.
    rewrite Hload in Hf. simpl in *.
    intros ip n. rewrite Hf. by rewrite lookup_empty.
  - by apply counts_bounded_sys_step.
Qed.

(** ** Standing bans *)

Global Instance expires_dec op ip t : Decision (expires op ip t).
Proof. destruct op; simpl; apply _. Defined.

(** An operation that does not find the record of [ip] run out leaves
    that record and the count of [ip] as they are. *)
Lemma exec_standing c op w ip expiresAt :
  (∀ e, op = SweepTick e → ranges (sweep_order e) (bannedIPs w)) →
  bannedIPs w !! ip = Some expiresAt →
  ¬ expires op ip expiresAt →
  bannedIPs (world_of (exec c op w)) !! ip = Some expiresAt ∧
  failedAttempts (world_of (exec c op w)) !! ip = failedAttempts w !! ip.
Proof.
  intros Hadm Hrec Hnot. destruct op as [e ip'|e ip'|now ip'|e]; simpl in *.
  - destruct (decide (ip = ip')) as [<-|Hne].
    + assert (Hban : banned_at (now_check e) ip w = true).
      { unfold banned_at. rewrite Hrec. apply Before_true.
        destruct (Z.lt_ge_cases (now_check e) expiresAt); [done|].
        exfalso. apply Hnot. by split. }
      destruct (handleFailedLogin_idle c e ip w (or_intror Hban)) as [-> ->].
      done.
    + destruct (handleFailedLogin_other c e ip ip' w Hne) as [-> ->]. done.
  - by rewrite handleSuccessfulLogin_spec.
  - run. rewrite isIPBanned_spec. simpl.
    destruct (decide (ip = ip')) as [<-|Hne].
    + unfold expired. rewrite Hrec.
      assert (Hb : Before now expiresAt = true).
      { apply Before_true.
        destruct (Z.lt_ge_cases now expiresAt); [done|].
        exfalso. apply Hnot. by split. }
      by rewrite Hb.
    + destruct (expired_lookup_ne now ip ip' w Hne) as [-> ->]. done.
  - destruct (decide (mu w = Unlocked)) as [Hmu|Hmu];
      [|by rewrite cleanupTick_held].
    destruct (cleanupTick_outcome e w Hmu (Hadm e eq_refl))
      as (-> & _ & Hmaps).
    cbn [world_of]. specialize (Hmaps ip). rewrite Hrec in Hmaps.
    rewrite (proj2 (After_false _ _)) in Hmaps by lia.
    injection Hmaps as Hb Hf. split; [exact Hb|exact Hf].
Qed.

(** An operation leaves an address without Ban Record without one,
    unless it is the failure that bans it, and never lowers its count. *)
Lemma exec_unbanned c op w ip :
  validConfig c → counts_bounded c w →
  (∀ e, op = SweepTick e → ranges (sweep_order e) (bannedIPs w)) →
  bannedIPs w !! ip = None →
  (attempts w ip <= attempts (world_of (exec c op w)) ip)%Z.
Proof.
  intros Hc Hinv Hadm Hrec. destruct op as [e ip'|e ip'|now ip'|e]; simpl in *.
  - destruct (decide (ip = ip')) as [<-|Hne].
    + destruct (decide (mu w = Unlocked)) as [Hmu|Hmu];
        [|by rewrite handleFailedLogin_held].
      assert (Hban : banned_at (now_check e) ip w = false)
        by (unfold banned_at; by rewrite Hrec).
      destruct (handleFailedLogin_active c e ip w Hmu Hban) as [Hf _].
      destruct (next_count_exact c e ip w Hc Hinv Hban) as [Hn _].
      unfold attempts at 2. rewrite Hf, lookup_insert_eq. simpl.
      rewrite Hn. unfold expired. rewrite Hrec. lia.
    + unfold attempts.
      destruct (handleFailedLogin_other c e ip ip' w Hne) as [-> _]. done.
  - by rewrite handleSuccessfulLogin_spec.
  - run. rewrite isIPBanned_spec. simpl. unfold attempts.
    destruct (decide (ip = ip')) as [<-|Hne].
    + unfold expired. by rewrite Hrec.
    + destruct (expired_lookup_ne now ip ip' w Hne) as [-> _]. done.
  - destruct (decide (mu w = Unlocked)) as [Hmu|Hmu];
      [|by rewrite cleanupTick_held].
    destruct (cleanupTick_outcome e w Hmu (Hadm e eq_refl))
      as (-> & _ & Hmaps).
    cbn [world_of]. specialize (Hmaps ip). rewrite Hrec in Hmaps.
    injection Hmaps as _ Hf. unfold attempts.
    change (failedAttempts
              (set_mu Unlocked
                 (foldl (visit e) (set_mu WLocked w) (sweep_order e))) !! ip)
      with (failedAttempts
              (foldl (visit e) (set_mu WLocked w) (sweep_order e)) !! ip).
    rewrite Hf. done.
Qed.

Lemma attempts_nonneg c w ip :
  counts_bounded c w → (0 <= attempts w ip)%Z.
Proof.
  intros Hinv. unfold attempts.
  destruct (failedAttempts w !! ip) as [n|] eqn:Hn; simpl; [|done].
  destruct (Hinv ip n Hn). lia.
Qed.

(** C6.  In every state of a started process and for every operation
    (failure event, success event, isBanned check, sweep): the count of
    an address without Ban Record does not decrease; the count of an
    address with a Ban Record is left as it is by every operation that
    does not find that record run out, so it is never incremented while
    the ban stands; and a count decreases only in an operation that
    finds the Ban Record of the address run out - the failure handler or
    an isBanned check at or after the expiry (lazy expiry), or a sweep
    after it. *)
Theorem failureCount_discipline (c : Config) (s : System) (op : Op)
    (ip : string) :
  validConfig c → reachable c s → admissible s op →
  let w := world s in
  let w' := world (sys_step c op s) in
  (bannedIPs w !! ip = None → (attempts w ip <= attempts w' ip)%Z) ∧
  (∀ expiresAt, bannedIPs w !! ip = Some expiresAt →
     ¬ expires op ip expiresAt →
     attempts w' ip = attempts w ip ∧
     bannedIPs w' !! ip = Some expiresAt) ∧
  ((attempts w' ip < attempts w ip)%Z →
     ∃ expiresAt, bannedIPs w !! ip = Some expiresAt ∧
                  expires op ip expiresAt).
Proof.
  intros Hc Hreach Hadm. cbv zeta.
  pose proof (reachable_counts_bounded c s Hc Hreach) as Hinv.
  assert (Hadm' : ∀ e, op = SweepTick e →
                       ranges (sweep_order e) (bannedIPs (world s))).
  { intros e ->. exact Hadm. }
  destruct (sys_step_world c op s) as [-> | ->].
  { split; [lia|]. split; [done|]. lia. }
  assert (Hstand : ∀ t, bannedIPs (world s) !! ip = Some t →
                        ¬ expires op ip t →
                        attempts (world_of (exec c op (world s))) ip
                          = attempts (world s) ip ∧
                        bannedIPs (world_of (exec c op (world s))) !! ip
                          = Some t).
  { intros t Hrec Hnot.
    destruct (exec_standing c op (world s) ip t Hadm' Hrec Hnot) as [Hb Hf].
    unfold attempts. by rewrite Hf. }
  split; [|split].
  - intros Hrec. by apply exec_unbanned.
  - exact Hstand.
  - intros Hlt.
    destruct (bannedIPs (world s) !! ip) as [t|] eqn:Hrec.
    + exists t. split; [done|].
      destruct (decide (expires op ip t)) as [Hex|Hnot]; [done|].
      destruct (Hstand t eq_refl Hnot) as [Heq _]. lia.
    + pose proof (exec_unbanned c op (world s) ip Hc Hinv Hadm' Hrec). lia.
Qed.

Lemma failureCount_discipline_witness :
  (attempts (world Scenario.fresh) Scenario.attacker
   <= attempts (world (sys_step Scenario.cfg
                         (OnFailedLogin (Scenario.healthy (1 * Second) [])
                                        Scenario.attacker)
                         Scenario.fresh)) Scenario.attacker)%Z.
Proof.
  apply (failureCount_discipline Scenario.cfg Scenario.fresh
           (OnFailedLogin (Scenario.healthy (1 * Second) [])
                          Scenario.attacker)
           Scenario.attacker).
  - unfold validConfig, GoInt.max_int. simpl. lia.
  - apply (reach_start Scenario.cfg "" Scenario.quiet_load). reflexivity.
  - exact I.
  - reflexivity.
Defined.

(** A standing ban survives any run none of whose operations finds it
    run out. *)
Lemma standing_run c ops s ip expiresAt :
  admissible_run c ops s →
  bannedIPs (world s) !! ip = Some expiresAt →
  Forall (fun op => ¬ expires op ip expiresAt) ops →
  bannedIPs (world (sys_run c ops s)) !! ip = Some expiresAt ∧
  failedAttempts (world (sys_run c ops s)) !! ip
    = failedAttempts (world s) !! ip.
Proof.
  revert s. induction ops as [|op ops IH]; intros s Hadm Hrec Hall; [done|].
  destruct Hadm as [Hop Hadm]. apply Forall_cons in Hall as [Hnot Hall].
  assert (Hstep :
    bannedIPs (world (sys_step c op s)) !! ip = Some expiresAt ∧
    failedAttempts (world (sys_step c op s)) !! ip
      = failedAttempts (world s) !! ip).
  { destruct (sys_step_world c op s) as [-> | ->]; [done|].
    apply exec_standing; [|done..]. intros e ->. exact Hop. }
  destruct Hstep as [Hb Hf].
  destruct (IH (sys_step c op s) Hadm Hb Hall) as [Hb' Hf'].
  simpl. by rewrite Hb', Hf', Hf.
Qed.

(** ** Failed ban creation *)

(** X27.  When, during ban creation, the firewall call fails or the
    blacklist cannot be opened, the handler still returns with the Ban
    Record in place and the mutex released.  From then on, through any
    run none of whose operations finds the record run out, the record
    and the count stay as they are: [isIPBanned] answers true to a
    failed attempt from the address made before the expiry, the attempt
    leaves the count unchanged, and a handler that finds the mutex free
    rejects it with the log entry and nothing else. *)
Theorem failed_ban_stands (c : Config) (e : FailEnv) (ip : string)
    (w : World) :
  ban_transition c e ip w →
  ufw_deny e ≠ None ∨ save_open (save_env e) ≠ None →
  ∃ w', handleFailedLogin c e ip w = Done tt w' ∧
        mu w' = Unlocked ∧
        bannedIPs w' !! ip = Some (ban_expiry c e) ∧
        attempts w' ip = next_count e ip w ∧
        ∀ ops e',
          admissible_run c ops (mkSystem w' false false) →
          Forall (fun op => ¬ expires op ip (ban_expiry c e)) ops →
          (now_check e' < ban_expiry c e)%Z →
          let w'' := world (sys_run c ops (mkSystem w' false false)) in
          isIPBanned (now_check e') ip w'' = Done true w'' ∧
          attempts (world_of (handleFailedLogin c e' ip w'')) ip
            = next_count e ip w ∧
          (mu w'' = Unlocked →
             handleFailedLogin c e' ip w''
             = Done tt (emit_effect (Log (LogBannedAttempt ip)) w'')).
Proof.
  intros (Hmu & Hban & Hge) Hfail.
  assert (Hret : ∃ effs,
    handleFailedLogin c e ip w
    = Done tt (with_ban c e ip w Unlocked (blacklist w) effs)).
  { destruct (ufw_deny e) as [err|] eqn:Hdeny.
    - eexists. by apply (handleFailedLogin_ban_refused c e ip w err).
    - destruct (save_open (save_env e)) as [err|] eqn:Hopen.
      + eexists. by apply (handleFailedLogin_ban_unsaved c e ip w err).
      + by destruct Hfail. }
  destruct Hret as [effs Hret].
  exists (with_ban c e ip w Unlocked (blacklist w) effs).
  split; [done|]. split; [done|].
  split; [apply with_ban_record|]. split; [apply with_ban_attempts|].
  intros ops e' Hadm Hall Hnow. cbv zeta.
  set (s0 := mkSystem (with_ban c e ip w Unlocked (blacklist w) effs)
                      false false) in *.
  destruct (standing_run c ops s0 ip (ban_expiry c e) Hadm) as [Hb Hf];
    [apply with_ban_record|done|].
  set (w'' := world (sys_run c ops s0)) in *.
  assert (Hstill : banned_at (now_check e') ip w'' = true).
  { unfold banned_at. rewrite Hb. by apply Before_true. }
  assert (Hcount : attempts w'' ip = next_count e ip w).
  { unfold attempts. rewrite Hf. apply with_ban_attempts. }
  split; [|split].
  - by rewrite isIPBanned_spec, Hstill, expired_banned.
  - unfold attempts.
    destruct (handleFailedLogin_idle c e' ip w'' (or_intror Hstill)) as [-> _].
    exact Hcount.
  - intros Hfree. by apply handleFailedLogin_rejected.
Qed.

Lemma failed_ban_stands_witness :
  let w2 := world (sys_run Scenario.cfg (take 2 Scenario.three_failures)
                     Scenario.fresh) in
  ∃ w', handleFailedLogin Scenario.cfg (Scenario.ufw_down (3 * Second))
          Scenario.attacker w2 = Done tt w' ∧
        mu w' = Unlocked ∧
        bannedIPs w' !! Scenario.attacker = Some (3 * Second + 24 * Hour)%Z.
Proof.
  intros w2.
  destruct (failed_ban_stands Scenario.cfg (Scenario.ufw_down (3 * Second))
              Scenario.attacker w2) as (w' & Hrun & Hmu & Hrec & _).
  - by vm_compute.
  - by left.
  - exact (ex_intro _ w' (conj Hrun (conj Hmu Hrec))).
Defined.

(** C4, on the code.  Threshold 3.  The third failure of 10.0.0.1 meets
    a failing ufw: the Ban Record is kept, the handler returns, and a
    further failure of the address would be rejected with the log entry.
    Then 10.0.0.2 fails three times with every collaborator working: its
    ban parks the monitor in [saveBlacklist] with the write lock held.
    The next failure of 10.0.0.1, made while [isIPBanned] would still
    answer true, is not handled at all: the handler does not return, the
    system is unchanged and no rejection is logged. *)
Theorem refused_ban_unanswered :
  let s3 := sys_run Scenario.cfg Parked.refused_ban Scenario.fresh in
  let s6 := sys_run Scenario.cfg Parked.other_ban s3 in
  let s7 := sys_step Scenario.cfg Parked.later_failure s6 in
  monitor_parked s3 = false ∧
  mu (world s3) = Unlocked ∧
  bannedIPs (world s3) !! Scenario.attacker
    = Some (3 * Second + 24 * Hour)%Z ∧
  attempts (world s3) Scenario.attacker = 3%Z ∧
  filter Scenario.is_rejection
    (trace (world (sys_step Scenario.cfg Parked.later_failure s3)))
    = [Log (LogBannedAttempt Scenario.attacker)] ∧
  monitor_parked s6 = true ∧
  mu (world s6) = WLocked ∧
  bannedIPs (world s6) !! Scenario.attacker
    = Some (3 * Second + 24 * Hour)%Z ∧
  banned_at (7 * Second) Scenario.attacker (world s6) = true ∧
  handleFailedLogin Scenario.cfg (Scenario.healthy (7 * Second) [])
    Scenario.attacker (world s6) = Halted Deadlock (world s6) ∧
  s7 = s6 ∧
  filter Scenario.is_rejection (trace (world s7)) = [].
Proof. vm_compute. repeat split; reflexivity. Qed.

(** The scenario with ufw failing: the fourth failure is rejected and
    the count stays at 3. *)
Example fourth_failure_rejected :
  let s3 := sys_run Scenario.cfg
              (take 2 Scenario.three_failures
               ++ [OnFailedLogin (Scenario.ufw_down (3 * Second))
                                 Scenario.attacker])
              Scenario.fresh in
  let s4 := sys_step Scenario.cfg Scenario.fourth_failure s3 in
  attempts (world s3) Scenario.attacker = 3%Z ∧
  monitor_parked s4 = false ∧
  attempts (world s4) Scenario.attacker = 3%Z ∧
  added (world s3) (world s4) = [Log (LogBannedAttempt Scenario.attacker)].
Proof. by vm_compute. Qed.

(** ** Strings *)

Lemma append_cons x (a b : string) : String x a +:+ b = String x (a +:+ b).
Proof. reflexivity. Qed.

Lemma append_nil_l (a : string) : "" +:+ a = a.
Proof. reflexivity. Qed.

Lemma append_assoc (a b c : string) : (a +:+ b) +:+ c = a +:+ (b +:+ c).
Proof.
  induction a as [|x a IH]; [done|].
  by rewrite !append_cons, IH.
Qed.

Lemma append_nil_r (a : string) : a +:+ "" = a.
Proof.
  induction a as [|x a IH]; [done|].
  by rewrite append_cons, IH.
Qed.

Lemma lines_of_app l k : lines_of (l ++ k) = lines_of l +:+ lines_of k.
Proof.
  induction l as [|x l IH]; [done|].
  change (lines_of ((x :: l) ++ k)) with (line_of x +:+ lines_of (l ++ k)).
  change (lines_of (x :: l)) with (line_of x +:+ lines_of l).
  by rewrite IH, append_assoc.
Qed.

(** ** Saving the blacklist *)

Lemma writeEntries_ok e i entries w n :
  (∀ j, save_write e j = WriteOk) →
  mu w = RLocked n →
  writeEntries e i entries w
  = Done None
      (mkWorld (failedAttempts w) (bannedIPs w) (reader_left (mu w))
               (blacklist w +:+ lines_of entries)
               (trace w ++ ((fun x => WriteString (line_of x)) <$> entries))).
Proof.
  intros Hok. revert i w.
  induction entries as [|[ip t] rest IH]; intros i w Hmu; simpl.
  - unfold RUnlock. run. rewrite Hmu, append_nil_r, app_nil_r.
    by destruct n.
  - run. rewrite Hok. simpl.
    rewrite IH by exact Hmu. store.
    by rewrite append_assoc, <- app_assoc.
Qed.

Lemma writeEntries_fail e i pre ip t post w n err :
  (∀ j, (j < length pre)%nat → save_write e (i + j) = WriteOk) →
  save_write e (i + length pre) = WriteFail n err →
  writeEntries e i (pre ++ (ip, t) :: post) w
  = Done (Some err)
      (mkWorld (failedAttempts w) (bannedIPs w) (mu w)
               (blacklist w +:+ lines_of pre
                  +:+ substring 0 n (line_of (ip, t)))
               (trace w ++ ((fun x => WriteString (line_of x))
                              <$> pre ++ [(ip, t)]))).
Proof.
  revert i w. induction pre as [|[ip0 t0] pre IH]; intros i w Hok Hfail.
  - simpl in *. run. rewrite Nat.add_0_r in Hfail. rewrite Hfail. store.
    done.
  - simpl. run. specialize (Hok 0%nat) as Hok0.
    rewrite Nat.add_0_r in Hok0. rewrite Hok0 by (simpl; lia). simpl.
    rewrite (IH (S i)).
    + store. unfold line_of. simpl.
      by rewrite !append_assoc, <- app_assoc.
    + intros j Hj. replace (S i + j)%nat with (i + S j)%nat by lia.
      apply Hok. simpl. lia.
    + replace (S i + length pre)%nat with (i + S (length pre))%nat by lia.
      exact Hfail.
Qed.

(** A save that meets no fault, entered with the mutex not held for
    writing: the file holds one line per entry, in walk order. *)
Lemma saveBlacklist_ok e w :
  mu w ≠ WLocked → save_open e = None →
  (∀ j, save_write e j = WriteOk) →
  saveBlacklist e w
  = Done None
      (mkWorld (failedAttempts w) (bannedIPs w) (mu w)
               (lines_of (save_order e))
               (trace w ++ OpenTrunc
                  :: ((fun x => WriteString (line_of x)) <$> save_order e))).
Proof.
  intros Hmu Hopen Hok. unfold saveBlacklist, RLock. run.
  rewrite Hopen. simpl.
  destruct (mu w) as [| |n] eqn:Hm; [|done|]; simpl.
  - erewrite writeEntries_ok; [|done|done]. store.
    by rewrite <- app_assoc.
  - erewrite writeEntries_ok; [|done|done]. store.
    by rewrite <- app_assoc.
Qed.

(** A save whose [i]-th write fails: the lines before it, a piece of the
    failed line, and the read lock never released. *)
Lemma saveBlacklist_fail e w pre ip t post n err :
  mu w ≠ WLocked → save_open e = None →
  save_order e = pre ++ (ip, t) :: post →
  (∀ j, (j < length pre)%nat → save_write e j = WriteOk) →
  save_write e (length pre) = WriteFail n err →
  saveBlacklist e w
  = Done (Some err)
      (mkWorld (failedAttempts w) (bannedIPs w) (reader_entered (mu w))
               (lines_of pre +:+ substring 0 n (line_of (ip, t)))
               (trace w ++ OpenTrunc
                  :: ((fun x => WriteString (line_of x))
                        <$> pre ++ [(ip, t)]))).
Proof.
  intros Hmu Hopen Horder Hok Hfail. unfold saveBlacklist, RLock. run.
  rewrite Hopen, Horder. simpl.
  destruct (mu w) as [| |m] eqn:Hm; [|done|]; simpl.
  - erewrite (writeEntries_fail e 0 pre ip t post); [|done|done]. store.
    by rewrite <- app_assoc.
  - erewrite (writeEntries_fail e 0 pre ip t post); [|done|done]. store.
    by rewrite <- app_assoc.
Qed.

(** ** Loading the blacklist *)

Lemma indexLF_cons c s :
  indexLF (String c s) = None → Ascii.eqb c LF = false ∧ indexLF s = None.
Proof.
  simpl. destruct (Ascii.eqb c LF); [done|].
  destruct (indexLF s); [done|]. done.
Qed.

(** One line without line feed in front of the scanner. *)
Lemma scanFrom_line cur ip rest :
  indexLF ip = None →
  scanFrom cur (ip +:+ newline +:+ rest)
  = if fits (cur +:+ ip) then
      let '(ls, err) := scanFrom "" rest in (dropCR (cur +:+ ip) :: ls, err)
    else ([], Some ErrTooLong).
Proof.
  revert cur. induction ip as [|c ip IH]; intros cur Hno.
  - simpl. rewrite append_nil_r.
    change (Ascii.eqb LF LF) with true. done.
  - apply indexLF_cons in Hno as [Hc Hno]. simpl. rewrite Hc.
    rewrite (IH _ Hno), append_assoc. done.
Qed.

Lemma well_formed_inv ip :
  well_formed ip = true →
  ip ≠ "" ∧ fits ip = true ∧ indexLF ip = None ∧ dropCR ip = ip.
Proof.
  unfold well_formed. intros H.
  apply andb_prop in H as [H Hcr]. apply andb_prop in H as [H Hlf].
  apply andb_prop in H as [Hne Hfit].
  repeat split; try done.
  - apply negb_true_iff, String.eqb_neq in Hne. done.
  - by destruct (indexLF ip).
  - by apply String.eqb_eq.
Qed.

(** The scanner reads back the lines of a saved file. *)
Lemma scanLines_lines_of entries :
  Forall (fun x => well_formed x.1 = true) entries →
  scanLines (lines_of entries) = (entries.*1, None).
Proof.
  unfold scanLines. induction 1 as [|x l Hx Hl IH]; [done|].
  apply well_formed_inv in Hx as (_ & Hfit & Hlf & Hcr).
  simpl. unfold line_of. rewrite append_assoc.
  rewrite (scanFrom_line "" x.1 (lines_of l) Hlf).
  rewrite append_nil_l, Hfit, IH, Hcr. done.
Qed.

(** The loop of [loadBlacklist] over distinct non-empty lines. *)
Lemma insertLines_spec c e lines : ∀ i w,
  NoDup lines → Forall (fun ip => ip ≠ "") lines →
  ∃ w', insertLines c e i lines w = Done tt w' ∧
        failedAttempts w' = failedAttempts w ∧
        mu w' = mu w ∧ blacklist w' = blacklist w ∧ trace w' = trace w ∧
        (∀ j ip, lines !! j = Some ip →
           bannedIPs w' !! ip
           = Some (load_now e (i + j) + banDuration c)%Z) ∧
        (∀ ip, ip ∉ lines → bannedIPs w' !! ip = bannedIPs w !! ip).
Proof.
  induction lines as [|ip0 rest IH]; intros i w Hnd Hne.
  - exists w. repeat split; try done.
  - apply NoDup_cons in Hnd as [Hfresh Hnd].
    apply Forall_cons in Hne as [Hip0 Hne].
    simpl. run.
    rewrite (proj2 (String.eqb_neq ip0 "")) by done. simpl.
    destruct (IH (S i)
                (set_bannedIPs <[ip0:=(load_now e i + banDuration c)%Z]> w)
                Hnd Hne)
      as (w' & -> & Hf & Hm & Hbl & Htr & Hin & Hout).
    exists w'. repeat split; try done.
    + intros [|j] ip Hj; simpl in Hj.
      * injection Hj as <-. rewrite (Hout ip0 Hfresh). simpl.
        rewrite lookup_insert_eq, Nat.add_0_r. done.
      * rewrite (Hin j ip Hj). by rewrite Nat.add_succ_r.
    + intros ip Hnot. apply not_elem_of_cons in Hnot as [Hne0 Hnot].
      rewrite (Hout ip Hnot). simpl. by rewrite lookup_insert_ne.
Qed.

(** ** The round trip through the file *)

Lemma ranges_keys (l : list (string * Z)) (m : gmap string Z) ip :
  ranges l m → ip ∈ l.*1 ↔ ip ∈ dom m.
Proof.
  intros Hr. rewrite elem_of_dom, list_elem_of_fmap. split.
  - intros ([ip' t] & -> & Hin). rewrite Hr in Hin.
    apply elem_of_map_to_list in Hin. by exists t.
  - intros [t Ht]. exists (ip, t). split; [done|].
    rewrite Hr. by apply elem_of_map_to_list.
Qed.

Lemma ranges_NoDup (l : list (string * Z)) (m : gmap string Z) :
  ranges l m → NoDup l.*1.
Proof. intros Hr. rewrite Hr. apply NoDup_fst_map_to_list. Qed.

Lemma ranges_length (l : list (string * Z)) (m : gmap string Z) :
  ranges l m → length l = size m.
Proof. intros Hr. rewrite Hr. apply length_map_to_list. Qed.

(** A load that meets no fault, on the file a save has written for the
    walk [order] of well-formed addresses. *)
Lemma loadBlacklist_saved c e order :
  load_open e = None → load_read e = None →
  NoDup order.*1 →
  Forall (fun x => well_formed x.1 = true) order →
  ∃ w2, loadBlacklist c e (NewMonitor (lines_of order)) = Done None w2 ∧
        (∀ j ip, order.*1 !! j = Some ip →
           bannedIPs w2 !! ip = Some (load_now e j + banDuration c)%Z) ∧
        (∀ ip, ip ∉ order.*1 → bannedIPs w2 !! ip = None).
Proof.
  intros Hopen Hread Hnd Hwf. unfold loadBlacklist. run.
  rewrite Hopen, Hread. simpl.
  rewrite (scanLines_lines_of order Hwf).
  destruct (insertLines_spec c e order.*1 0
              (emit_effect OpenRead (NewMonitor (lines_of order))) Hnd)
    as (w2 & Hrun & _ & _ & _ & _ & Hin & Hout).
  { apply Forall_fmap. eapply Forall_impl; [exact Hwf|].
    intros x Hx. simpl. by apply well_formed_inv in Hx as (? & _). }
  run. rewrite Hrun. exists w2. split; [done|]. split; [exact Hin|].
  intros ip Hnot. by rewrite (Hout ip Hnot).
Qed.

(** X29.  A save that meets no fault, entered with the mutex not held
    for writing, followed by a load of the file into a new monitor: the
    Ban Records loaded are those of exactly the addresses banned at the
    save, as many as there were, and the expiry of each is the clock
    reading taken when its line is loaded plus the configured duration,
    whatever its expiry was at the save.  The addresses are well formed:
    not empty, without line feed or final carriage return, within the
    scanner's line limit. *)
Theorem blacklist_round_trip (c : Config) (se : SaveEnv) (le : LoadEnv)
    (w : World) :
  mu w ≠ WLocked →
  save_open se = None → (∀ i, save_write se i = WriteOk) →
  ranges (save_order se) (bannedIPs w) →
  (∀ ip, ip ∈ dom (bannedIPs w) → well_formed ip = true) →
  load_open le = None → load_read le = None →
  ∃ w1 w2,
    saveBlacklist se w = Done None w1 ∧
    bannedIPs w1 = bannedIPs w ∧
    loadBlacklist c le (NewMonitor (blacklist w1)) = Done None w2 ∧
    dom (bannedIPs w2) = dom (bannedIPs w) ∧
    size (bannedIPs w2) = size (bannedIPs w) ∧
    (∀ ip, ip ∈ dom (bannedIPs w) →
       ∃ i, (i < size (bannedIPs w))%nat ∧
            (save_order se).*1 !! i = Some ip ∧
            bannedIPs w2 !! ip = Some (load_now le i + banDuration c)%Z) ∧
    (∀ loadTime, (∀ i, load_now le i = loadTime) →
       ∀ ip, ip ∈ dom (bannedIPs w) →
         bannedIPs w2 !! ip = Some (loadTime + banDuration c)%Z).
Proof.
  intros Hmu Hopen Hwrite Hr Hwf Hlopen Hlread.
  rewrite (saveBlacklist_ok se w Hmu Hopen Hwrite).
  eexists. cbn [blacklist bannedIPs].
  destruct (loadBlacklist_saved c le (save_order se) Hlopen Hlread)
    as (w2 & Hload & Hin & Hout).
  { by eapply ranges_NoDup. }
  { apply Forall_forall. intros [ip t] Hx. simpl. apply Hwf.
    eapply ranges_keys; [done|]. apply list_elem_of_fmap. by exists (ip, t). }
  exists w2.
  assert (Hidx : ∀ ip, ip ∈ dom (bannedIPs w) →
            ∃ i, (i < size (bannedIPs w))%nat ∧
                 (save_order se).*1 !! i = Some ip ∧
                 bannedIPs w2 !! ip
                 = Some (load_now le i + banDuration c)%Z).
  { intros ip Hip. apply (ranges_keys _ _ _ Hr) in Hip.
    apply list_elem_of_lookup_1 in Hip as [i Hi]. exists i.
    split; [|split; [done|by apply Hin]].
    apply lookup_lt_Some in Hi.
    by rewrite length_fmap, (ranges_length _ _ Hr) in Hi. }
  assert (Hdom : dom (bannedIPs w2) = dom (bannedIPs w)).
  { apply set_eq. intros ip. split.
    - intros Hip. destruct (decide (ip ∈ dom (bannedIPs w))) as [|Hnot];
        [done|].
      apply elem_of_dom in Hip as [t Ht].
      rewrite Hout in Ht; [done|].
      by rewrite (ranges_keys _ _ _ Hr).
    - intros Hip. destruct (Hidx ip Hip) as (i & _ & _ & Hi).
      apply elem_of_dom. by eexists. }
  split; [done|]. split; [done|]. split; [done|]. split; [done|].
  split; [|split; [done|]].
  - by rewrite <- !size_dom, Hdom.
  - intros T HT ip Hip. destruct (Hidx ip Hip) as (i & _ & _ & Hi).
    by rewrite Hi, HT.
Qed.

Lemma blacklist_round_trip_witness :
  let se := {| save_open := None;
               save_order := map_to_list (bannedIPs Scenario.five_bans);
               save_write := fun _ => WriteOk |} in
  ∃ w1 w2,
    saveBlacklist se Scenario.five_bans = Done None w1 ∧
    loadBlacklist Scenario.cfg Scenario.quiet_load (NewMonitor (blacklist w1))
      = Done None w2 ∧
    dom (bannedIPs w2) = dom (bannedIPs Scenario.five_bans).
Proof.
  intros se.
  destruct (blacklist_round_trip Scenario.cfg se Scenario.quiet_load
              Scenario.five_bans)
    as (w1 & w2 & Hsave & _ & Hload & Hdom & _).
  - discriminate.
  - reflexivity.
  - reflexivity.
  - exact (Permutation_refl (map_to_list (bannedIPs Scenario.five_bans))).
  - apply (bool_decide_unpack
             (set_Forall (fun ip => well_formed ip = true)
                         (dom (bannedIPs Scenario.five_bans)))).
    by vm_compute.
  - reflexivity.
  - reflexivity.
  - exact (ex_intro _ w1 (ex_intro _ w2 (conj Hsave (conj Hload Hdom)))).
Defined.

(** C7, on the code.  [Start] on a blacklist file listing 10.0.0.9, then
    three failures of 10.0.0.1 with every collaborator working: two
    addresses are banned when [banIP] saves the blacklist.  The save
    truncates the file and is parked before its first write, so the file
    stays empty, and loading it yields no Ban Record where the claim has
    two. *)
Theorem saved_blacklist_reloads_empty :
  let s3 := sys_run Scenario.cfg Scenario.three_failures Parked.listed in
  let reloaded :=
    loadBlacklist Scenario.cfg Scenario.quiet_load
      (NewMonitor (blacklist (world s3))) in
  blacklist (world Parked.listed) = "10.0.0.9" +:+ newline ∧
  size (bannedIPs (world s3)) = 2%nat ∧
  filter Parked.is_truncation (trace (world s3)) = [OpenTrunc] ∧
  filter Parked.is_write (trace (world s3)) = [] ∧
  monitor_parked s3 = true ∧
  blacklist (world s3) = "" ∧
  returned reloaded = true ∧
  size (bannedIPs (world_of reloaded)) = 0%nat.
Proof. vm_compute. repeat split; reflexivity. Qed.


(** The round trip of the scenario: the five addresses come back, each
    with the expiry of the load, not its own. *)
Example round_trip_five :
  let se := {| save_open := None;
               save_order := map_to_list (bannedIPs Scenario.five_bans);
               save_write := fun _ => WriteOk |} in
  let w1 := world_of (saveBlacklist se Scenario.five_bans) in
  let w2 := world_of (loadBlacklist Scenario.cfg Scenario.quiet_load
                        (NewMonitor (blacklist w1))) in
  bannedIPs Scenario.five_bans !! "10.0.0.4" = Some (24 * Hour + 1)%Z ∧
  bannedIPs w2 !! "10.0.0.4" = Some (0 + 24 * Hour)%Z ∧
  size (bannedIPs w2) = 5%nat.
Proof. by vm_compute. Qed.

(** ** A write that fails part-way *)

Lemma banIP_discards c e ip w res w1 :
  ufw_deny e = None →
  saveBlacklist (save_env e) (blocked c e ip w) = Done res w1 →
  banIP c e ip w = Done tt (announced c e ip w1).
Proof.
  intros Hdeny Hsave. unfold banIP, BanIP. run. rewrite Hdeny. simpl.
  unfold blocked, ban_expiry in Hsave. run. rewrite Hsave.
  unfold NotifyIPBanned, SendMessage, announced, sent_banned, ban_expiry.
  destruct w1 as [fa b m bl tr].
  destruct (IPBannedEnabled c); run; store; rewrite <- ?app_assoc; reflexivity.
Qed.

Lemma writeEntries_writes e entries : ∀ i w,
  ∃ k, trace (world_of (writeEntries e i entries w))
       = trace w ++ ((fun x => WriteString (x.1 +:+ newline))
                       <$> take k entries).
Proof.
  induction entries as [|[ip t] rest IH]; intros i w; simpl.
  - exists 0%nat. unfold RUnlock. run.
    destruct (mu w) as [| |[|n]]; simpl; by rewrite app_nil_r.
  - run. destruct (save_write e i) as [|n err]; simpl.
    + destruct (IH (S i)
                  (set_blacklist (fun f => f +:+ ip +:+ newline)
                     (emit_effect (WriteString (ip +:+ newline)) w)))
        as [k Hk].
      exists (S k). rewrite Hk. simpl. by rewrite <- app_assoc.
    + exists 1%nat. simpl. rewrite ?take_0. done.
Qed.

Lemma saveBlacklist_writes e w :
  ∃ k, added w (world_of (saveBlacklist e w))
       = OpenTrunc :: ((fun x => WriteString (x.1 +:+ newline))
                         <$> take k (save_order e)).
Proof.
  unfold saveBlacklist. run.
  destruct (save_open e) as [err|]; simpl.
  { exists 0%nat. apply added_app. rewrite ?take_0. done. }
  unfold RLock. simpl.
  destruct (mu w) as [| |n] eqn:Hmu; simpl.
  - destruct (writeEntries_writes e (save_order e) 0
                (set_mu (RLocked 0)
                   (set_blacklist (fun _ => "") (emit_effect OpenTrunc w))))
      as [k Hk].
    exists k. apply added_app. rewrite Hk. simpl. by rewrite <- app_assoc.
  - exists 0%nat. apply added_app. rewrite ?take_0. done.
  - destruct (writeEntries_writes e (save_order e) 0
                (set_mu (RLocked (S n))
                   (set_blacklist (fun _ => "") (emit_effect OpenTrunc w))))
      as [k Hk].
    exists k. apply added_app. rewrite Hk. simpl. by rewrite <- app_assoc.
Qed.

(** The claim C10 as written fails: the disk filling up during the
    third write, after four bytes, leaves "10.0" behind the two lines
    written before it. *)
Lemma partial_write_keeps_whole_lines_fails :
  ¬ partial_write_keeps_whole_lines.
Proof.
  intros Hall.
  pose proof (Hall Partial.disk_full Scenario.five_bans
                (take 2 (save_order Partial.disk_full))
                (default ("", 0%Z) (save_order Partial.disk_full !! 2%nat)).1
                (default ("", 0%Z) (save_order Partial.disk_full !! 2%nat)).2
                (drop 3 (save_order Partial.disk_full)) 4
                (Errorf "no space left on device")) as H.
  assert (Hfile : blacklist (world_of (saveBlacklist Partial.disk_full
                                         Scenario.five_bans))
                  = lines_of (take 2 (save_order Partial.disk_full))).
  { apply H.
    - discriminate.
    - reflexivity.
    - exact (Permutation_refl (map_to_list (bannedIPs Scenario.five_bans))).
    - by vm_compute.
    - intros [|[|j]] Hj; [reflexivity|reflexivity|].
      exfalso. vm_compute in Hj. lia.
    - reflexivity. }
  vm_compute in Hfile. discriminate Hfile.
Qed.

Example torn_file :
  blacklist (world_of (saveBlacklist Partial.disk_full Scenario.five_bans))
  = "10.0.0.3" +:+ newline +:+ "10.0.0.5" +:+ newline +:+ "10.0".
Proof. vm_compute. reflexivity. Qed.

(** C10, amended.  [saveBlacklist] opens the file with truncation before
    anything is written, and what it writes then is the lines of the
    addresses in walk order, one write each, up to some point.  A save
    that gets the read lock returns the error of the first write that
    fails: the file then holds the lines of the addresses written
    before it, followed by the bytes of the failed line that got
    through, and nothing of what it held before; the addresses written
    are banned addresses but not all of them, the failed one missing.
    [banIP] drops whatever [saveBlacklist] returns: it goes on to log
    the ban and to notify, and nothing it leaves depends on the error;
    so does the handler on the ban path when the file cannot be
    opened. *)
Theorem saveBlacklist_partial_write :
  (∀ (e : SaveEnv) (w : World),
     ∃ k, added w (world_of (saveBlacklist e w))
          = OpenTrunc :: ((fun x => WriteString (x.1 +:+ newline))
                            <$> take k (save_order e))) ∧
  (∀ (e : SaveEnv) (w : World) pre ip t post n err,
     mu w ≠ WLocked → save_open e = None →
     ranges (save_order e) (bannedIPs w) →
     save_order e = pre ++ (ip, t) :: post →
     (∀ j, (j < length pre)%nat → save_write e j = WriteOk) →
     save_write e (length pre) = WriteFail n err →
     ∃ w', saveBlacklist e w = Done (Some err) w' ∧
           blacklist w'
           = lines_of pre +:+ substring 0 n (ip +:+ newline) ∧
           added w w'
           = OpenTrunc :: ((fun x => WriteString (x.1 +:+ newline))
                             <$> pre ++ [(ip, t)]) ∧
           (∀ ip', ip' ∈ pre.*1 → ip' ∈ dom (bannedIPs w)) ∧
           ip ∈ dom (bannedIPs w) ∧
           (ip ∉ pre.*1) ∧
           (length pre < size (bannedIPs w))%nat ∧
           bannedIPs w' = bannedIPs w) ∧
  (∀ (c : Config) (e : FailEnv) ip (w : World) res w1,
     ufw_deny e = None →
     saveBlacklist (save_env e) (blocked c e ip w) = Done res w1 →
     banIP c e ip w = Done tt (announced c e ip w1)) ∧
  (∀ (c : Config) (e : FailEnv) ip (w : World) err,
     ban_transition c e ip w →
     ufw_deny e = None → save_open (save_env e) = Some err →
     ∃ w', handleFailedLogin c e ip w = Done tt w' ∧
           blacklist w' = blacklist w ∧
           added w w'
           = [Log (LogLoginFailed ip (next_count e ip w)
                                  (MaxFailedAttempts c));
              UfwDeny ip; OpenTrunc;
              Log (LogBanned ip (BanDurationHours c) (ban_expiry c e))]
             ++ sent_banned c e ip
             ++ sent_failed c e (next_count e ip w)).
Proof.
  split; [|split; [|split]].
  - intros e w. exact (saveBlacklist_writes e w).
  - intros e w pre ip t post n err Hmu Hopen Hr Horder Hok Hfail.
    rewrite (saveBlacklist_fail e w pre ip t post n err) by done.
    eexists. split; [done|]. cbn [blacklist bannedIPs].
    pose proof (ranges_NoDup _ _ Hr) as Hnd.
    rewrite Horder, fmap_app, fmap_cons in Hnd. simpl in Hnd.
    apply NoDup_app in Hnd as (_ & Hdisj & _).
    split; [done|]. split; [by apply added_app|].
    split; [|split; [|split; [|split; [|done]]]].
    + intros ip' Hip'. eapply ranges_keys; [done|].
      rewrite Horder, fmap_app. apply elem_of_app. by left.
    + eapply ranges_keys; [done|].
      rewrite Horder, fmap_app, fmap_cons. apply elem_of_app. right.
      apply list_elem_of_here.
    + intros Hin. apply (Hdisj ip Hin). apply list_elem_of_here.
    + rewrite <- (ranges_length _ _ Hr), Horder, length_app. simpl. lia.
  - intros c e ip w res w1 Hdeny Hsave.
    exact (banIP_discards c e ip w res w1 Hdeny Hsave).
  - intros c e ip w err (Hmu & Hban & Hge) Hdeny Hopen.
    rewrite (handleFailedLogin_ban_unsaved c e ip w err) by done.
    eexists. split; [done|]. split; [done|].
    by rewrite with_ban_added.
Qed.

Lemma saveBlacklist_partial_write_witness :
  let e := {| save_open := None;
              save_order := map_to_list (bannedIPs Scenario.five_bans);
              save_write := fun i =>
                match i with
                | 2%nat => WriteFail 4 (Errorf "no space left on device")
                | _ => WriteOk
                end |} in
  ∃ w', saveBlacklist e Scenario.five_bans
        = Done (Some (Errorf "no space left on device")) w' ∧
        (length (take 2 (save_order e)) < size (bannedIPs Scenario.five_bans))%nat.
Proof.
  intros e.
  destruct (proj1 (proj2 saveBlacklist_partial_write) e Scenario.five_bans
              (take 2 (save_order e))
              (default ("", 0%Z) (save_order e !! 2%nat)).1
              (default ("", 0%Z) (save_order e !! 2%nat)).2
              (drop 3 (save_order e)) 4 (Errorf "no space left on device"))
    as (w' & Hrun & _ & _ & _ & _ & _ & Hlen & _).
  - discriminate.
  - reflexivity.
  - exact (Permutation_refl (map_to_list (bannedIPs Scenario.five_bans))).
  - by vm_compute.
  - intros [|[|j]] Hj; [reflexivity|reflexivity|].
    exfalso. vm_compute in Hj. lia.
  - reflexivity.
  - exact (ex_intro _ w' (conj Hrun Hlen)).
Defined.

(** ** Notifications *)

(** The claim C9 as written fails: when the send of the failure
    notification fails, the log holds the warning of the failed login
    and no error entry. *)
Lemma send_failures_logged_fails : ¬ send_failures_logged Scenario.cfg.
Proof.
  intros Hlog.
  destruct (Hlog Notices.telegram_down Scenario.attacker
              (world Scenario.fresh) (Errorf "telegram: 502 Bad Gateway"))
    as (eff & Hin & Herr); [reflexivity..|].
  vm_compute in Hin.
  repeat (apply elem_of_cons in Hin as [->|Hin]; [discriminate|]).
  by apply elem_of_nil in Hin.
Qed.

Lemma sends_app l k : sends (l ++ k) = (sends l + sends k)%nat.
Proof. unfold sends. by rewrite filter_app, length_app. Qed.

Lemma sends_sent_failed c e n : (sends (sent_failed c e n) <= 1)%nat.
Proof.
  unfold sends, sent_failed. destruct (LoginFailedEnabled c); vm_compute; lia.
Qed.

Lemma sends_sent_banned c e ip : (sends (sent_banned c e ip) <= 1)%nat.
Proof.
  unfold sends, sent_banned. destruct (IPBannedEnabled c); vm_compute; lia.
Qed.

Lemma sends_sent_success c e : (sends (sent_success c e) <= 1)%nat.
Proof.
  unfold sends, sent_success. destruct (LoginSuccessEnabled c); vm_compute; lia.
Qed.

Lemma added_refl w : added w w = [].
Proof. unfold added. apply drop_all. Qed.

Lemma added_emit w eff : added w (emit_effect eff w) = [eff].
Proof. by apply added_app. Qed.

(** The failure handler does not look at what the sends return. *)
Lemma handleFailedLogin_with_sends c e b f ip w :
  handleFailedLogin c (with_sends e b f) ip w = handleFailedLogin c e ip w.
Proof.
  destruct (decide (mu w = Unlocked)) as [Hmu|Hmu];
    [|by rewrite !handleFailedLogin_held].
  destruct (banned_at (now_check e) ip w) eqn:Hban;
    [by rewrite !handleFailedLogin_rejected|].
  destruct (Z.le_gt_cases (MaxFailedAttempts c) (next_count e ip w))
    as [Hge|Hlt]; [|by rewrite !handleFailedLogin_below].
  destruct (ufw_deny e) as [err|] eqn:Hdeny;
    [by rewrite !(handleFailedLogin_ban_refused _ _ _ _ err)|].
  destruct (save_open (save_env e)) as [err|] eqn:Hopen;
    [by rewrite !(handleFailedLogin_ban_unsaved _ _ _ _ err)|].
  by rewrite !handleFailedLogin_ban_deadlock.
Qed.

Lemma sends_cons x l :
  sends (x :: l) = ((if is_send x then 1 else 0) + sends l)%nat.
Proof.
  unfold sends. rewrite filter_cons.
  destruct (is_send x) eqn:Hx.
  - rewrite decide_True by done. done.
  - rewrite decide_False by (simpl; tauto). done.
Qed.

(** The failure handler sends each of its two notifications at most
    once. *)
Lemma handleFailedLogin_sends c e ip w :
  (sends (added w (world_of (handleFailedLogin c e ip w))) <= 2)%nat.
Proof.
  destruct (decide (mu w = Unlocked)) as [Hmu|Hmu].
  2:{ rewrite handleFailedLogin_held by done. cbn [world_of].
      rewrite added_refl. unfold sends. simpl. lia. }
  destruct (banned_at (now_check e) ip w) eqn:Hban.
  { rewrite handleFailedLogin_rejected by done. cbn [world_of].
    rewrite added_emit, sends_cons. unfold sends. simpl. lia. }
  pose proof (sends_sent_failed c e (next_count e ip w)) as Hsf.
  pose proof (sends_sent_banned c e ip) as Hsb.
  destruct (Z.le_gt_cases (MaxFailedAttempts c) (next_count e ip w))
    as [Hge|Hlt].
  - destruct (ufw_deny e) as [err|] eqn:Hdeny.
    { rewrite (handleFailedLogin_ban_refused _ _ _ _ err) by done.
      cbn [world_of]. rewrite with_ban_added.
      cbn [app]. rewrite !sends_cons. simpl. lia. }
    destruct (save_open (save_env e)) as [err|] eqn:Hopen.
    { rewrite (handleFailedLogin_ban_unsaved _ _ _ _ err) by done.
      cbn [world_of]. rewrite with_ban_added.
      cbn [app]. rewrite !sends_cons, sends_app. simpl. lia. }
    rewrite handleFailedLogin_ban_deadlock by done.
    cbn [world_of]. rewrite with_ban_added, !sends_cons.
    unfold sends. simpl. lia.
  - rewrite handleFailedLogin_below by done. cbn [world_of].
    erewrite added_app; [|cbn [trace]; rewrite counted_trace;
                          by rewrite <- app_assoc].
    cbn [app]. rewrite sends_cons. simpl. lia.
Qed.

(** C9, amended.  The core drops the result of every notification
    send.  Whatever the sends return, failure or not, the handlers
    return the same way and leave the same state, the same log entries
    and the same calls: a failed send is not logged, reaches no caller,
    and is not repeated - the success handler sends at most once, the
    failure handler at most once per notification (failure and ban). *)
Theorem send_results_dropped (c : Config) :
  (∀ e res ip w,
     handleSuccessfulLogin c (with_send e res) ip w
     = handleSuccessfulLogin c e ip w) ∧
  (∀ e banned failed ip w,
     handleFailedLogin c (with_sends e banned failed) ip w
     = handleFailedLogin c e ip w) ∧
  (∀ e ip w,
     (sends (added w (world_of (handleSuccessfulLogin c e ip w))) <= 1)%nat ∧
     filter is_error_entry
       (added w (world_of (handleSuccessfulLogin c e ip w))) = []) ∧
  (∀ e ip w,
     (sends (added w (world_of (handleFailedLogin c e ip w))) <= 2)%nat).
Proof.
  split; [|split; [|split]].
  - intros e res ip w. by rewrite !handleSuccessfulLogin_spec.
  - intros. apply handleFailedLogin_with_sends.
  - intros e ip w. rewrite handleSuccessfulLogin_spec. cbn [world_of].
    erewrite added_app; [|done].
    pose proof (sends_sent_success c e) as Hs.
    unfold sends, sent_success in *.
    destruct (LoginSuccessEnabled c); simpl in *; split; (lia || done).
  - intros. apply handleFailedLogin_sends.
Qed.

(** ** The log tailer *)

Lemma ReadString_no_line pos r :
  indexLF (unread pos r) = None →
  ReadString pos r
  = ReadError (default EOF (read_fault r))
              (pos + String.length (unread pos r)).
Proof. unfold ReadString, unread. by intros ->. Qed.

Lemma ReadString_line pos r j :
  indexLF (unread pos r) = Some j →
  ReadString pos r
  = GotLine (substring 0 (S j) (unread pos r)) (pos + S j).
Proof. unfold ReadString, unread. by intros ->. Qed.

Lemma tailLoop_eof c pos pos' r rest w :
  ReadString pos r = ReadError EOF pos' →
  tailLoop c pos (r :: rest) w
  = tailLoop c pos' rest (emit_effect (Sleep (100 * Millisecond)) w).
Proof. intros H. simpl. rewrite H. by run. Qed.

Lemma tailLoop_error c pos pos' r rest w err :
  ReadString pos r = ReadError err pos' → err ≠ EOF →
  tailLoop c pos (r :: rest) w = Done (Exited err) w.
Proof. intros H Hne. simpl. rewrite H. by destruct err. Qed.

Lemma tailLoop_line c pos pos' r rest w line :
  ReadString pos r = GotLine line pos' →
  tailLoop c pos (r :: rest) w
  = (dispatch c r line;; tailLoop c pos' rest) w.
Proof. intros H. simpl. by rewrite H. Qed.

(** Without a read fault the loop does not return. *)
Lemma tailLoop_keeps_reading c reads : ∀ pos w,
  Forall fault_free reads → exited (tailLoop c pos reads w) = false.
Proof.
  induction reads as [|r rest IH]; intros pos w Hff; [done|].
  apply Forall_cons in Hff as [Hr Hff].
  destruct (ReadString pos r) as [line pos'|err pos'] eqn:Hread.
  - rewrite (tailLoop_line _ _ _ _ _ _ _ Hread). run.
    destruct (dispatch c r line w) as [[] w'|h w']; [by apply IH|done].
  - assert (err = EOF) as ->.
    { unfold ReadString in Hread.
      destruct (indexLF _); [done|]. injection Hread as <- _.
      by destruct Hr as [-> | ->]. }
    rewrite (tailLoop_eof _ _ _ _ _ _ Hread). by apply IH.
Qed.

(** While nothing is appended to the log, the loop sleeps and
    retries, the reader staying at the end of the file. *)
Lemma tailLoop_idle c file reads : ∀ w,
  Forall (fun r => log_file r = file ∧ fault_free r) reads →
  tailLoop c (String.length file) reads w
  = Done (Reading (String.length file))
         (mkWorld (failedAttempts w) (bannedIPs w) (mu w) (blacklist w)
                  (trace w ++ naps (length reads))).
Proof.
  induction reads as [|r rest IH]; intros w Hidle.
  - simpl. run. by rewrite app_nil_r, world_eta.
  - apply Forall_cons in Hidle as [[Hfile Hr] Hidle].
    assert (Hread : ReadString (String.length file) r
                    = ReadError EOF (String.length file)).
    { unfold ReadString. rewrite Hfile, Nat.sub_diag. simpl.
      replace (substring (String.length file) 0 file) with "".
      - simpl. rewrite Nat.add_0_r. by destruct Hr as [-> | ->].
      - clear. induction file as [|x file IH]; [done|]. simpl. exact IH. }
    rewrite (tailLoop_eof _ _ _ _ _ _ Hread), (IH _ Hidle). store.
    by rewrite <- app_assoc.
Qed.

(** C8.  [monitorSSHLogs] returns the error of a failed open at once.
    Otherwise it seeks to the end of the file and reads from there: as
    long as nothing is appended it only sleeps and retries, and the
    lines present at the start are never handled.  A read that meets the
    end of the file sleeps 100 ms - less than a second - and the loop
    goes on with the next read; over reads that meet no other fault the
    loop never returns.  A read error other than the end of the file
    makes the loop return that error, whatever reads were to follow. *)
Theorem monitorSSHLogs_tails (c : Config) :
  (∀ e w err, log_open e = Some err →
     monitorSSHLogs c e w = Done (Exited err) w) ∧
  (∀ e w, log_open e = None →
     monitorSSHLogs c e w
     = tailLoop c (String.length (log_at_open e)) (log_reads e)
         (emit_effect SeekEnd w)) ∧
  (∀ e w, log_open e = None →
     Forall (fun r => log_file r = log_at_open e ∧ fault_free r)
            (log_reads e) →
     monitorSSHLogs c e w
     = Done (Reading (String.length (log_at_open e)))
         (mkWorld (failedAttempts w) (bannedIPs w) (mu w) (blacklist w)
                  (trace w ++ SeekEnd :: naps (length (log_reads e))))) ∧
  (∀ pos r rest w,
     indexLF (unread pos r) = None → fault_free r →
     tailLoop c pos (r :: rest) w
     = tailLoop c (pos + String.length (unread pos r)) rest
         (emit_effect (Sleep (100 * Millisecond)) w)) ∧
  (0 < 100 * Millisecond < Second)%Z ∧
  (∀ pos reads w,
     Forall fault_free reads → exited (tailLoop c pos reads w) = false) ∧
  (∀ pos r rest w err,
     indexLF (unread pos r) = None → read_fault r = Some err → err ≠ EOF →
     tailLoop c pos (r :: rest) w = Done (Exited err) w).
Proof.
  split; [|split; [|split; [|split; [|split; [|split]]]]].
  - intros e w err Hopen. unfold monitorSSHLogs. by rewrite Hopen.
  - intros e w Hopen. unfold monitorSSHLogs. rewrite Hopen. by run.
  - intros e w Hopen Hidle. unfold monitorSSHLogs. rewrite Hopen. run.
    rewrite (tailLoop_idle c (log_at_open e) (log_reads e) _ Hidle). store.
    by rewrite <- app_assoc.
  - intros pos r rest w Hno Hr. apply tailLoop_eof.
    rewrite (ReadString_no_line _ _ Hno). by destruct Hr as [-> | ->].
  - unfold Millisecond, Second. lia.
  - intros. by apply tailLoop_keeps_reading.
  - intros pos r rest w err Hno Hfault Hne.
    apply (tailLoop_error c pos (pos + String.length (unread pos r))); [|done].
    rewrite (ReadString_no_line _ _ Hno). by rewrite Hfault.
Qed.

Lemma monitorSSHLogs_tails_witness :
  monitorSSHLogs Scenario.cfg Tailing.unreadable (world Scenario.fresh)
  = Done (Exited (Errorf "open /var/log/auth.log: permission denied"))
         (world Scenario.fresh).
Proof.
  apply (proj1 (monitorSSHLogs_tails Scenario.cfg) Tailing.unreadable
           (world Scenario.fresh)).
  reflexivity.
Defined.

(** * Further properties of the monitor *)

(** ** Successful logins *)

(** The trace of a world replaced. *)
Lemma handleFailedLogin_maps_retraced c e ip w tr :
  let w' := mkWorld (failedAttempts w) (bannedIPs w) (mu w) (blacklist w) tr in
  failedAttempts (world_of (handleFailedLogin c e ip w'))
    = failedAttempts (world_of (handleFailedLogin c e ip w)) ∧
  bannedIPs (world_of (handleFailedLogin c e ip w'))
    = bannedIPs (world_of (handleFailedLogin c e ip w)).
Proof.
  intros w'.
  assert (Hban : banned_at (now_check e) ip w' = banned_at (now_check e) ip w)
    by done.
  assert (Hexp : failedAttempts (expired (now_check e) ip w')
                   = failedAttempts (expired (now_check e) ip w) ∧
                 bannedIPs (expired (now_check e) ip w')
                   = bannedIPs (expired (now_check e) ip w)).
  { unfold expired, w'. simpl.
    destruct (bannedIPs w !! ip) as [t|]; [|done].
    by destruct (Before (now_check e) t). }
  destruct Hexp as [Hf Hb].
  assert (Hn : next_count e ip w' = next_count e ip w).
  { unfold next_count, attempts. by rewrite Hf. }
  destruct (decide (mu w = Unlocked)) as [Hmu|Hmu].
  - destruct (banned_at (now_check e) ip w) eqn:Hbw.
    + destruct (handleFailedLogin_idle c e ip w (or_intror Hbw)) as [-> ->].
      assert (Hbw' : banned_at (now_check e) ip w' = true) by by rewrite Hban.
      destruct (handleFailedLogin_idle c e ip w' (or_intror Hbw')) as [-> ->].
      done.
    + destruct (handleFailedLogin_active c e ip w Hmu Hbw) as [-> ->].
      assert (Hbw' : banned_at (now_check e) ip w' = false) by by rewrite Hban.
      destruct (handleFailedLogin_active c e ip w' Hmu Hbw') as [-> ->].
      by rewrite Hn, Hf, Hb.
  - destruct (handleFailedLogin_idle c e ip w (or_introl Hmu)) as [-> ->].
    assert (Hmu' : mu w' ≠ Unlocked) by done.
    destruct (handleFailedLogin_idle c e ip w' (or_introl Hmu')) as [-> ->].
    done.
Qed.

(** X1.  [handleSuccessfulLogin] always returns, whoever holds the
    mutex; it logs the login and sends at most one notification, and
    leaves both maps, the mutex and the blacklist as they are.  A
    failure handled after it reaches the same counts and bans as it
    would have reached without it: a success does not reset the count
    of any address. *)
Theorem success_keeps_counts (c : Config) (e : SuccessEnv) (ip : string)
    (w : World) :
  ∃ w', handleSuccessfulLogin c e ip w = Done tt w' ∧
        failedAttempts w' = failedAttempts w ∧
        bannedIPs w' = bannedIPs w ∧
        mu w' = mu w ∧
        blacklist w' = blacklist w ∧
        added w w' = Log (LogLoginOk ip) :: sent_success c e ∧
        ∀ e' ip',
          failedAttempts (world_of (handleFailedLogin c e' ip' w'))
            = failedAttempts (world_of (handleFailedLogin c e' ip' w)) ∧
          bannedIPs (world_of (handleFailedLogin c e' ip' w'))
            = bannedIPs (world_of (handleFailedLogin c e' ip' w)).
Proof.
  rewrite handleSuccessfulLogin_spec. eexists. split; [done|].
  cbn [failedAttempts bannedIPs mu blacklist].
  repeat (split; [done|]). split; [by apply added_app|].
  intros e' ip'. apply handleFailedLogin_maps_retraced.
Qed.

(** ** Who lifts a block *)

Lemma unblock_calls_sent_failed c e n : unblock_calls (sent_failed c e n) = [].
Proof. unfold sent_failed. by destruct (LoginFailedEnabled c). Qed.

Lemma unblock_calls_sent_banned c e ip : unblock_calls (sent_banned c e ip) = [].
Proof. unfold sent_banned. by destruct (IPBannedEnabled c). Qed.

Lemma unblock_calls_sent_success c e : unblock_calls (sent_success c e) = [].
Proof. unfold sent_success. by destruct (LoginSuccessEnabled c). Qed.

Lemma unblock_calls_cons x l :
  unblock_calls (x :: l)
  = match x with UfwDelete ip => ip :: unblock_calls l | _ => unblock_calls l end.
Proof. by destruct x. Qed.

Lemma handleFailedLogin_unblocks_nothing c e ip w :
  unblock_calls (added w (world_of (handleFailedLogin c e ip w))) = [].
Proof.
  destruct (decide (mu w = Unlocked)) as [Hmu|Hmu].
  2:{ rewrite handleFailedLogin_held by done. cbn [world_of].
      by rewrite added_refl. }
  destruct (banned_at (now_check e) ip w) eqn:Hban.
  { rewrite handleFailedLogin_rejected by done. cbn [world_of].
    by rewrite added_emit. }
  pose proof (unblock_calls_sent_failed c e (next_count e ip w)) as Hsf.
  pose proof (unblock_calls_sent_banned c e ip) as Hsb.
  destruct (Z.le_gt_cases (MaxFailedAttempts c) (next_count e ip w))
    as [Hge|Hlt].
  - destruct (ufw_deny e) as [err|] eqn:Hdeny.
    { rewrite (handleFailedLogin_ban_refused _ _ _ _ err) by done.
      cbn [world_of]. rewrite with_ban_added. cbn [app].
      by rewrite !unblock_calls_cons. }
    destruct (save_open (save_env e)) as [err|] eqn:Hopen.
    { rewrite (handleFailedLogin_ban_unsaved _ _ _ _ err) by done.
      cbn [world_of]. rewrite with_ban_added. cbn [app].
      by rewrite !unblock_calls_cons, unblock_calls_app, Hsb, Hsf. }
    rewrite handleFailedLogin_ban_deadlock by done.
    cbn [world_of]. by rewrite with_ban_added, !unblock_calls_cons.
  - rewrite handleFailedLogin_below by done. cbn [world_of].
    erewrite added_app; [|cbn [trace]; rewrite counted_trace;
                          by rewrite <- app_assoc].
    cbn [app]. by rewrite unblock_calls_cons.
Qed.

Lemma only_sweeps_unblock_free c op w :
  match op with
  | SweepTick _ => True
  | _ => unblock_calls (added w (world_of (exec c op w))) = []
  end.
Proof.
  destruct op as [e ip|e ip|now ip|e]; [| | |done]; simpl.
  - apply handleFailedLogin_unblocks_nothing.
  - rewrite handleSuccessfulLogin_spec. cbn [world_of].
    erewrite added_app; [|done]. cbn [app].
    by rewrite unblock_calls_cons, unblock_calls_sent_success.
  - run. rewrite isIPBanned_spec. cbn [world_of].
    rewrite (added_app w (expired now ip w) []); [done|].
    by rewrite expired_trace, app_nil_r.
Qed.

(** X2.  [firewall.UnbanIP] is called by the sweeper only: the failure
    handler, the success handler and [isIPBanned] never ask the
    firewall to lift a block, not even when they find a ban run out
    and remove its records. *)
Theorem only_sweeps_unblock (c : Config) (op : Op) (w : World) :
  by_sweeper op = false →
  unblock_calls (added w (world_of (exec c op w))) = [].
Proof.
  intros Hop. pose proof (only_sweeps_unblock_free c op w) as H.
  by destruct op.
Qed.

Lemma only_sweeps_unblock_witness :
  unblock_calls
    (added (world Scenario.fresh)
       (world_of (exec Scenario.cfg Scenario.fourth_failure
                    (world Scenario.fresh)))) = [].
Proof.
  apply (only_sweeps_unblock Scenario.cfg Scenario.fourth_failure
           (world Scenario.fresh)).
  reflexivity.
Defined.

(** ** The trace only grows *)

Lemma trace_extends w w' effs :
  trace w' = trace w ++ effs → trace w' = trace w ++ added w w'.
Proof. intros H. by rewrite (added_app w w' effs H). Qed.

Lemma handleFailedLogin_trace c e ip w :
  trace (world_of (handleFailedLogin c e ip w))
  = trace w ++ added w (world_of (handleFailedLogin c e ip w)).
Proof.
  destruct (decide (mu w = Unlocked)) as [Hmu|Hmu].
  2:{ rewrite handleFailedLogin_held by done. cbn [world_of].
      by rewrite added_refl, app_nil_r. }
  destruct (banned_at (now_check e) ip w) eqn:Hban.
  { rewrite handleFailedLogin_rejected by done. by eapply trace_extends. }
  destruct (Z.le_gt_cases (MaxFailedAttempts c) (next_count e ip w))
    as [Hge|Hlt].
  - destruct (ufw_deny e) as [err|] eqn:Hdeny.
    { rewrite (handleFailedLogin_ban_refused _ _ _ _ err) by done.
      eapply trace_extends. cbn [world_of with_ban trace].
      rewrite counted_trace. by rewrite <- app_assoc. }
    destruct (save_open (save_env e)) as [err|] eqn:Hopen.
    { rewrite (handleFailedLogin_ban_unsaved _ _ _ _ err) by done.
      eapply trace_extends. cbn [world_of with_ban trace].
      rewrite counted_trace. by rewrite <- app_assoc. }
    rewrite handleFailedLogin_ban_deadlock by done.
    eapply trace_extends. cbn [world_of with_ban trace].
    rewrite counted_trace. by rewrite <- app_assoc.
  - rewrite handleFailedLogin_below by done.
    eapply trace_extends. cbn [world_of trace].
    rewrite counted_trace. by rewrite <- app_assoc.
Qed.

Lemma cleanupTick_trace e w :
  trace (world_of (cleanupTick e w))
  = trace w ++ added w (world_of (cleanupTick e w)).
Proof.
  destruct (decide (mu w = Unlocked)) as [Hmu|Hmu].
  - rewrite cleanupTick_free by done. eapply trace_extends.
    cbn [world_of]. simpl. by rewrite sweep_trace.
  - rewrite cleanupTick_held by done. cbn [world_of].
    by rewrite added_refl, app_nil_r.
Qed.

Lemma exec_trace c op w :
  trace (world_of (exec c op w))
  = trace w ++ added w (world_of (exec c op w)).
Proof.
  destruct op as [e ip|e ip|now ip|e]; simpl.
  - apply handleFailedLogin_trace.
  - rewrite handleSuccessfulLogin_spec. by eapply trace_extends.
  - run. rewrite isIPBanned_spec. cbn [world_of].
    apply (trace_extends _ _ []). by rewrite expired_trace, app_nil_r.
  - apply cleanupTick_trace.
Qed.

Lemma sys_step_trace c op s :
  trace (world (sys_step c op s))
  = trace (world s) ++ added (world s) (world (sys_step c op s)).
Proof.
  destruct (sys_step_world c op s) as [-> | ->].
  - by rewrite added_refl, app_nil_r.
  - apply exec_trace.
Qed.

Lemma sys_run_trace c ops : ∀ s,
  trace (world (sys_run c ops s))
  = trace (world s) ++ added (world s) (world (sys_run c ops s)).
Proof.
  induction ops as [|op ops IH]; intros s.
  - simpl. by rewrite added_refl, app_nil_r.
  - simpl. eapply trace_extends.
    rewrite (IH (sys_step c op s)), (sys_step_trace c op s).
    by rewrite <- app_assoc.
Qed.

Lemma added_trans w1 w2 w3 :
  trace w2 = trace w1 ++ added w1 w2 →
  trace w3 = trace w2 ++ added w2 w3 →
  added w1 w3 = added w1 w2 ++ added w2 w3.
Proof.
  intros H12 H23. apply added_app. rewrite H23, H12 at 1.
  by rewrite <- app_assoc.
Qed.

(** ** A ban that runs out lazily *)

(** An address without Ban Record gets none, and no unblock call, from
    an operation that is not a failure of its own. *)
Lemma exec_no_record c op w ip :
  (∀ e, op = SweepTick e → ranges (sweep_order e) (bannedIPs w)) →
  (∀ e, op ≠ OnFailedLogin e ip) →
  bannedIPs w !! ip = None →
  bannedIPs (world_of (exec c op w)) !! ip = None ∧
  ip ∉ unblock_calls (added w (world_of (exec c op w))).
Proof.
  intros Hadm Hop Hrec.
  destruct op as [e ip'|e ip'|now ip'|e].
  - rewrite (only_sweeps_unblock_free c (OnFailedLogin e ip') w).
    split; [|apply not_elem_of_nil].
    simpl. destruct (decide (ip = ip')) as [<-|Hne]; [by destruct (Hop e)|].
    destruct (handleFailedLogin_other c e ip ip' w Hne) as [_ ->]. done.
  - rewrite (only_sweeps_unblock_free c (OnSuccessfulLogin e ip') w).
    split; [|apply not_elem_of_nil].
    simpl. by rewrite handleSuccessfulLogin_spec.
  - rewrite (only_sweeps_unblock_free c (CheckBanned now ip') w).
    split; [|apply not_elem_of_nil].
    simpl. run. rewrite isIPBanned_spec. cbn [world_of].
    destruct (decide (ip = ip')) as [<-|Hne].
    + unfold expired. by rewrite Hrec.
    + destruct (expired_lookup_ne now ip ip' w Hne) as [_ ->]. done.
  - simpl. destruct (decide (mu w = Unlocked)) as [Hmu|Hmu].
    + destruct (cleanupTick_outcome e w Hmu (Hadm e eq_refl))
        as (-> & Hadded & Hmaps).
      cbn [world_of]. specialize (Hmaps ip). rewrite Hrec in Hmaps.
      injection Hmaps as Hb _. split; [exact Hb|].
      rewrite Hadded, sweep_unblock_calls.
      intros (t & Ht & _)%(lapsed_keys e (sweep_order e) (bannedIPs w));
        [congruence|by apply Hadm].
    + rewrite cleanupTick_held by done. cbn [world_of].
      split; [done|]. rewrite added_refl. apply not_elem_of_nil.
Qed.

Lemma run_no_record c ops : ∀ s ip,
  admissible_run c ops s →
  Forall (fun op => ∀ e, op ≠ OnFailedLogin e ip) ops →
  bannedIPs (world s) !! ip = None →
  bannedIPs (world (sys_run c ops s)) !! ip = None ∧
  ip ∉ unblock_calls (added (world s) (world (sys_run c ops s))).
Proof.
  induction ops as [|op ops IH]; intros s ip Hadm Hall Hrec.
  - simpl. split; [done|]. rewrite added_refl. apply not_elem_of_nil.
  - destruct Hadm as [Hop Hadm]. apply Forall_cons in Hall as [Hnot Hall].
    assert (Hstep :
      bannedIPs (world (sys_step c op s)) !! ip = None ∧
      ip ∉ unblock_calls (added (world s) (world (sys_step c op s)))).
    { destruct (sys_step_world c op s) as [-> | ->].
      - split; [done|]. rewrite added_refl. apply not_elem_of_nil.
      - apply exec_no_record; [|done..]. intros e ->. exact Hop. }
    destruct Hstep as [Hb Hu].
    destruct (IH (sys_step c op s) ip Hadm Hall Hb) as [Hb' Hu'].
    simpl. split; [done|].
    rewrite (added_trans (world s) (world (sys_step c op s))
               (world (sys_run c ops (sys_step c op s))))
      by (apply sys_step_trace || apply sys_run_trace).
    rewrite unblock_calls_app. intros [?|?]%elem_of_app; done.
Qed.

(** X3.  A failure from an address whose ban has run out, handled
    before any sweep, with a threshold above 1: the handler removes the
    old records, counts the failure as the first one and returns,
    without asking the firewall to lift the block.  Nor does any
    later operation, as long as the address fails no more: the sweeper
    walks the ban map only, and the address is no longer in it.  The
    ufw rule stays. *)
Theorem lazy_expiry_leaves_block (c : Config) (e : FailEnv) (ip : string)
    (w : World) (expiresAt : Time) :
  mu w = Unlocked →
  bannedIPs w !! ip = Some expiresAt →
  (expiresAt <= now_check e)%Z →
  (1 < MaxFailedAttempts c)%Z →
  ∃ w1, handleFailedLogin c e ip w = Done tt w1 ∧
        mu w1 = Unlocked ∧
        bannedIPs w1 !! ip = None ∧
        attempts w1 ip = 1%Z ∧
        unblock_calls (added w w1) = [] ∧
        ∀ ops,
          admissible_run c ops (mkSystem w1 false false) →
          Forall (fun op => ∀ e', op ≠ OnFailedLogin e' ip) ops →
          let w2 := world (sys_run c ops (mkSystem w1 false false)) in
          bannedIPs w2 !! ip = None ∧
          (ip ∉ unblock_calls (added w w2)).
Proof.
  intros Hmu Hrec Hexp Hth.
  assert (Hban : banned_at (now_check e) ip w = false).
  { unfold banned_at. rewrite Hrec. by apply Before_false. }
  assert (Hn : next_count e ip w = 1%Z).
  { unfold next_count, expired, attempts. rewrite Hrec.
    rewrite (proj2 (Before_false _ _)) by done. simpl.
    by rewrite lookup_delete_eq. }
  pose proof (handleFailedLogin_unblocks_nothing c e ip w) as Hnone.
  pose proof (handleFailedLogin_trace c e ip w) as Htr.
  pose proof (handleFailedLogin_below c e ip w Hmu Hban) as Hrun.
  rewrite Hn in Hrun. specialize (Hrun Hth). cbv zeta in Hrun.
  set (w1 := world_of (handleFailedLogin c e ip w)) in *.
  assert (Hret : handleFailedLogin c e ip w = Done tt w1).
  { unfold w1. by rewrite Hrun. }
  assert (Hmu1 : mu w1 = Unlocked) by (unfold w1; by rewrite Hrun).
  assert (Hb1 : bannedIPs w1 !! ip = None).
  { unfold w1. rewrite Hrun. cbn [world_of bannedIPs counted].
    by apply expired_unbanned. }
  assert (Ha1 : attempts w1 ip = 1%Z).
  { unfold w1, attempts. rewrite Hrun. cbn [world_of failedAttempts counted].
    by rewrite lookup_insert_eq, Hn. }
  exists w1. repeat (split; [done|]).
  intros ops Hadm Hall. cbv zeta.
  destruct (run_no_record c ops (mkSystem w1 false false) ip Hadm Hall Hb1)
    as [Hb Hu].
  split; [done|].
  rewrite (added_trans w w1
             (world (sys_run c ops (mkSystem w1 false false))))
    by (exact Htr || apply (sys_run_trace c ops (mkSystem w1 false false))).
  rewrite unblock_calls_app, Hnone. exact Hu.
Qed.

Lemma lazy_expiry_leaves_block_witness :
  ∃ w1, handleFailedLogin Scenario.cfg (Scenario.healthy Scenario.day [])
          "10.0.0.1" Scenario.five_bans = Done tt w1 ∧
        attempts w1 "10.0.0.1" = 1%Z ∧
        unblock_calls (added Scenario.five_bans w1) = [].
Proof.
  destruct (lazy_expiry_leaves_block Scenario.cfg
              (Scenario.healthy Scenario.day []) "10.0.0.1"
              Scenario.five_bans (Scenario.day - 2)%Z)
    as (w1 & Hret & _ & _ & Ha & Hu & _).
  - reflexivity.
  - reflexivity.
  - unfold Scenario.day. simpl. lia.
  - simpl. lia.
  - exact (ex_intro _ w1 (conj Hret (conj Ha Hu))).
Defined.

(** ** Sweeping twice *)

Lemma sweep_nothing e l : ∀ w,
  Forall (fun x => lapsed e x = false) l → foldl (visit e) w l = w.
Proof.
  induction l as [|x l IH]; intros w Hall; [done|].
  apply Forall_cons in Hall as [Hx Hall]. simpl.
  unfold visit at 2. rewrite Hx. by apply IH.
Qed.

(** X4.  A tick leaves nothing for a second tick whose clock readings
    are not later: the second tick makes no firewall call, writes no
    log entry and leaves the store as it is. *)
Theorem second_sweep_idle (e1 e2 : SweepEnv) (w : World) :
  mu w = Unlocked →
  ranges (sweep_order e1) (bannedIPs w) →
  ranges (sweep_order e2) (bannedIPs (world_of (cleanupTick e1 w))) →
  (∀ ip, now_visit e2 ip <= now_visit e1 ip)%Z →
  ∃ w1, cleanupTick e1 w = Done tt w1 ∧ cleanupTick e2 w1 = Done tt w1.
Proof.
  intros Hmu Hr1 Hr2 Hclock.
  destruct (cleanupTick_outcome e1 w Hmu Hr1) as (Hrun & _ & Hmaps).
  rewrite Hrun in *. cbn [world_of] in Hr2.
  set (w1 := set_mu Unlocked
               (foldl (visit e1) (set_mu WLocked w) (sweep_order e1))) in *.
  exists w1. split; [done|].
  rewrite cleanupTick_free by done.
  rewrite sweep_nothing.
  - unfold w1. done.
  - apply Forall_forall. intros [ip t] Hin.
    rewrite Hr2 in Hin. apply elem_of_map_to_list in Hin.
    specialize (Hmaps ip). fold w1 in Hmaps. rewrite Hin in Hmaps.
    unfold lapsed. simpl. apply After_false.
    destruct (bannedIPs w !! ip) as [t'|]; [|done].
    destruct (After (now_visit e1 ip) t') eqn:Hl; [done|].
    injection Hmaps as <- _. apply After_false in Hl.
    specialize (Hclock ip). lia.
Qed.

Lemma second_sweep_idle_witness :
  let e2 := {| sweep_order :=
                 map_to_list
                   (bannedIPs (world_of (cleanupTick Scenario.tick
                                           Scenario.five_bans)));
               now_visit := fun _ => Scenario.day;
               ufw_delete := fun _ => None |} in
  ∃ w1, cleanupTick Scenario.tick Scenario.five_bans = Done tt w1 ∧
        cleanupTick e2 w1 = Done tt w1.
Proof.
  intros e2.
  apply (second_sweep_idle Scenario.tick e2 Scenario.five_bans).
  - reflexivity.
  - exact (Permutation_refl (map_to_list (bannedIPs Scenario.five_bans))).
  - exact (Permutation_refl (sweep_order e2)).
  - intros ip. simpl. lia.
Defined.

(** ** After the first ban *)

(** A system whose monitor goroutine is parked with the mutex held
    takes no further step that changes the world. *)
Lemma parked_run c ops : ∀ s,
  monitor_parked s = true → mu (world s) ≠ Unlocked →
  world (sys_run c ops s) = world s ∧
  monitor_parked (sys_run c ops s) = true.
Proof.
  induction ops as [|op ops IH]; intros s Hpark Hmu; [done|].
  simpl.
  assert (Hstep : world (sys_step c op s) = world s ∧
                  monitor_parked (sys_step c op s) = true).
  { unfold sys_step. destruct op as [e ip|e ip|now ip|e]; simpl;
      rewrite ?Hpark; try done.
    destruct (sweeper_parked s); [done|].
    by rewrite cleanupTick_held. }
  destruct Hstep as [Hw Hp].
  destruct (IH (sys_step c op s) Hp) as [Hw' Hp'].
  - by rewrite Hw.
  - by rewrite Hw', Hw.
Qed.

(** X5.  The first ban transition that meets a working firewall and an
    openable blacklist file stops the process for good: the handler
    parks in [saveBlacklist] with the mutex held, and from then on no
    event is handled and no tick gets the mutex, so the two maps, the
    truncated blacklist file and the trace never change again.  In
    particular no ban is ever lifted and the file stays empty. *)
Theorem first_ban_stops_process (c : Config) (e : FailEnv) (ip : string)
    (s : System) :
  monitor_parked s = false →
  ban_transition c e ip (world s) →
  ufw_deny e = None → save_open (save_env e) = None →
  let s1 := sys_step c (OnFailedLogin e ip) s in
  monitor_parked s1 = true ∧
  mu (world s1) = WLocked ∧
  blacklist (world s1) = "" ∧
  bannedIPs (world s1) !! ip = Some (ban_expiry c e) ∧
  ∀ ops, world (sys_run c ops s1) = world s1.
Proof.
  intros Hpark (Hmu & Hban & Hge) Hdeny Hopen. cbv zeta.
  assert (Hs1 : sys_step c (OnFailedLogin e ip) s
                = mkSystem (with_ban c e ip (world s) WLocked ""
                              [UfwDeny ip; OpenTrunc])
                           true (sweeper_parked s)).
  { unfold sys_step. simpl. rewrite Hpark.
    by rewrite handleFailedLogin_ban_deadlock. }
  rewrite Hs1. cbn [world monitor_parked].
  split; [done|]. split; [done|]. split; [done|].
  split; [apply with_ban_record|].
  intros ops. by apply parked_run.
Qed.

Lemma first_ban_stops_process_witness :
  let s2 := sys_run Scenario.cfg (take 2 Scenario.three_failures)
              Scenario.fresh in
  let e := Scenario.healthy (3 * Second) [] in
  monitor_parked (sys_step Scenario.cfg (OnFailedLogin e Scenario.attacker) s2)
  = true.
Proof.
  intros s2 e.
  apply (first_ban_stops_process Scenario.cfg e Scenario.attacker s2).
  - reflexivity.
  - by vm_compute.
  - reflexivity.
  - reflexivity.
Defined.

(** ** The read lock of [saveBlacklist] *)

(** X6.  [saveBlacklist] entered with the mutex free gives it back
    free when every write succeeds, and takes no lock at all when the
    file does not open.  When a write fails it returns without
    [RUnlock]: the mutex stays read-locked, and every failure handler
    and every tick that comes after parks on [Lock]. *)
Theorem failed_write_leaks_lock (e : SaveEnv) (w : World) :
  mu w = Unlocked →
  (∀ err, save_open e = Some err →
     ∃ w', saveBlacklist e w = Done (Some err) w' ∧
           mu w' = Unlocked ∧ blacklist w' = blacklist w) ∧
  (save_open e = None → (∀ j, save_write e j = WriteOk) →
     ∃ w', saveBlacklist e w = Done None w' ∧ mu w' = Unlocked) ∧
  (∀ pre ip t post n err,
     save_open e = None →
     save_order e = pre ++ (ip, t) :: post →
     (∀ j, (j < length pre)%nat → save_write e j = WriteOk) →
     save_write e (length pre) = WriteFail n err →
     ∃ w', saveBlacklist e w = Done (Some err) w' ∧
           mu w' = RLocked 0 ∧
           (∀ c fe ip', handleFailedLogin c fe ip' w' = Halted Deadlock w') ∧
           (∀ se, cleanupTick se w' = Halted Deadlock w')).
Proof.
  intros Hmu. split; [|split].
  - intros err Hopen. unfold saveBlacklist. run. rewrite Hopen.
    eexists. split; [done|]. done.
  - intros Hopen Hok. rewrite saveBlacklist_ok by (done || congruence).
    eexists. split; [done|]. done.
  - intros pre ip t post n err Hopen Horder Hok Hfail.
    rewrite (saveBlacklist_fail e w pre ip t post n err)
      by (done || congruence).
    eexists. split; [done|]. rewrite Hmu.
    split; [done|]. split.
    + intros. by apply handleFailedLogin_held.
    + intros. by apply cleanupTick_held.
Qed.

Lemma failed_write_leaks_lock_witness :
  let e := {| save_open := None;
              save_order := map_to_list (bannedIPs Scenario.five_bans);
              save_write := fun i =>
                match i with
                | 2%nat => WriteFail 4 (Errorf "no space left on device")
                | _ => WriteOk
                end |} in
  ∃ w', saveBlacklist e Scenario.five_bans
        = Done (Some (Errorf "no space left on device")) w' ∧
        mu w' = RLocked 0.
Proof.
  intros e.
  destruct (proj2 (proj2 (failed_write_leaks_lock e Scenario.five_bans
                            eq_refl))
              (take 2 (save_order e))
              (default ("", 0%Z) (save_order e !! 2%nat)).1
              (default ("", 0%Z) (save_order e !! 2%nat)).2
              (drop 3 (save_order e)) 4 (Errorf "no space left on device"))
    as (w' & Hrun & Hmu & _).
  - reflexivity.
  - by vm_compute.
  - intros [|[|j]] Hj; [reflexivity|reflexivity|].
    exfalso. vm_compute in Hj. lia.
  - reflexivity.
  - exact (ex_intro _ w' (conj Hrun Hmu)).
Defined.

(** ** Loading any file *)

Lemma insertLines_general c e lines : ∀ i w,
  ∃ w', insertLines c e i lines w = Done tt w' ∧
        failedAttempts w' = failedAttempts w ∧
        mu w' = mu w ∧ blacklist w' = blacklist w ∧ trace w' = trace w ∧
        (∀ ip, ip ≠ "" → ip ∈ lines →
           ∃ j, lines !! j = Some ip ∧
                bannedIPs w' !! ip
                = Some (load_now e (i + j) + banDuration c)%Z) ∧
        (∀ ip, ip = "" ∨ ip ∉ lines →
           bannedIPs w' !! ip = bannedIPs w !! ip).
Proof.
  induction lines as [|ip0 rest IH]; intros i w.
  - exists w. repeat split; try done.
    intros ip _ Hin. by apply elem_of_nil in Hin.
  - simpl. run. destruct (String.eqb ip0 "") eqn:Hempty; simpl.
    + apply String.eqb_eq in Hempty as ->.
      destruct (IH (S i) w) as (w' & -> & Hf & Hm & Hbl & Htr & Hin & Hout).
      exists w'. repeat split; try done.
      * intros ip Hne [->|Hr]%elem_of_cons; [done|].
        destruct (Hin ip Hne Hr) as (j & Hj & Hl). exists (S j).
        split; [done|]. by rewrite Nat.add_succ_r.
      * intros ip [->|Hnot]; [apply Hout; by left|].
        apply Hout. right. by apply not_elem_of_cons in Hnot as [_ ?].
    + apply String.eqb_neq in Hempty.
      destruct (IH (S i)
                  (set_bannedIPs
                     <[ip0:=(load_now e i + banDuration c)%Z]> w))
        as (w' & -> & Hf & Hm & Hbl & Htr & Hin & Hout).
      exists w'. repeat split; try done.
      * intros ip Hne Hmem.
        destruct (decide (ip ∈ rest)) as [Hr|Hr].
        -- destruct (Hin ip Hne Hr) as (j & Hj & Hl). exists (S j).
           split; [done|]. by rewrite Nat.add_succ_r.
        -- apply elem_of_cons in Hmem as [->|?]; [|done].
           exists 0%nat. split; [done|].
           rewrite (Hout ip0 (or_intror Hr)). simpl.
           by rewrite lookup_insert_eq, Nat.add_0_r.
      * intros ip Hcase.
        assert (ip ≠ ip0).
        { destruct Hcase as [->|Hnot]; [done|].
          by apply not_elem_of_cons in Hnot as [? _]. }
        rewrite Hout.
        -- simpl. by rewrite lookup_insert_ne.
        -- destruct Hcase as [->|Hnot]; [by left|right].
           by apply not_elem_of_cons in Hnot as [_ ?].
Qed.

Lemma indexLF_snoc cur c :
  indexLF cur = None → Ascii.eqb c LF = false →
  indexLF (cur +:+ String c "") = None.
Proof.
  intros Hcur Hc. induction cur as [|x cur IH].
  - simpl. by rewrite Hc.
  - apply indexLF_cons in Hcur as [Hx Hcur].
    rewrite append_cons. simpl. rewrite Hx. by rewrite (IH Hcur).
Qed.

Lemma indexLF_String x s :
  indexLF (String x s)
  = if Ascii.eqb x LF then Some 0%nat else S <$> indexLF s.
Proof. reflexivity. Qed.





(** The messy file: two addresses banned, the repeated one under the
    clock reading of its last line. *)
Example messy_file_loaded :
  let w' := world_of (loadBlacklist Scenario.cfg Loading.by_line
                        (NewMonitor Loading.messy)) in
  size (bannedIPs w') = 2%nat ∧
  bannedIPs w' !! "10.0.0.1" = Some (3 * Second + 24 * Hour)%Z ∧
  bannedIPs w' !! "10.0.0.2" = Some (2 * Second + 24 * Hour)%Z.
Proof. by vm_compute. Qed.

(** ** Line ends *)

Lemma dropCR_snoc_CR s : dropCR (s +:+ String CR "") = s.
Proof.
  induction s as [|x s IH]; [done|].
  rewrite append_cons.
  destruct s as [|y s].
  - done.
  - rewrite append_cons in *.
    change (dropCR (String x (String y (s +:+ String CR ""))))
      with (String x (dropCR (String y (s +:+ String CR "")))).
    by rewrite IH.
Qed.

Lemma scanLines_lf ips :
  Forall (fun ip => well_formed ip = true) ips →
  scanLines (lf_lines_of ips) = (ips, None).
Proof.
  unfold scanLines. induction 1 as [|ip l Hip Hl IH]; [done|].
  apply well_formed_inv in Hip as (_ & Hfit & Hlf & Hcr).
  change (lf_lines_of (ip :: l)) with (ip +:+ newline +:+ lf_lines_of l).
  rewrite (scanFrom_line "" ip (lf_lines_of l) Hlf).
  by rewrite append_nil_l, Hfit, IH, Hcr.
Qed.

Lemma scanLines_crlf ips :
  Forall (fun ip => indexLF ip = None ∧
                    fits (ip +:+ String CR "") = true) ips →
  scanLines (crlf_lines_of ips) = (ips, None).
Proof.
  unfold scanLines. induction 1 as [|ip l [Hlf Hfit] Hl IH]; [done|].
  change (crlf_lines_of (ip :: l))
    with (ip +:+ String CR newline +:+ crlf_lines_of l).
  assert (Hsplit : ip +:+ String CR newline +:+ crlf_lines_of l
                   = (ip +:+ String CR "") +:+ newline +:+ crlf_lines_of l).
  { by rewrite append_assoc. }
  rewrite Hsplit.
  rewrite (scanFrom_line "" (ip +:+ String CR "") (crlf_lines_of l)).
  - by rewrite append_nil_l, Hfit, IH, dropCR_snoc_CR.
  - by apply indexLF_snoc.
Qed.

Lemma insertLines_same_bans c e lines : ∀ i w1 w2,
  bannedIPs w1 = bannedIPs w2 →
  bannedIPs (world_of (insertLines c e i lines w1))
  = bannedIPs (world_of (insertLines c e i lines w2)).
Proof.
  induction lines as [|ip rest IH]; intros i w1 w2 Hb; [done|].
  simpl. run. destruct (String.eqb ip ""); simpl.
  - by apply IH.
  - apply IH. simpl. by rewrite Hb.
Qed.

(** X8.  A blacklist whose lines end in carriage return and line feed
    loads the same bans as the same lines ended by a line feed: the
    scanner drops the carriage return, so no banned address carries
    one. *)
Theorem crlf_blacklist_loads_alike (c : Config) (e : LoadEnv)
    (ips : list string) :
  load_open e = None → load_read e = None →
  Forall (fun ip => well_formed ip = true ∧
                    fits (ip +:+ String CR "") = true) ips →
  ∃ w1 w2,
    loadBlacklist c e (NewMonitor (crlf_lines_of ips)) = Done None w1 ∧
    loadBlacklist c e (NewMonitor (lf_lines_of ips)) = Done None w2 ∧
    bannedIPs w1 = bannedIPs w2 ∧
    ∀ ip, ip ∈ dom (bannedIPs w1) ↔ ip ∈ ips.
Proof.
  intros Hopen Hread Hall.
  assert (Hlf : scanLines (lf_lines_of ips) = (ips, None)).
  { apply scanLines_lf. eapply Forall_impl; [exact Hall|]. by intros ip [? _]. }
  assert (Hcrlf : scanLines (crlf_lines_of ips) = (ips, None)).
  { apply scanLines_crlf. eapply Forall_impl; [exact Hall|].
    intros ip [Hwf ?]. split; [|done].
    by apply well_formed_inv in Hwf as (_ & _ & ? & _). }
  unfold loadBlacklist. run. rewrite Hopen, Hread. simpl.
  rewrite Hlf, Hcrlf.
  pose proof (insertLines_same_bans c e ips 0
                (emit_effect OpenRead (NewMonitor (crlf_lines_of ips)))
                (emit_effect OpenRead (NewMonitor (lf_lines_of ips)))
                eq_refl) as Hsame.
  destruct (insertLines_general c e ips 0
              (emit_effect OpenRead (NewMonitor (crlf_lines_of ips))))
    as (w1 & Hw1 & _ & _ & _ & _ & Hin & Hout).
  destruct (insertLines_returns c e 0 ips
              (emit_effect OpenRead (NewMonitor (lf_lines_of ips))))
    as [w2 Hw2].
  run. rewrite Hw1, Hw2 in *. simpl in Hsame.
  exists w1, w2. repeat (split; [done|]).
  intros ip. rewrite elem_of_dom. split.
  - intros [t Ht]. destruct (decide (ip ∈ ips)) as [|Hnot]; [done|].
    rewrite (Hout ip (or_intror Hnot)) in Ht. simpl in Ht.
    by rewrite lookup_empty in Ht.
  - intros Hmem.
    assert (ip ≠ "").
    { apply (proj1 (Forall_forall _ _) Hall) in Hmem as [Hwf _].
      by apply well_formed_inv in Hwf as (? & _). }
    destruct (Hin ip H Hmem) as (j & _ & Hj). by eexists.
Qed.

Lemma crlf_blacklist_loads_alike_witness :
  ∃ w1 w2,
    loadBlacklist Scenario.cfg Loading.by_line
      (NewMonitor (crlf_lines_of ["10.0.0.1"; "10.0.0.2"])) = Done None w1 ∧
    loadBlacklist Scenario.cfg Loading.by_line
      (NewMonitor (lf_lines_of ["10.0.0.1"; "10.0.0.2"])) = Done None w2 ∧
    bannedIPs w1 = bannedIPs w2.
Proof.
  destruct (crlf_blacklist_loads_alike Scenario.cfg Loading.by_line
              ["10.0.0.1"; "10.0.0.2"])
    as (w1 & w2 & H1 & H2 & Hb & _).
  - reflexivity.
  - reflexivity.
  - repeat constructor.
  - exact (ex_intro _ w1 (ex_intro _ w2 (conj H1 (conj H2 Hb)))).
Defined.

(** ** Strings, again *)

Lemma length_append (a b : string) :
  String.length (a +:+ b) = (String.length a + String.length b)%nat.
Proof.
  induction a as [|x a IH]; [done|].
  rewrite append_cons. simpl. by rewrite IH.
Qed.

Lemma substring_skip (a b : string) n :
  substring (String.length a) n (a +:+ b) = substring 0 n b.
Proof. induction a as [|x a IH]; [done|]. rewrite append_cons. exact IH. Qed.

Lemma substring_prefix (a b : string) :
  substring 0 (String.length a) (a +:+ b) = a.
Proof.
  induction a as [|x a IH].
  - simpl. by destruct b.
  - rewrite append_cons. simpl. by rewrite IH.
Qed.

Lemma substring_all (b : string) : substring 0 (String.length b) b = b.
Proof.
  rewrite <- (append_nil_r b) at 2. apply substring_prefix.
Qed.

Lemma indexLF_line (a b : string) :
  indexLF a = None → indexLF (a +:+ newline +:+ b) = Some (String.length a).
Proof.
  induction a as [|x a IH]; intros Ha; [done|].
  apply indexLF_cons in Ha as [Hx Ha].
  rewrite append_cons, indexLF_String, Hx, (IH Ha). done.
Qed.

Lemma unread_at_end (base more : string) r :
  log_file r = base +:+ more → unread (String.length base) r = more.
Proof.
  intros H. unfold unread. rewrite H.
  rewrite length_append, substring_skip.
  replace (String.length base + String.length more - String.length base)%nat
    with (String.length more) by lia.
  apply substring_all.
Qed.

(** A read that finds a whole line after the reader. *)
Lemma ReadString_whole (base l more : string) r :
  log_file r = base +:+ l +:+ newline +:+ more → indexLF l = None →
  ReadString (String.length base) r
  = GotLine (l +:+ newline)
            (String.length (base +:+ l +:+ newline)).
Proof.
  intros Hfile Hl.
  rewrite (ReadString_line _ _ (String.length l)).
  - rewrite (unread_at_end base (l +:+ newline +:+ more)) by done.
    f_equal.
    + replace (S (String.length l)) with (String.length (l +:+ newline)).
      * rewrite <- append_assoc. apply substring_prefix.
      * rewrite length_append. simpl. lia.
    + rewrite !length_append. simpl. lia.
  - rewrite (unread_at_end base (l +:+ newline +:+ more)) by done.
    by apply indexLF_line.
Qed.

(** A read that finds the beginning of a line only. *)
Lemma ReadString_piece (base a : string) r :
  log_file r = base +:+ a → indexLF a = None → fault_free r →
  ReadString (String.length base) r
  = ReadError EOF (String.length (base +:+ a)).
Proof.
  intros Hfile Ha Hr.
  rewrite ReadString_no_line; rewrite (unread_at_end base a) by done;
    [|done].
  rewrite length_append. by destruct Hr as [-> | ->].
Qed.

(** ** Lines in pieces, lines in a row *)

(** X9.  The bytes of an unfinished line that a read finds at the end
    of the log are consumed and dropped: the loop sleeps, and when the
    rest of the line has been written the handler is given the rest
    only.  An event whose line reaches the file in two pieces around a
    read is therefore handled as whatever its second piece says. *)
Theorem torn_line_is_lost (c : Config) (base a b : string)
    (r1 r2 : ReadEnv) (rest : list ReadEnv) (w : World) :
  log_file r1 = base +:+ a →
  log_file r2 = base +:+ a +:+ b +:+ newline →
  indexLF a = None → indexLF b = None → fault_free r1 →
  tailLoop c (String.length base) (r1 :: r2 :: rest) w
  = (dispatch c r2 (b +:+ newline);;
     tailLoop c (String.length (log_file r2)) rest)
      (emit_effect (Sleep (100 * Millisecond)) w).
Proof.
  intros H1 H2 Ha Hb Hr1.
  rewrite (tailLoop_eof c _ _ _ _ _ (ReadString_piece base a r1 H1 Ha Hr1)).
  assert (H2' : log_file r2 = (base +:+ a) +:+ b +:+ newline +:+ "").
  { by rewrite H2, append_assoc. }
  rewrite (tailLoop_line c _ _ _ _ _ _
             (ReadString_whole (base +:+ a) b "" r2 H2' Hb)).
  by rewrite H2, !append_assoc.
Qed.

Lemma torn_line_is_lost_witness :
  tailLoop Scenario.cfg 0 [TornReads.first; TornReads.second]
    (world Scenario.fresh)
  = (dispatch Scenario.cfg TornReads.second (Torn.tail +:+ newline);;
     tailLoop Scenario.cfg (String.length (log_file TornReads.second)) [])
      (emit_effect (Sleep (100 * Millisecond)) (world Scenario.fresh)).
Proof.
  apply (torn_line_is_lost Scenario.cfg "" Torn.head Torn.tail
           TornReads.first TornReads.second [] (world Scenario.fresh)).
  - reflexivity.
  - reflexivity.
  - reflexivity.
  - reflexivity.
  - left. reflexivity.
Defined.

(** The failed login of the torn line is an event when the line is read
    whole, and none when it is read in two pieces. *)
Example torn_failure_not_counted :
  extract (Torn.head +:+ Torn.tail +:+ newline)
    = Some (FailedLogin "10.0.0.1") ∧
  extract (Torn.tail +:+ newline) = None ∧
  failedAttempts
    (world_of (tailLoop Scenario.cfg 0 [TornReads.first; TornReads.second]
                 (world Scenario.fresh))) = ∅.
Proof. by vm_compute. Qed.

Lemma bind_Done {A B} (m : M A) (k : A → M B) w a w' :
  m w = Done a w' → (m ≫= k) w = k a w'.
Proof. intros H. run. by rewrite H. Qed.

Lemma bind_Halted {A B} (m : M A) (k : A → M B) w h w' :
  m w = Halted h w' → (m ≫= k) w = Halted h w'.
Proof. intros H. run. by rewrite H. Qed.

(** X10.  Whole lines appended to the log are handled one per read, in
    the order of the file, each with its line feed, and the reader ends
    behind the last of them. *)
Theorem lines_handled_in_order (c : Config) (lines : list string) :
  ∀ (base : string) (reads rest : list ReadEnv) (w : World),
    Forall (fun l => indexLF l = None) lines →
    length reads = length lines →
    Forall (fun r => log_file r = base +:+ lf_lines_of lines) reads →
    tailLoop c (String.length base) (reads ++ rest) w
    = (dispatchAll c reads lines;;
       tailLoop c (String.length (base +:+ lf_lines_of lines)) rest) w.
Proof.
  induction lines as [|l lines IH]; intros base reads rest w Hlf Hlen Hfile.
  - destruct reads; [|done]. simpl. run. by rewrite append_nil_r.
  - destruct reads as [|r reads]; [done|].
    apply Forall_cons in Hlf as [Hl Hlf].
    apply Forall_cons in Hfile as [Hr Hfile].
    change (lf_lines_of (l :: lines))
      with (l +:+ newline +:+ lf_lines_of lines) in *.
    rewrite <- app_comm_cons.
    rewrite (tailLoop_line c _ _ _ _ _ _
               (ReadString_whole base l (lf_lines_of lines) r Hr Hl)).
    assert (Hbase : base +:+ l +:+ newline +:+ lf_lines_of lines
                    = (base +:+ l +:+ newline) +:+ lf_lines_of lines).
    { by rewrite !append_assoc. }
    cbn [dispatchAll].
    destruct (dispatch c r (l +:+ newline) w) as [[] w1|h w1] eqn:Hd.
    + rewrite (bind_Done _ _ _ _ _ Hd).
      rewrite (IH (base +:+ l +:+ newline) reads rest w1 Hlf).
      * rewrite <- Hbase. run. by rewrite Hd.
      * by injection Hlen.
      * eapply Forall_impl; [exact Hfile|]. intros r' ->. exact Hbase.
    + rewrite (bind_Halted _ _ _ _ _ Hd). run. by rewrite Hd.
Qed.

Lemma lines_handled_in_order_witness :
  tailLoop Scenario.cfg 0
    [Appended.read (1 * Second); Appended.read (2 * Second)]
    (world Scenario.fresh)
  = (dispatchAll Scenario.cfg
       [Appended.read (1 * Second); Appended.read (2 * Second)]
       [Appended.line1; Appended.line2];;
     tailLoop Scenario.cfg
       (String.length (lf_lines_of [Appended.line1; Appended.line2])) [])
      (world Scenario.fresh).
Proof.
  apply (lines_handled_in_order Scenario.cfg
           [Appended.line1; Appended.line2] ""
           [Appended.read (1 * Second); Appended.read (2 * Second)] []
           (world Scenario.fresh)).
  - repeat constructor.
  - reflexivity.
  - repeat constructor.
Defined.

(** ** How long a ban lasts *)

Lemma banDuration_exact c :
  (0 < BanDurationHours c <= max_ban_hours)%Z →
  banDuration c = (BanDurationHours c * Hour)%Z ∧ (0 < banDuration c)%Z.
Proof.
  unfold max_ban_hours, banDuration, Hour. intros H.
  rewrite wrap64_id; [lia|].
  unfold GoInt.in_range, GoInt.min_int, GoInt.max_int. lia.
Qed.

Lemma banDuration_wrapped c :
  (max_ban_hours < BanDurationHours c <= 2 * max_ban_hours + 1)%Z →
  banDuration c = (BanDurationHours c * Hour - 2 ^ 64)%Z ∧
  (banDuration c < 0)%Z.
Proof.
  unfold max_ban_hours, banDuration, Hour, GoInt.wrap64. intros H.
  replace (BanDurationHours c * 3600000000000 + 2 ^ 63)%Z
    with ((BanDurationHours c * 3600000000000 - 2 ^ 63) + 1 * 2 ^ 64)%Z
    by lia.
  rewrite Z_mod_plus_full, Z.mod_small; lia.
Qed.

(** X11.  With a ban duration of 1 to 2562047 hours, the expiry a ban
    transition records is that many hours after the clock reading of
    [banIP], and from the transition on [isIPBanned] answers true for
    the address at every time before that expiry, whether the handler
    returned or not. *)
Theorem ban_holds_until_expiry (c : Config) (e : FailEnv) (ip : string)
    (w : World) :
  (0 < BanDurationHours c <= max_ban_hours)%Z →
  ban_transition c e ip w →
  let w' := world_of (handleFailedLogin c e ip w) in
  bannedIPs w' !! ip = Some (now_ban e + BanDurationHours c * Hour)%Z ∧
  (now_ban e < now_ban e + BanDurationHours c * Hour)%Z ∧
  ∀ now, (now < now_ban e + BanDurationHours c * Hour)%Z →
         isIPBanned now ip w' = Done true w'.
Proof.
  intros Hh (Hmu & Hban & Hge). cbv zeta.
  destruct (banDuration_exact c Hh) as [Hd Hpos].
  destruct (handleFailedLogin_active c e ip w Hmu Hban) as [_ Hb].
  rewrite (proj2 (Z.leb_le _ _) Hge) in Hb.
  assert (Hrec : bannedIPs (world_of (handleFailedLogin c e ip w)) !! ip
                 = Some (now_ban e + BanDurationHours c * Hour)%Z).
  { rewrite Hb, lookup_insert_eq. unfold ban_expiry. by rewrite Hd. }
  split; [done|]. split; [lia|].
  intros now Hnow. rewrite isIPBanned_spec.
  assert (Hat : banned_at now ip (world_of (handleFailedLogin c e ip w))
                = true).
  { unfold banned_at. rewrite Hrec. by apply Before_true. }
  by rewrite Hat, expired_banned.
Qed.

(** X12.  A ban duration of 2562048 to 5124095 hours overflows
    [time.Duration]: the duration is negative, the expiry recorded by a
    ban transition lies before the clock reading of [banIP], and
    [isIPBanned], asked at that reading or later, answers false and
    removes the record.  Such a ban never holds. *)
Theorem long_ban_never_holds (c : Config) (e : FailEnv) (ip : string)
    (w : World) :
  (max_ban_hours < BanDurationHours c <= 2 * max_ban_hours + 1)%Z →
  ban_transition c e ip w →
  let w' := world_of (handleFailedLogin c e ip w) in
  (banDuration c < 0)%Z ∧
  bannedIPs w' !! ip
    = Some (now_ban e + (BanDurationHours c * Hour - 2 ^ 64))%Z ∧
  ∀ now, (now_ban e <= now)%Z →
         isIPBanned now ip w' = Done false (forget ip w').
Proof.
  intros Hh (Hmu & Hban & Hge). cbv zeta.
  destruct (banDuration_wrapped c Hh) as [Hd Hneg].
  destruct (handleFailedLogin_active c e ip w Hmu Hban) as [_ Hb].
  rewrite (proj2 (Z.leb_le _ _) Hge) in Hb.
  assert (Hrec : bannedIPs (world_of (handleFailedLogin c e ip w)) !! ip
                 = Some (now_ban e + (BanDurationHours c * Hour - 2 ^ 64))%Z).
  { rewrite Hb, lookup_insert_eq. unfold ban_expiry. by rewrite Hd. }
  split; [done|]. split; [done|].
  intros now Hnow. rewrite isIPBanned_spec.
  unfold banned_at, expired. rewrite Hrec.
  rewrite (proj2 (Before_false _ _)); [done|].
  rewrite <- Hd. lia.
Qed.

Lemma ban_holds_until_expiry_witness :
  let w2 := world (sys_run Scenario.cfg (take 2 Scenario.three_failures)
                     Scenario.fresh) in
  let w' := world_of (handleFailedLogin Scenario.cfg
                        (Scenario.ufw_down (3 * Second))
                        Scenario.attacker w2) in
  bannedIPs w' !! Scenario.attacker = Some (3 * Second + 24 * Hour)%Z.
Proof.
  intros w2 w'.
  apply (ban_holds_until_expiry Scenario.cfg (Scenario.ufw_down (3 * Second))
           Scenario.attacker w2).
  - unfold max_ban_hours. simpl. lia.
  - by vm_compute.
Defined.

Lemma long_ban_never_holds_witness :
  (banDuration LongBan.cfg < 0)%Z.
Proof.
  apply (long_ban_never_holds LongBan.cfg (Scenario.ufw_down (1 * Second))
           Scenario.attacker (world Scenario.fresh)).
  - unfold max_ban_hours. simpl. lia.
  - by vm_compute.
Defined.

(** ** The extractor *)

Lemma digits_spec s d r :
  digits s = (d, r) →
  s = d +:+ r ∧ chars_ok is_digit d = true ∧ no_digit_ahead r = true.
Proof.
  revert d r. induction s as [|c s IH]; intros d r H; simpl in H.
  - by injection H as <- <-.
  - destruct (is_digit c) eqn:Hc.
    + destruct (digits s) as [d' r'] eqn:Hd. injection H as <- <-.
      destruct (IH d' r' eq_refl) as (-> & Hok & Hnext).
      rewrite append_cons. simpl. by rewrite Hc.
    + injection H as <- <-. simpl. by rewrite Hc.
Qed.

Lemma digits1_spec s d r :
  digits1 s = Some (d, r) →
  s = d +:+ r ∧ is_number d = true ∧ no_digit_ahead r = true.
Proof.
  unfold digits1, is_number. destruct (digits s) as [d' r'] eqn:Hd.
  destruct (String.eqb d' "") eqn:He; [done|]. intros [= <- <-].
  destruct (digits_spec s d' r' Hd) as (? & ? & ?).
  by rewrite He.
Qed.

Lemma dot_spec s r : dot s = Some r → s = "." +:+ r.
Proof.
  destruct s as [|c s]; [done|]. simpl.
  destruct (Ascii.eqb c ".") eqn:Hc; [|done].
  apply Ascii.eqb_eq in Hc as ->. by intros [= ->].
Qed.

(** What [quad] matches at the head of a string. *)
Lemma quad_spec s ip :
  quad s = Some ip →
  ∃ a b c d post,
    ip = a +:+ "." +:+ b +:+ "." +:+ c +:+ "." +:+ d ∧
    s = ip +:+ post ∧
    is_number a = true ∧ is_number b = true ∧
    is_number c = true ∧ is_number d = true ∧
    no_digit_ahead post = true.
Proof.
  unfold quad. intros H.
  destruct (digits1 s) as [[a r1]|] eqn:Ha; [|done]. simpl in H.
  destruct (dot r1) as [r2|] eqn:H1; [|done]. simpl in H.
  destruct (digits1 r2) as [[b r3]|] eqn:Hb; [|done]. simpl in H.
  destruct (dot r3) as [r4|] eqn:H2; [|done]. simpl in H.
  destruct (digits1 r4) as [[c r5]|] eqn:Hc; [|done]. simpl in H.
  destruct (dot r5) as [r6|] eqn:H3; [|done]. simpl in H.
  destruct (digits1 r6) as [[d r7]|] eqn:Hd; [|done]. simpl in H.
  injection H as <-.
  apply digits1_spec in Ha as (-> & Hna & _).
  apply dot_spec in H1 as ->.
  apply digits1_spec in Hb as (-> & Hnb & _).
  apply dot_spec in H2 as ->.
  apply digits1_spec in Hc as (-> & Hnc & _).
  apply dot_spec in H3 as ->.
  apply digits1_spec in Hd as (-> & Hnd & Hpost).
  exists a, b, c, d, r7. repeat split; try done.
  by rewrite !append_assoc.
Qed.

Lemma prefix_split (p : string) : ∀ s,
  String.prefix p s = true →
  s = p +:+ substring (String.length p)
                      (String.length s - String.length p) s.
Proof.
  induction p as [|a p IH]; intros s H.
  - rewrite append_nil_l. simpl. by rewrite Nat.sub_0_r, substring_all.
  - destruct s as [|b s]; [done|]. simpl in H.
    destruct (ascii_dec a b) as [<-|]; [|done].
    rewrite append_cons. simpl. by rewrite <- (IH s H).
Qed.

Lemma prefix_from s :
  String.prefix "from " s = true →
  s = "from " +:+ substring 5 (String.length s - 5) s.
Proof. apply (prefix_split "from "). Qed.

Lemma afterFrom_spec s ip :
  afterFrom s = Some ip →
  ∃ a b c d post,
    ip = a +:+ "." +:+ b +:+ "." +:+ c +:+ "." +:+ d ∧
    s = "from " +:+ ip +:+ post ∧
    is_number a = true ∧ is_number b = true ∧
    is_number c = true ∧ is_number d = true ∧
    no_digit_ahead post = true.
Proof.
  unfold afterFrom. destruct (String.prefix "from " s) eqn:Hp; [|done].
  intros Hq. apply prefix_from in Hp.
  destruct (quad_spec _ _ Hq) as (a & b & c & d & post & Hip & Hs & Hn).
  exists a, b, c, d, post. split; [done|]. split; [|done].
  rewrite Hp at 1. by rewrite Hs.
Qed.

(** Where [findAddress] finds its match: at the leftmost position
    where "from " and a dotted quad follow. *)
Lemma findAddress_spec s : ∀ ip,
  findAddress s = Some ip →
  ∃ pre rest,
    s = pre +:+ rest ∧ afterFrom rest = Some ip ∧
    ∀ pre1 pre2, pre = pre1 +:+ pre2 → pre2 ≠ "" →
                 afterFrom (pre2 +:+ rest) = None.
Proof.
  induction s as [|x s IH]; intros ip H.
  - by vm_compute in H.
  - cbn [findAddress] in H.
    destruct (afterFrom (String x s)) as [ip'|] eqn:Ha.
    + injection H as <-. exists "", (String x s).
      split; [done|]. split; [done|].
      intros pre1 pre2 Hpre Hne. destruct pre1; destruct pre2; done.
    + destruct (IH ip H) as (pre & rest & -> & Hrest & Hleft).
      exists (String x pre), rest. split; [done|]. split; [done|].
      intros pre1 pre2 Hpre Hne.
      destruct pre1 as [|y pre1].
      * rewrite append_nil_l in Hpre. subst pre2. by rewrite append_cons.
      * rewrite append_cons in Hpre. injection Hpre as -> Hpre.
        by apply (Hleft pre1 pre2).
Qed.

Lemma chars_ok_app P (a b : string) :
  chars_ok P (a +:+ b) = chars_ok P a && chars_ok P b.
Proof.
  induction a as [|x a IH]; [done|].
  rewrite append_cons. simpl. by rewrite IH, andb_assoc.
Qed.

Lemma chars_ok_impl (P Q : ascii → bool) s :
  (∀ c, P c = true → Q c = true) →
  chars_ok P s = true → chars_ok Q s = true.
Proof.
  intros HPQ. induction s as [|x s IH]; [done|]. simpl.
  intros [Hx Hs]%andb_prop. by rewrite (HPQ x Hx), (IH Hs).
Qed.

Lemma chars_ok_indexLF P s :
  P LF = false → chars_ok P s = true → indexLF s = None.
Proof.
  intros HP. induction s as [|x s IH]; [done|]. simpl.
  intros [Hx Hs]%andb_prop.
  destruct (Ascii.eqb x LF) eqn:Hlf.
  - apply Ascii.eqb_eq in Hlf as ->. congruence.
  - by rewrite (IH Hs).
Qed.

Lemma chars_ok_dropCR P s :
  P CR = false → chars_ok P s = true → dropCR s = s.
Proof.
  intros HP. induction s as [|x s IH]; [done|].
  intros [Hx Hs]%andb_prop. destruct s as [|y s].
  - simpl. destruct (Ascii.eqb x CR) eqn:Hcr; [|done].
    apply Ascii.eqb_eq in Hcr as ->. congruence.
  - change (dropCR (String x (String y s)))
      with (String x (dropCR (String y s))).
    by rewrite (IH Hs).
Qed.

Lemma is_number_plain s : is_number s = true → chars_ok is_plain s = true.
Proof.
  unfold is_number. intros [_ H]%andb_prop.
  eapply chars_ok_impl; [|exact H].
  intros c Hc. unfold is_plain. by rewrite Hc.
Qed.

Lemma is_number_nonempty s : is_number s = true → s ≠ "".
Proof.
  unfold is_number. intros [H _]%andb_prop.
  by apply negb_true_iff, String.eqb_neq in H.
Qed.

(** A dotted quad is made of digits and dots. *)
Lemma quad_plain a b c d :
  is_number a = true → is_number b = true →
  is_number c = true → is_number d = true →
  chars_ok is_plain (a +:+ "." +:+ b +:+ "." +:+ c +:+ "." +:+ d) = true ∧
  a +:+ "." +:+ b +:+ "." +:+ c +:+ "." +:+ d ≠ "".
Proof.
  intros Ha Hb Hc Hd. split.
  - rewrite !chars_ok_app.
    rewrite (is_number_plain a Ha), (is_number_plain b Hb),
      (is_number_plain c Hc), (is_number_plain d Hd). done.
  - apply is_number_nonempty in Ha. by destruct a.
Qed.

Lemma extract_findAddress line ev :
  extract line = Some ev →
  findAddress line = Some (address_of ev) ∧
  (Contains line "Failed password" = true ∧
     ev = FailedLogin (address_of ev) ∨
   Contains line "Failed password" = false ∧
     Contains line "Accepted password" = true ∧
     ev = SuccessfulLogin (address_of ev)).
Proof.
  unfold extract.
  destruct (Contains line "Failed password").
  - destruct (findAddress line) as [ip|]; [|done].
    intros [= <-]. split; [done|]. by left.
  - destruct (Contains line "Accepted password"); [|done].
    destruct (findAddress line) as [ip|]; [|done].
    intros [= <-]. split; [done|]. by right.
Qed.

(** X13.  Every event the extractor produces carries four non-empty
    runs of decimal digits joined by dots and nothing else: the address
    is never empty and holds no line feed and no carriage return, so
    that, short of the scanner's line limit, it survives the blacklist
    file.  A line with the failure marker is a failure event even when
    it holds the success marker too. *)
Theorem extracted_address_shape (line : string) (ev : Event) :
  extract line = Some ev →
  (∃ a b c d,
     address_of ev = a +:+ "." +:+ b +:+ "." +:+ c +:+ "." +:+ d ∧
     is_number a = true ∧ is_number b = true ∧
     is_number c = true ∧ is_number d = true) ∧
  chars_ok is_plain (address_of ev) = true ∧
  (fits (address_of ev) = true → well_formed (address_of ev) = true) ∧
  (Contains line "Failed password" = true →
     ev = FailedLogin (address_of ev)) ∧
  (ev = SuccessfulLogin (address_of ev) →
     Contains line "Failed password" = false ∧
     Contains line "Accepted password" = true).
Proof.
  intros Hev. destruct (extract_findAddress line ev Hev) as [Hfind Hmark].
  destruct (findAddress_spec line _ Hfind) as (pre & rest & _ & Hafter & _).
  destruct (afterFrom_spec rest _ Hafter)
    as (a & b & c & d & post & Hip & _ & Ha & Hb & Hc & Hd & _).
  destruct (quad_plain a b c d Ha Hb Hc Hd) as [Hplain Hne].
  rewrite <- Hip in Hplain, Hne.
  split; [by exists a, b, c, d|]. split; [done|]. split; [|split].
  - intros Hfit. unfold well_formed. rewrite Hfit.
    rewrite (proj2 (String.eqb_neq _ _) Hne).
    rewrite (chars_ok_indexLF is_plain _ eq_refl Hplain).
    rewrite (chars_ok_dropCR is_plain _ eq_refl Hplain).
    by rewrite String.eqb_refl.
  - intros Hf. destruct Hmark as [[_ ?]|[? _]]; [done|congruence].
  - intros Hs. destruct Hmark as [[_ Hfl]|[? [? _]]]; [|done].
    rewrite Hfl in Hs. by destruct ev.
Qed.

(** X14.  The address of an event is read from the line itself: it
    stands right after the leftmost "from " that is followed by a
    dotted quad, and it is that quad in full - no digit follows it.  An
    earlier "from <quad>" in the line, such as one inside a user name,
    is the one that is taken. *)
Theorem extracted_address_leftmost (line : string) (ev : Event) :
  extract line = Some ev →
  ∃ pre post,
    line = pre +:+ "from " +:+ address_of ev +:+ post ∧
    no_digit_ahead post = true ∧
    ∀ pre1 pre2, pre = pre1 +:+ pre2 → pre2 ≠ "" →
      afterFrom (pre2 +:+ "from " +:+ address_of ev +:+ post) = None.
Proof.
  intros Hev. destruct (extract_findAddress line ev Hev) as [Hfind _].
  destruct (findAddress_spec line _ Hfind)
    as (pre & rest & Hline & Hafter & Hleft).
  destruct (afterFrom_spec rest _ Hafter)
    as (a & b & c & d & post & _ & Hrest & _ & _ & _ & _ & Hpost).
  exists pre, post. subst rest. split; [done|]. split; [done|].
  exact Hleft.
Qed.

Lemma extracted_address_shape_witness :
  chars_ok is_plain "10.0.0.1" = true.
Proof.
  assert (H : extract (Appended.line1 +:+ newline)
               = Some (FailedLogin "10.0.0.1")) by (by vm_compute).
  exact (proj1 (proj2 (extracted_address_shape _ _ H))).
Defined.

Lemma extracted_address_leftmost_witness :
  ∃ pre post,
    Injected.line = pre +:+ "from " +:+ "192.0.2.7" +:+ post ∧
    no_digit_ahead post = true.
Proof.
  destruct (extracted_address_leftmost Injected.line
              (FailedLogin "192.0.2.7"))
    as (pre & post & Hline & Hpost & _).
  - by vm_compute.
  - exact (ex_intro _ pre (ex_intro _ post (conj Hline Hpost))).
Defined.

(** ** The geolocation client *)

Section ClientFacts.
Import IPInfo.


Lemma rounds_spec c ip resp fuel i lastErr opened :
  (0 <= i <= retryCount c)%Z →
  (retryCount c <= GoInt.max_int)%Z →
  fuel = Z.to_nat (retryCount c - i + 1) →
  ∃ n : nat,
    (i + Z.of_nat n <= retryCount c)%Z ∧
    (∀ j : nat, (j < n)%nat → failed (resp (i + Z.of_nat j)%Z) = true) ∧
    (failed (resp (i + Z.of_nat n)%Z) = true →
       (i + Z.of_nat n)%Z = retryCount c) ∧
    rounds c (url_of c ip) resp fuel i lastErr opened =
      Some (retried c ip n ++
            HttpGet (url_of c ip) ::
            repeat CloseBody (opened + bodies resp i (S n)),
            verdict (resp (i + Z.of_nat n)%Z)).
Proof.
  revert i lastErr opened.
  induction fuel as [|fuel IH]; intros i lastErr opened Hi Hmax Hfuel.
  - lia.
  - assert (Hle : (i <=? retryCount c)%Z = true) by (apply Z.leb_le; lia).
    cbn [rounds]. rewrite Hle.
    destruct (resp i) as [err|err|info] eqn:Hr.
    + destruct (i <? retryCount c)%Z eqn:Hlt.
      * apply Z.ltb_lt in Hlt.
        assert (Hw : GoInt.wrap64 (i + 1) = (i + 1)%Z).
        { apply wrap64_id. unfold GoInt.in_range, GoInt.min_int, GoInt.max_int in *. lia. }
        rewrite Hw.
        destruct (IH (i + 1)%Z (Some err) opened) as (n & Hn & Hall & Hlast & Heq);
          [lia | exact Hmax | lia |].
        exists (S n). split; [lia|]. split; [|split].
        -- intros [|j] Hj.
           ++ rewrite Z.add_0_r, Hr. reflexivity.
           ++ replace (i + Z.of_nat (S j))%Z with (i + 1 + Z.of_nat j)%Z by lia.
              apply Hall. lia.
        -- replace (i + Z.of_nat (S n))%Z with (i + 1 + Z.of_nat n)%Z by lia.
           intros H. specialize (Hlast H). lia.
        -- rewrite Heq.
           replace (i + Z.of_nat (S n))%Z with (i + 1 + Z.of_nat n)%Z by lia.
           change (bodies resp i (S (S n)))
             with ((if answered (resp i) then 1 else 0)
                   + bodies resp (i + 1) (S n))%nat.
           rewrite Hr. cbn [answered retried app].
           replace (opened + (0 + bodies resp (i + 1) (S n)))%nat
             with (opened + bodies resp (i + 1) (S n))%nat by lia.
           reflexivity.
      * apply Z.ltb_ge in Hlt.
        exists O. rewrite Z.add_0_r, Hr. split; [lia|]. split; [|split].
        -- intros j Hj. lia.
        -- intros _. lia.
        -- cbn [retried app bodies verdict]. rewrite Hr. cbn [answered].
           do 4 f_equal. lia.
    + destruct (i <? retryCount c)%Z eqn:Hlt.
      * apply Z.ltb_lt in Hlt.
        assert (Hw : GoInt.wrap64 (i + 1) = (i + 1)%Z).
        { apply wrap64_id. unfold GoInt.in_range, GoInt.min_int, GoInt.max_int in *. lia. }
        rewrite Hw.
        destruct (IH (i + 1)%Z (Some err) (S opened)) as (n & Hn & Hall & Hlast & Heq);
          [lia | exact Hmax | lia |].
        exists (S n). split; [lia|]. split; [|split].
        -- intros [|j] Hj.
           ++ rewrite Z.add_0_r, Hr. reflexivity.
           ++ replace (i + Z.of_nat (S j))%Z with (i + 1 + Z.of_nat j)%Z by lia.
              apply Hall. lia.
        -- replace (i + Z.of_nat (S n))%Z with (i + 1 + Z.of_nat n)%Z by lia.
           intros H. specialize (Hlast H). lia.
        -- rewrite Heq.
           replace (i + Z.of_nat (S n))%Z with (i + 1 + Z.of_nat n)%Z by lia.
           change (bodies resp i (S (S n)))
             with ((if answered (resp i) then 1 else 0)
                   + bodies resp (i + 1) (S n))%nat.
           rewrite Hr. cbn [answered retried app].
           replace (opened + (1 + bodies resp (i + 1) (S n)))%nat
             with (S opened + bodies resp (i + 1) (S n))%nat by lia.
           reflexivity.
      * apply Z.ltb_ge in Hlt.
        exists O. rewrite Z.add_0_r, Hr. split; [lia|]. split; [|split].
        -- intros j Hj. lia.
        -- intros _. lia.
        -- cbn [retried app bodies verdict]. rewrite Hr. cbn [answered].
           do 4 f_equal. lia.
    + exists O. rewrite Z.add_0_r, Hr. split; [lia|]. split; [|split].
      * intros j Hj. lia.
      * cbn [failed]. discriminate.
      * cbn [retried app bodies verdict]. rewrite Hr. cbn [answered].
        do 4 f_equal. lia.
Qed.

Lemma gets_retried c ip n rest :
  gets (retried c ip n ++ rest) = (n + gets rest)%nat.
Proof.
  induction n as [|n IH]; [reflexivity|].
  unfold gets in *. cbn [retried app List.filter is_get length].
  rewrite IH. reflexivity.
Qed.

Lemma naps_retried c ip n rest :
  naps (retried c ip n ++ rest) = (n + naps rest)%nat.
Proof.
  induction n as [|n IH]; [reflexivity|].
  unfold naps in *. cbn [retried app List.filter is_nap length].
  rewrite IH. reflexivity.
Qed.

Lemma gets_closes k : gets (repeat CloseBody k) = 0%nat.
Proof. induction k as [|k IH]; [reflexivity|exact IH]. Qed.

Lemma naps_closes k : naps (repeat CloseBody k) = 0%nat.
Proof. induction k as [|k IH]; [reflexivity|exact IH]. Qed.

Lemma GetIPInfo_outcome c resp ip :
  (0 <= retryCount c <= GoInt.max_int)%Z →
  ∃ n : nat,
    (Z.of_nat n <= retryCount c)%Z ∧
    (∀ j : nat, (j < n)%nat → failed (resp (Z.of_nat j)) = true) ∧
    (failed (resp (Z.of_nat n)) = true → Z.of_nat n = retryCount c) ∧
    GetIPInfo c resp ip =
      Some (retried c ip n ++
            HttpGet (url_of c ip) ::
            repeat CloseBody (bodies resp 0 (S n)),
            verdict (resp (Z.of_nat n))).
Proof.
  intros Hc.
  destruct (rounds_spec c ip resp (Z.to_nat (retryCount c + 1)) 0 None 0)
    as (n & Hn & Hall & Hlast & Heq); [lia | lia | f_equal; lia |].
  exists n. split; [lia|]. split; [|split].
  - intros j Hj. exact (Hall j Hj).
  - exact Hlast.
  - exact Heq.
Qed.

Lemma GetIPInfo_idle c resp ip :
  (retryCount c < 0)%Z →
  GetIPInfo c resp ip = Some ([], inr (FetchFailed None)).
Proof.
  intros Hc. unfold GetIPInfo.
  replace (Z.to_nat (retryCount c + 1)) with O by lia.
  cbn [rounds].
  assert (H : (0 <=? retryCount c)%Z = false) by (apply Z.leb_gt; exact Hc).
  rewrite H. reflexivity.
Qed.

(** X15.  With a retry count of zero or more, [GetIPInfo] returns after
    [n + 1] requests to the one address built from the client and the
    queried address, for some [n] up to the retry count: the first [n]
    requests failed (in the transport or in the decoder) and each was
    followed by one pause of the retry interval; no pause follows the
    last request; the bodies opened are closed on return only.  The
    caller is handed the outcome of the last request alone: the first
    answer that decodes, or, when all [retryCount + 1] requests failed,
    the error of the last of them. *)
Theorem GetIPInfo_retries (c : Client) (resp : Z → Response) (ip : string) :
  (0 <= retryCount c <= GoInt.max_int)%Z →
  ∃ n : nat,
    (Z.of_nat n <= retryCount c)%Z ∧
    (∀ j : nat, (j < n)%nat → failed (resp (Z.of_nat j)) = true) ∧
    (failed (resp (Z.of_nat n)) = true → Z.of_nat n = retryCount c) ∧
    GetIPInfo c resp ip =
      Some (retried c ip n ++
            HttpGet (url_of c ip) ::
            repeat CloseBody (bodies resp 0 (S n)),
            verdict (resp (Z.of_nat n))).
Proof. exact (GetIPInfo_outcome c resp ip). Qed.

Lemma GetIPInfo_retries_witness :
  (0 <= retryCount Lookup.client <= GoInt.max_int)%Z ∧
  ∃ n : nat,
    (Z.of_nat n <= retryCount Lookup.client)%Z ∧
    (∀ j : nat, (j < n)%nat → failed (Lookup.flaky (Z.of_nat j)) = true) ∧
    (failed (Lookup.flaky (Z.of_nat n)) = true →
       Z.of_nat n = retryCount Lookup.client) ∧
    GetIPInfo Lookup.client Lookup.flaky "10.0.0.1" =
      Some (retried Lookup.client "10.0.0.1" n ++
            HttpGet (url_of Lookup.client "10.0.0.1") ::
            repeat CloseBody (bodies Lookup.flaky 0 (S n)),
            verdict (Lookup.flaky (Z.of_nat n))).
Proof.
  assert (H : (0 <= retryCount Lookup.client <= GoInt.max_int)%Z)
    by (vm_compute; split; discriminate).
  split; [exact H|].
  exact (GetIPInfo_retries Lookup.client Lookup.flaky "10.0.0.1" H).
Defined.

(** The flaky service is asked three times, with two pauses of one
    second, and the two bodies received are closed at the end. *)
Example flaky_lookup :
  GetIPInfo Lookup.client Lookup.flaky "10.0.0.1" =
    Some ([HttpGet "https://ipapi.co/10.0.0.1?lang=zh"; Nap Second;
           HttpGet "https://ipapi.co/10.0.0.1?lang=zh"; Nap Second;
           HttpGet "https://ipapi.co/10.0.0.1?lang=zh";
           CloseBody; CloseBody],
          inl Lookup.beijing).
Proof. vm_compute. reflexivity. Qed.

(** The service being down, the shipped client asks four times and
    pauses three times. *)
Example down_lookup :
  GetIPInfo Lookup.client Lookup.down "10.0.0.1" =
    Some ([HttpGet "https://ipapi.co/10.0.0.1?lang=zh"; Nap Second;
           HttpGet "https://ipapi.co/10.0.0.1?lang=zh"; Nap Second;
           HttpGet "https://ipapi.co/10.0.0.1?lang=zh"; Nap Second;
           HttpGet "https://ipapi.co/10.0.0.1?lang=zh"],
          inr (FetchFailed (Some (Errorf "connection refused")))).
Proof. vm_compute. reflexivity. Qed.

Lemma prefix_append s t : String.prefix s (s +:+ t) = true.
Proof.
  induction s as [|a s IH]; [destruct t; reflexivity|].
  rewrite append_cons. cbn [String.prefix].
  destruct (ascii_dec a a) as [_|Hne]; [exact IH|congruence].
Qed.

(** X16.  [FormatIPInfo] always returns a text, whatever the client and
    the service do: the text starts with "IP: " and the queried address,
    and a failed lookup of any kind gives the same placeholder text.  It
    returns after at most [retryCount + 1] requests and one pause fewer
    than requests (none without a request); a text other than the
    placeholder is made of an answer that one of the requests
    received. *)
Theorem FormatIPInfo_answers (c : Client) (resp : Z → Response)
    (ip : string) :
  GoInt.in_range (retryCount c) →
  ∃ calls text,
    FormatIPInfo c resp ip = Some (calls, text) ∧
    String.prefix ("IP: " +:+ ip) text = true ∧
    (gets calls <= Z.to_nat (retryCount c + 1))%nat ∧
    naps calls = pred (gets calls) ∧
    (text = unknown_origin ip ∨
     ∃ (j : nat) info,
       (j < gets calls)%nat ∧ resp (Z.of_nat j) = Decoded info ∧
       text = origin ip info).
Proof.
  intros [Hlo Hhi].
  destruct (Z_lt_le_dec (retryCount c) 0) as [Hneg|Hpos].
  - unfold FormatIPInfo. rewrite (GetIPInfo_idle c resp ip Hneg).
    exists [], (unknown_origin ip). split; [reflexivity|].
    split; [|split; [|split]].
    + unfold unknown_origin. rewrite <- (append_assoc "IP: " ip). apply prefix_append.
    + cbn. lia.
    + reflexivity.
    + left. reflexivity.
  - destruct (GetIPInfo_outcome c resp ip) as (n & Hn & Hall & Hlast & Heq);
      [lia|].
    unfold FormatIPInfo. rewrite Heq.
    assert (Hg : gets (retried c ip n ++ HttpGet (url_of c ip) ::
                       repeat CloseBody (bodies resp 0 (S n))) = S n).
    { rewrite gets_retried. unfold gets. cbn [List.filter is_get length].
      fold (gets (repeat CloseBody (bodies resp 0 (S n)))).
      rewrite gets_closes. lia. }
    assert (Hp : naps (retried c ip n ++ HttpGet (url_of c ip) ::
                       repeat CloseBody (bodies resp 0 (S n))) = n).
    { rewrite naps_retried. unfold naps. cbn [List.filter is_nap length].
      fold (naps (repeat CloseBody (bodies resp 0 (S n)))).
      rewrite naps_closes. lia. }
    destruct (resp (Z.of_nat n)) as [err|err|info] eqn:Hr; cbn [verdict].
    + eexists _, _. split; [reflexivity|]. rewrite Hg, Hp.
      split; [|split; [|split]].
      * unfold unknown_origin. rewrite <- (append_assoc "IP: " ip). apply prefix_append.
      * lia.
      * reflexivity.
      * left. reflexivity.
    + eexists _, _. split; [reflexivity|]. rewrite Hg, Hp.
      split; [|split; [|split]].
      * unfold unknown_origin. rewrite <- (append_assoc "IP: " ip). apply prefix_append.
      * lia.
      * reflexivity.
      * left. reflexivity.
    + eexists _, _. split; [reflexivity|]. rewrite Hg, Hp.
      split; [|split; [|split]].
      * unfold origin. rewrite <- (append_assoc "IP: " ip). apply prefix_append.
      * lia.
      * reflexivity.
      * right. exists n, info. split; [lia|]. split; [exact Hr|reflexivity].
Qed.

Lemma FormatIPInfo_answers_witness :
  GoInt.in_range (retryCount Lookup.client) ∧
  ∃ calls text,
    FormatIPInfo Lookup.client Lookup.down "10.0.0.1" = Some (calls, text) ∧
    String.prefix ("IP: " +:+ "10.0.0.1") text = true ∧
    (gets calls <= Z.to_nat (retryCount Lookup.client + 1))%nat ∧
    naps calls = pred (gets calls) ∧
    (text = unknown_origin "10.0.0.1" ∨
     ∃ (j : nat) info,
       (j < gets calls)%nat ∧ Lookup.down (Z.of_nat j) = Decoded info ∧
       text = origin "10.0.0.1" info).
Proof.
  assert (H : GoInt.in_range (retryCount Lookup.client))
    by (vm_compute; split; discriminate).
  split; [exact H|].
  exact (FormatIPInfo_answers Lookup.client Lookup.down "10.0.0.1" H).
Defined.

End ClientFacts.

(** ** The configuration file *)

Section ConfigFacts.
Import ConfigFile.

Lemma is_empty_true s : is_empty s = true ↔ s = "".
Proof. destruct s; cbn; split; intros H; try reflexivity; discriminate. Qed.

Lemma is_empty_false s : is_empty s = false ↔ s ≠ "".
Proof. destruct s; cbn; split; intros H; congruence. Qed.

Ltac checks :=
  repeat match goal with
  | H : (_ || _)%bool = true |- _ => apply orb_true_iff in H
  | H : (_ || _)%bool = false |- _ =>
      apply orb_false_iff in H; destruct H
  | H : is_empty _ = true |- _ => apply is_empty_true in H
  | H : is_empty _ = false |- _ => apply is_empty_false in H
  | H : String.eqb _ _ = true |- _ => apply String.eqb_eq in H
  | H : String.eqb _ _ = false |- _ => apply String.eqb_neq in H
  | H : (_ =? _)%Z = true |- _ => apply Z.eqb_eq in H
  | H : (_ =? _)%Z = false |- _ => apply Z.eqb_neq in H
  | H : (_ <=? _)%Z = true |- _ => apply Z.leb_le in H
  | H : (_ <=? _)%Z = false |- _ => apply Z.leb_gt in H
  end.

Lemma classic_fields c : fields_ok c ∨ ¬ fields_ok c.
Proof.
  unfold fields_ok.
  destruct (decide (BotToken (Telegram c) = "")) as [H1|H1]; [tauto|].
  destruct (decide (BotToken (Telegram c) = "your_bot_token")) as [H2|H2];
    [tauto|].
  destruct (decide (ChatID (Telegram c) = 0%Z)) as [H3|H3]; [tauto|].
  destruct (decide (ChatID (Telegram c) = 123456789%Z)) as [H4|H4]; [tauto|].
  destruct (decide (0 < MaxFailedAttempts (SSHProtection c))%Z) as [H5|H5];
    [|tauto].
  destruct (decide (0 < BanDurationHours (SSHProtection c))%Z) as [H6|H6];
    [|tauto].
  destruct (decide (SSHLogFile (SSHProtection c) = "")) as [H7|H7]; [tauto|].
  destruct (decide (File (Blacklist c) = "")) as [H8|H8]; [tauto|].
  destruct (decide (0 < CleanupIntervalHours (Blacklist c))%Z) as [H9|H9];
    [|tauto].
  destruct (decide (LogFile (Logging c) = "")) as [H10|H10]; [tauto|].
  destruct (decide (InstallPath (Service c) = "")) as [H11|H11]; [tauto|].
  destruct (decide (ServiceName (Service c) = "")) as [H12|H12]; [tauto|].
  destruct (decide (APIURL (IPInfo c) = "")) as [H13|H13]; [tauto|].
  left. repeat split; assumption.
Qed.

Lemma validateConfig_rejects h c :
  ¬ fields_ok c →
  ∃ err, validateConfig h c = ([], Some err).
Proof.
  intros Hno. unfold validateConfig.
  repeat match goal with
  | |- context [if ?b then _ else _] =>
      destruct b eqn:?; [eexists; reflexivity|]
  end.
  exfalso. apply Hno. checks. unfold fields_ok.
  repeat split; assumption.
Qed.

Lemma validateConfig_fields h c :
  fields_ok c →
  validateConfig h c =
    if String.eqb (GOOS h) "windows" then validateWindowsConfig h c
    else ([], None).
Proof.
  intros (H1 & H2 & H3 & H4 & H5 & H6 & H7 & H8 & H9 & H10 & H11 & H12 & H13).
  unfold validateConfig.
  apply is_empty_false in H1, H7, H8, H10, H11, H12, H13.
  apply String.eqb_neq in H2.
  apply Z.eqb_neq in H3, H4.
  apply Z.leb_gt in H5, H6, H9.
  rewrite H1, H2, H3, H4, H5, H6, H7, H8, H9, H10, H11, H12, H13.
  reflexivity.
Qed.

(** X17.  [validateConfig] returns nil exactly when the bot token and
    the chat id are set and are not the placeholders of the shipped file,
    the threshold, the ban duration and the cleanup interval are
    positive, and the two log paths, the blacklist path, the install
    path, the service name and the API address are not empty; on Windows
    also the ssh log path does not start with /var/ and both directories
    can be made.  Off Windows, and whenever a field check fails, it
    touches nothing.  A configuration it accepts gives the monitor a
    threshold and a ban duration of at least 1. *)
Theorem validateConfig_verdict (h : Host) (c : Config) :
  typed c →
  (snd (validateConfig h c) = None ↔
     fields_ok c ∧
     (GOOS h = "windows" →
        String.prefix "/var/" (SSHLogFile (SSHProtection c)) = false ∧
        mkdir_log h = None ∧ mkdir_blacklist h = None)) ∧
  (GOOS h ≠ "windows" ∨ ¬ fields_ok c → fst (validateConfig h c) = []) ∧
  (snd (validateConfig h c) = None → validConfig (monitor_config c)).
Proof.
  intros (Hmax & Hban & _).
  assert (Hiff : snd (validateConfig h c) = None ↔
     fields_ok c ∧
     (GOOS h = "windows" →
        String.prefix "/var/" (SSHLogFile (SSHProtection c)) = false ∧
        mkdir_log h = None ∧ mkdir_blacklist h = None)).
  { split.
    - intros Hok.
      destruct (classic_fields c) as [Hf|Hf].
      + split; [exact Hf|]. intros Hw.
        rewrite (validateConfig_fields h c Hf) in Hok.
        apply String.eqb_eq in Hw. rewrite Hw in Hok.
        unfold validateWindowsConfig in Hok.
        destruct (String.prefix "/var/" (SSHLogFile (SSHProtection c)));
          [discriminate|].
        destruct (mkdir_log h); [discriminate|].
        destruct (mkdir_blacklist h); [discriminate|].
        repeat split.
      + destruct (validateConfig_rejects h c Hf) as (err & Herr).
        rewrite Herr in Hok. discriminate.
    - intros (Hf & Hw). rewrite (validateConfig_fields h c Hf).
      destruct (String.eqb (GOOS h) "windows") eqn:Hos; [|reflexivity].
      apply String.eqb_eq in Hos. destruct (Hw Hos) as (Hp & Hl & Hb).
      unfold validateWindowsConfig. rewrite Hp, Hl, Hb. reflexivity. }
  split; [exact Hiff|]. split.
  - intros [Hos|Hf].
    + destruct (classic_fields c) as [Hf|Hf].
      * rewrite (validateConfig_fields h c Hf).
        apply String.eqb_neq in Hos. rewrite Hos. reflexivity.
      * destruct (validateConfig_rejects h c Hf) as (err & Herr).
        rewrite Herr. reflexivity.
    + destruct (validateConfig_rejects h c Hf) as (err & Herr).
      rewrite Herr. reflexivity.
  - intros Hok. apply Hiff in Hok.
    destruct Hok as ((_ & _ & _ & _ & H5 & H6 & _) & _).
    unfold validConfig, monitor_config. cbn.
    destruct Hmax as [_ Hmax]. destruct Hban as [_ Hban].
    split; split; assumption.
Qed.

Lemma validateConfig_verdict_witness :
  typed (with_credentials "7:token" 42 shipped) ∧
  validConfig (monitor_config (with_credentials "7:token" 42 shipped)).
Proof.
  assert (H : typed (with_credentials "7:token" 42 shipped))
    by (vm_compute; repeat split; discriminate).
  split; [exact H|].
  assert (Hok : snd (validateConfig linux
                       (with_credentials "7:token" 42 shipped)) = None)
    by (vm_compute; reflexivity).
  exact (proj2 (proj2 (validateConfig_verdict linux
                         (with_credentials "7:token" 42 shipped) H)) Hok).
Defined.

(** The configuration file shipped with the program is rejected for its
    placeholder bot token. *)
Example shipped_config_rejected :
  LoadConfig linux (Parsed shipped) = ([], inr BadBotToken).
Proof. vm_compute. reflexivity. Qed.

(** X18.  The retry count is not validated: a negative [retry_count]
    changes nothing in the verdict of [validateConfig], and with it the
    client that [NewMonitor] builds answers every [FormatIPInfo] with
    the placeholder text without a single request or pause. *)
Theorem retry_count_unchecked (h : Host) (c : Config) (n : Z)
    (resp : Z → IPInfo.Response) (ip : string) :
  (n < 0)%Z →
  validateConfig h (with_retries n c) = validateConfig h c ∧
  IPInfo.FormatIPInfo (monitor_client (with_retries n c)) resp ip =
    Some ([], IPInfo.unknown_origin ip).
Proof.
  intros Hn. split; [reflexivity|].
  unfold IPInfo.FormatIPInfo.
  rewrite (GetIPInfo_idle (monitor_client (with_retries n c)) resp ip Hn).
  reflexivity.
Qed.

Lemma retry_count_unchecked_witness :
  (-1 < 0)%Z ∧
  validateConfig linux
    (with_retries (-1) (with_credentials "7:token" 42 shipped)) = ([], None) ∧
  IPInfo.FormatIPInfo
    (monitor_client
       (with_retries (-1) (with_credentials "7:token" 42 shipped)))
    Lookup.flaky "10.0.0.1" = Some ([], IPInfo.unknown_origin "10.0.0.1").
Proof.
  assert (H : (-1 < 0)%Z) by lia.
  split; [exact H|].
  destruct (retry_count_unchecked linux
              (with_credentials "7:token" 42 shipped) (-1)
              Lookup.flaky "10.0.0.1" H) as [Hv Hf].
  split; [|exact Hf].
  rewrite Hv. vm_compute. reflexivity.
Defined.

End ConfigFacts.

(** ** Installation and start-up *)

Section SetupFacts.
Import Setup.

Ltac script :=
  unfold checkAndInstallTools, Install, runInstall, Enable, IsEnabled,
    installService, uninstallService, copyFile, warnIf, initLogger, step;
  unfold mbind, mret, Script_bind, Script_ret; cbn.

Ltac tools_cases st apt yum dnf upd ins ena leaf :=
  destruct st; [|leaf];
  destruct apt;
  [ destruct upd; [leaf|]; destruct ins; [leaf|]; destruct ena; leaf
  | destruct yum;
    [ destruct ins; [leaf|]; destruct ena; leaf
    | destruct dnf;
      [ destruct ins; [leaf|]; destruct ena; leaf
      | leaf ] ] ].

Ltac found :=
  rewrite ?elem_of_cons;
  first [ left; reflexivity
        | right; left; reflexivity
        | right; right; left; reflexivity
        | right; right; right; left; reflexivity
        | right; right; right; right; left; reflexivity
        | right; right; right; right; right; left; reflexivity
        | right; right; right; right; right; right; left; reflexivity ].

(** X19.  [checkAndInstallTools] runs nothing but [ufw status] when that
    command succeeds.  Otherwise it looks for apt-get, yum and dnf in
    this order and runs the install command of the first one found and
    of no other (after [apt-get update] for apt-get); [ufw enable] is
    run only after that install command has succeeded.  It returns nil
    exactly when [ufw status] succeeded, or a manager was found, did its
    work and [ufw enable] succeeded. *)
Theorem checkAndInstallTools_commands (e : ToolsEnv) :
  (ufw_status e = None →
     checkAndInstallTools e = ([Run ["ufw"; "status"]], None)) ∧
  (snd (checkAndInstallTools e) = None ↔
     ufw_status e = None ∨ (installable e ∧ ufw_enable e = None)) ∧
  (∀ m, install_with m ∈ fst (checkAndInstallTools e) →
     manager e = Some m ∧ ufw_status e ≠ None) ∧
  (Run ["ufw"; "enable"] ∈ fst (checkAndInstallTools e) →
     ∃ m, install_with m ∈ fst (checkAndInstallTools e) ∧
          pkg_install e = None).
Proof.
  destruct e as [st apt yum dnf upd ins ena].
  unfold installable, manager, install_with.
  cbn [ufw_status has_apt_get has_yum has_dnf apt_update pkg_install
       ufw_enable].
  split; [|split; [|split]].
  - intros ->. reflexivity.
  - tools_cases st apt yum dnf upd ins ena
      ltac:(script; split; intros H;
            first [ discriminate H
                  | reflexivity
                  | left; reflexivity
                  | right; repeat split; tauto
                  | destruct H as [H|[[[[? ?]|[? [?|?]]] ?] ?]];
                    discriminate ]).
  - intros m.
    tools_cases st apt yum dnf upd ins ena
      ltac:(script; rewrite ?elem_of_cons, ?elem_of_nil; intros H;
            repeat (destruct H as [H|H];
                    try discriminate H; try contradiction);
            try (injection H as ->); split; congruence).
  - tools_cases st apt yum dnf upd ins ena
      ltac:(script; rewrite ?elem_of_cons, ?elem_of_nil; intros H;
            repeat (destruct H as [H|H];
                    try discriminate H; try contradiction);
            (eexists; split; [found|reflexivity])).
Qed.

Lemma copyFile_smooth src dst :
  copyFile smooth_copy src dst =
    ([Open src; Create dst; Copy dst src; Stat src; Chmod dst;
      Close dst; Close src], None).
Proof. reflexivity. Qed.

Lemma copyFile_outcome e src dst :
  work (fst (copyFile e src dst))
    `prefix_of` [Open src; Create dst; Copy dst src; Stat src; Chmod dst] ∧
  (snd (copyFile e src dst) = None ↔ copied e) ∧
  (snd (copyFile e src dst) = None →
     copyFile e src dst = copyFile smooth_copy src dst).
Proof.
  destruct e as [o c i st ch]. unfold copied. cbn [open_src create_dst io_copy stat_src chmod_dst].
  destruct o as [err|]; [script|].
  { split; [eexists; reflexivity|]. split; [|discriminate].
    split; [discriminate|]. intros (H & _). discriminate. }
  destruct c as [err|]; [script|].
  { split; [eexists; reflexivity|]. split; [|discriminate].
    split; [discriminate|]. intros (_ & H & _). discriminate. }
  destruct i as [err|]; [script|].
  { split; [eexists; reflexivity|]. split; [|discriminate].
    split; [discriminate|]. intros (_ & _ & H & _). discriminate. }
  destruct st as [err|]; [script|].
  { split; [eexists; reflexivity|]. split; [|discriminate].
    split; [discriminate|]. intros (_ & _ & _ & H & _). discriminate. }
  destruct ch as [err|]; script.
  { split; [eexists; reflexivity|]. split; [|discriminate].
    split; [discriminate|]. intros (_ & _ & _ & _ & H). discriminate. }
  split; [exists []; reflexivity|]. split; [|reflexivity].
  split; [intros _; repeat split|reflexivity].
Qed.

Ltac stopped :=
  script; unfold work; cbn;
  split; [eexists; reflexivity|];
  split; [|discriminate];
  split; [discriminate|];
  let H := fresh in
  intros H; unfold all_went_well, copied in H; cbn in H;
  decompose record H;
  match goal with
  | E : Some _ = None |- _ => discriminate E
  | E : inl _ = inr _ |- _ => discriminate E
  end.

(** X20.  [installService] does its steps in one fixed order and stops
    at the first one that fails: what it has done to the system is then
    a beginning of what the unhindered installation does, and nothing of
    it is undone.  It returns nil exactly when every step succeeded, and
    has then done all of the unhindered installation. *)
Theorem installService_stops_at_failure (c : ConfigFile.Config)
    (e : InstallEnv) :
  work (fst (installService c e))
    `prefix_of` work (fst (installService c (unhindered e))) ∧
  (snd (installService c e) = None ↔ all_went_well e) ∧
  (snd (installService c e) = None →
     installService c e = installService c (unhindered e)).
Proof.
  destruct e as [mk ex [o1 c1 i1 s1 h1] [o2 c2 i2 s2 h2] wu dr en st].
  unfold installService.
  generalize (unit_text c) (unit_path c)
    (ConfigFile.InstallPath (ConfigFile.Service c))
    (ConfigFile.ServiceName (ConfigFile.Service c)).
  intros text unit dir name.
  destruct mk; [stopped|].
  destruct ex; [stopped|].
  destruct o1; [stopped|]. destruct c1; [stopped|].
  destruct i1; [stopped|]. destruct s1; [stopped|].
  destruct h1; [stopped|].
  destruct o2; [stopped|]. destruct c2; [stopped|].
  destruct i2; [stopped|]. destruct s2; [stopped|].
  destruct h2; [stopped|].
  destruct wu; [stopped|]. destruct dr; [stopped|].
  destruct en; [stopped|]. destruct st; [stopped|].
  script. unfold work; cbn.
  split; [exists []; reflexivity|].
  split; [|reflexivity].
  split; [|reflexivity].
  intros _. unfold all_went_well, copied; cbn.
  repeat split. eexists; reflexivity.
Qed.

(** An installation that cannot write the unit file has copied the
    program and the configuration and leaves them. *)
Example unit_file_refused :
  installService ConfigFile.shipped {|
      mkdir_install := None;
      os_executable := inr "/root/ssh_fb";
      copy_program := smooth_copy;
      copy_config := smooth_copy;
      write_unit := Some (Errorf "permission denied");
      daemon_reload := None;
      enable_unit := None;
      start_unit := None |} =
    ([Info InstallBegins;
      MkdirAll "/opt/ssh_fb";
      Executable;
      Open (At "/root/ssh_fb"); Create (Join "/opt/ssh_fb" "ssh_fb");
      Copy (Join "/opt/ssh_fb" "ssh_fb") (At "/root/ssh_fb");
      Stat (At "/root/ssh_fb"); Chmod (Join "/opt/ssh_fb" "ssh_fb");
      Close (Join "/opt/ssh_fb" "ssh_fb"); Close (At "/root/ssh_fb");
      Open (At "configs/config.yaml");
      Create (Join "/opt/ssh_fb" "config.yaml");
      Copy (Join "/opt/ssh_fb" "config.yaml") (At "configs/config.yaml");
      Stat (At "configs/config.yaml");
      Chmod (Join "/opt/ssh_fb" "config.yaml");
      Close (Join "/opt/ssh_fb" "config.yaml");
      Close (At "configs/config.yaml");
      WriteFile (Join "/etc/systemd/system" "ssh_fb.service")
        (unit_text ConfigFile.shipped)],
     Some (WriteUnitFailed (Errorf "permission denied"))).
Proof. vm_compute. reflexivity. Qed.

Lemma uninstallService_outcome c e :
  snd (uninstallService c e) = None ∧
  work (fst (uninstallService c e)) = removals c ∧
  length (warnings (fst (uninstallService c e))) = failures e.
Proof.
  destruct e as [a b r d x].
  destruct a, b, r, d, x; script; repeat split; reflexivity.
Qed.

Lemma accepted_fields h c :
  snd (ConfigFile.validateConfig h c) = None → ConfigFile.fields_ok c.
Proof.
  intros Hok. destruct (classic_fields c) as [Hf|Hf]; [exact Hf|].
  destruct (validateConfig_rejects h c Hf) as (err & Herr).
  rewrite Herr in Hok. discriminate Hok.
Qed.

Lemma LoadConfig_loaded h src calls c :
  ConfigFile.LoadConfig h src = (calls, inl c) →
  src = ConfigFile.Parsed c ∧ snd (ConfigFile.validateConfig h c) = None.
Proof.
  unfold ConfigFile.LoadConfig.
  destruct src as [err|err|c']; try discriminate.
  destruct (ConfigFile.validateConfig h c') as [t [err|]] eqn:Hv;
    [discriminate|].
  intros H. injection H as _ <-. split; [reflexivity|].
  rewrite Hv. reflexivity.
Qed.

Lemma byWord_plain fl words f :
  byWord fl words = Some f →
  cmdInstall f = false → cmdUninstall f = false →
  cmdHelp f = false → cmdVersion f = false →
  fl = f ∧ (length words <= 1)%nat.
Proof.
  unfold byWord. destruct fl as [i u hlp v]. cbn [cmdInstall cmdUninstall cmdHelp cmdVersion].
  destruct (negb i && negb u && negb hlp && negb v && (1 <? length words)%nat)
    eqn:Hc.
  - destruct (words !! 1%nat) as [word|] eqn:Hw.
    + repeat match goal with
      | |- context [if ?b then _ else _] => destruct b
      end; intros H; try discriminate H; injection H as <-; cbn;
        intros; discriminate.
    + apply lookup_ge_None in Hw.
      apply andb_true_iff in Hc. destruct Hc as [_ Hc].
      apply Nat.ltb_lt in Hc. lia.
  - intros H. injection H as <-. cbn. intros -> -> -> ->.
    split; [reflexivity|].
    destruct words as [|? [|? ?]]; cbn in *; [lia|lia|discriminate Hc].
Qed.

(** X21.  Called for uninstalling (by switch or by word, without help,
    version or install, on a command line [flag.Parse] accepts), with a
    configuration that loads and a log file that opens, [main] ends with exit status 0 whatever the removal
    meets: [uninstallService] tries all five removals in order, turns
    each failure into one warning and returns nil, so that the success
    entry is logged even when nothing could be removed. *)
Theorem uninstall_always_succeeds (e : MainEnv) (fl f : Flags)
    (cfg : ConfigFile.Config) (calls : list ConfigFile.FsCall) :
  Parse no_flags (arguments e) = Parsed fl →
  byWord fl (args e) = Some f →
  cmdHelp f = false → cmdVersion f = false →
  cmdInstall f = false → cmdUninstall f = true →
  ConfigFile.LoadConfig (host e) (source e) = (calls, inl cfg) →
  mkdir_logdir (logger_env e) = None →
  open_logfile (logger_env e) = None →
  snd (main e) = Exit 0 ∧
  ∃ t,
    fst (main e) =
      lift calls ++
      [MkdirAllDirOf (ConfigFile.LogFile (ConfigFile.Logging cfg));
       OpenAppend (ConfigFile.LogFile (ConfigFile.Logging cfg))] ++
      t ++ [Info UninstallSucceeded] ∧
    work t = removals cfg ∧
    length (warnings t) = failures (uninstall_env e).
Proof.
  intros Hp Hf Hh Hv Hi Hu Hload Hmk Hop.
  destruct (uninstallService_outcome cfg (uninstall_env e))
    as (Hnil & Hwork & Hwarn).
  unfold main. rewrite Hp, Hf. unfold serve. rewrite Hh, Hv, Hload.
  unfold initLogger, step. rewrite Hmk, Hop, Hi, Hu.
  destruct (uninstallService cfg (uninstall_env e)) as [t r] eqn:Hun.
  cbn [fst snd] in *. subst r.
  unfold mbind, mret, Script_bind, Script_ret. cbn.
  split; [reflexivity|]. exists t.
  split; [|split; [exact Hwork|exact Hwarn]].
  reflexivity.
Qed.

Lemma uninstall_always_succeeds_witness :
  snd (main (started ["uninstall"])) = Exit 0 ∧
  failures (uninstall_env (started ["uninstall"])) = 5%nat.
Proof.
  split; [|reflexivity].
  exact (proj1 (uninstall_always_succeeds (started ["uninstall"])
                  no_flags
                  {| cmdInstall := false; cmdUninstall := true;
                     cmdHelp := false; cmdVersion := false |}
                  ready [] eq_refl eq_refl eq_refl eq_refl eq_refl eq_refl
                  eq_refl eq_refl eq_refl)).
Defined.

(** X22.  [main] reaches [mon.Start()] only when the program was called
    without any argument (no switch, no word), the configuration file was
    read and accepted by [validateConfig], the log file opened, ufw
    answered or was installed and enabled, and the bot was created; the
    monitor is then built from that configuration, whose threshold and
    ban duration are at least 1. *)
Theorem main_serves_valid_config (e : MainEnv) (cfg : ConfigFile.Config) :
  snd (main e) = Serve cfg →
  ConfigFile.typed cfg →
  arguments e = [] ∧
  Parse no_flags (arguments e) = Parsed no_flags ∧
  (length (args e) <= 1)%nat ∧
  source e = ConfigFile.Parsed cfg ∧
  ConfigFile.fields_ok cfg ∧
  validConfig (monitor_config cfg) ∧
  mkdir_logdir (logger_env e) = None ∧
  open_logfile (logger_env e) = None ∧
  snd (checkAndInstallTools (tools_env e)) = None ∧
  new_telegram e = None.
Proof.
  intros Hserve (Hmax & Hban & _). unfold main in Hserve.
  destruct (Parse no_flags (arguments e)) as [fl| |x] eqn:Hp;
    [|cbn in Hserve; discriminate Hserve
     |cbn in Hserve; discriminate Hserve].
  destruct (byWord fl (args e)) as [f|] eqn:Hf;
    [|cbn in Hserve; discriminate Hserve].
  unfold serve in Hserve.
  destruct (cmdHelp f) eqn:Hh; [cbn in Hserve; discriminate Hserve|].
  destruct (cmdVersion f) eqn:Hv; [cbn in Hserve; discriminate Hserve|].
  destruct (ConfigFile.LoadConfig (host e) (source e)) as [calls [c|err]]
    eqn:Hload; [|cbn in Hserve; discriminate Hserve].
  unfold initLogger, step in Hserve.
  destruct (mkdir_logdir (logger_env e)) eqn:Hmk;
    [cbn in Hserve; discriminate Hserve|].
  destruct (open_logfile (logger_env e)) eqn:Hop;
    [cbn in Hserve; discriminate Hserve|].
  destruct (cmdInstall f) eqn:Hi.
  { destruct (installService c (install_env e)) as [t [x|]];
      cbn in Hserve; discriminate Hserve. }
  destruct (cmdUninstall f) eqn:Hu.
  { destruct (uninstallService c (uninstall_env e)) as [t [x|]];
      cbn in Hserve; discriminate Hserve. }
  destruct (checkAndInstallTools (tools_env e)) as [t [x|]] eqn:Htools;
    [cbn in Hserve; discriminate Hserve|].
  destruct (new_telegram e) eqn:Htg;
    [cbn in Hserve; discriminate Hserve|].
  cbn in Hserve. injection Hserve as ->.
  destruct (byWord_plain _ _ _ Hf Hi Hu Hh Hv) as [Hfl Hlen].
  destruct (LoadConfig_loaded _ _ _ _ Hload) as [Hsrc Hok].
  pose proof (accepted_fields _ _ Hok) as Hfields.
  assert (Hnone : arguments e = []).
  { unfold args in Hlen. cbn [length] in Hlen.
    destruct (arguments e); [reflexivity|cbn in Hlen; lia]. }
  split; [exact Hnone|].
  split.
  { rewrite Hfl. destruct f as [i u h v]. cbn in Hi, Hu, Hh, Hv.
    subst. reflexivity. }
  split; [exact Hlen|]. split; [exact Hsrc|]. split; [exact Hfields|].
  split.
  { destruct Hfields as (_ & _ & _ & _ & H5 & H6 & _).
    destruct Hmax as [_ Hmax]. destruct Hban as [_ Hban].
    unfold validConfig, monitor_config. cbn.
    split; split; assumption. }
  split; [reflexivity|]. split; [reflexivity|]. split; reflexivity.
Qed.

Lemma main_serves_valid_config_witness :
  snd (main (started [])) = Serve ready ∧
  ConfigFile.typed ready ∧
  validConfig (monitor_config ready).
Proof.
  assert (H1 : snd (main (started [])) = Serve ready)
    by (vm_compute; reflexivity).
  assert (H2 : ConfigFile.typed ready)
    by (vm_compute; repeat split; discriminate).
  split; [exact H1|]. split; [exact H2|].
  exact (proj1 (proj2 (proj2 (proj2 (proj2 (proj2
           (main_serves_valid_config (started []) ready H1 H2))))))).
Defined.

End SetupFacts.

(** ** The bot commands *)

Section CommandFacts.
Import Commands.

Lemma TestCommand_spec c e w :
  ∃ r,
    TestCommand c e w =
      Done r (mkWorld (failedAttempts w) (bannedIPs w) (mu w) (blacklist w)
                (trace w ++ (Send <$> attempted (planned c e)))) ∧
    (r = None ↔ ∀ x, x ∈ planned c e → x.2 = None).
Proof.
  destruct w as [fa b m bl tr].
  unfold TestCommand, planned, NotifyLoginSuccess, NotifyLoginFailed,
    NotifyIPBanned, SendMessage.
  destruct (LoginSuccessEnabled c), (LoginFailedEnabled c),
    (IPBannedEnabled c), (test_success e) as [e1|],
    (test_failed e) as [e2|], (test_banned e) as [e3|];
    run; unfold emit_effect; cbn;
    (eexists; split;
     [ rewrite <- ?app_assoc, ?app_nil_r; reflexivity | ]);
    (split;
     [ try discriminate; intros _ x Hx;
       rewrite ?elem_of_cons, ?elem_of_nil in Hx;
       intuition (subst; reflexivity)
     | intros H; try reflexivity; exfalso;
       pose proof (proj2 (Forall_forall _ _) H) as HF;
       repeat match goal with
       | F : Forall _ (_ :: _) |- _ =>
           apply Forall_cons in F; destruct F
       end;
       cbn in *; congruence ]).
Qed.

(** X23.  [TestCommand] always returns and touches nothing of the
    monitor.  It sends the enabled ones of its three sample
    notifications in the order success, failure, ban, and stops at the
    first send that fails: nothing is sent after it.  It returns nil
    exactly when every enabled notification was sent without error; in
    particular it returns nil without sending anything when all three
    notifications are disabled. *)
Theorem TestCommand_outcome (c : Config) (e : TestEnv) (w : World) :
  ∃ r,
    TestCommand c e w =
      Done r (mkWorld (failedAttempts w) (bannedIPs w) (mu w) (blacklist w)
                (trace w ++ (Send <$> attempted (planned c e)))) ∧
    (r = None ↔ ∀ x, x ∈ planned c e → x.2 = None).
Proof. exact (TestCommand_spec c e w). Qed.

Lemma replied_notices l : replied (Notice <$> l) = [].
Proof. induction l as [|x l IH]; [reflexivity|exact IH]. Qed.

Lemma reply_errors_notices l : reply_errors (Notice <$> l) = [].
Proof. induction l as [|x l IH]; [reflexivity|exact IH]. Qed.

Lemma notified_notices l : notified (Notice <$> l) = l.
Proof.
  induction l as [|x l IH]; [reflexivity|].
  cbn. unfold notified in IH. rewrite IH. reflexivity.
Qed.

Lemma replyTo_answers c u m :
  ∃ l text, replyTo c u m = (Notice <$> l, Some text).
Proof.
  unfold replyTo.
  destruct (String.eqb (Command m) "start"); [by exists [], Welcome|].
  destruct (String.eqb (Command m) "status"); [by exists [], StatusReport|].
  destruct (String.eqb (Command m) "test").
  - destruct (TestCommand_spec c (test_env u) (NewMonitor ""))
      as (r & Heq & _).
    rewrite Heq. destruct r as [f|]; eexists _, _; reflexivity.
  - destruct (String.eqb (Command m) "help"); [by exists [], HelpReply|].
    by exists [], UnknownReply.
Qed.

Lemma replyTo_from_chat c u m f :
  replyTo c (from_chat f u)
    {| Chat := f (Chat m); IsCommand := IsCommand m; Command := Command m |}
  = replyTo c u m.
Proof. reflexivity. Qed.

Lemma HandleCommands_step c u rest m l text :
  Message u = Some m → IsCommand m = true →
  replyTo c u m = (Notice <$> l, Some text) →
  HandleCommands c (u :: rest) =
    ((Notice <$> l) ++
     (Reply (Chat m) text ::
      match reply_send u with
      | Some err => [LogReplyFailed err]
      | None => []
      end) ++ fst (HandleCommands c rest),
     snd (HandleCommands c rest)).
Proof.
  intros Hm Hc Hr. cbn [HandleCommands]. rewrite Hm, Hc. cbn [negb].
  rewrite Hr. destruct (HandleCommands c rest) as [later ended].
  reflexivity.
Qed.

Lemma HandleCommands_skip c u rest :
  command_of u = None →
  HandleCommands c (u :: rest) = HandleCommands c rest.
Proof.
  unfold command_of. intros H. cbn [HandleCommands].
  destruct (Message u) as [m|]; [|reflexivity].
  destruct (IsCommand m); [discriminate H|reflexivity].
Qed.

(** X24.  [HandleCommands] answers every command message with exactly
    one reply, addressed to the chat the command came from, and answers
    nothing else; a reply that cannot be sent is logged and the loop goes
    on, so that line 204 is reached when the channel is closed.  The
    chat a command comes from is used for nothing but the address of the
    reply: the notifications that [/test] sends are the same from
    whatever chat it is called. *)
Theorem HandleCommands_replies (c : Config) (us : list Update) :
  snd (HandleCommands c us) = true ∧
  replied (fst (HandleCommands c us)) = Chat <$> omap command_of us ∧
  reply_errors (fst (HandleCommands c us)) =
    omap (fun u => command_of u ≫= fun _ => reply_send u) us ∧
  ∀ f, notified (fst (HandleCommands c (from_chat f <$> us))) =
       notified (fst (HandleCommands c us)).
Proof.
  induction us as [|u us (IH1 & IH2 & IH3 & IH4)].
  - repeat split.
  - destruct (command_of u) as [m|] eqn:Hcmd.
    + assert (Hm : Message u = Some m ∧ IsCommand m = true).
      { unfold command_of in Hcmd. destruct (Message u) as [m'|];
          [|discriminate Hcmd].
        destruct (IsCommand m') eqn:Hc; [|discriminate Hcmd].
        injection Hcmd as <-. split; [reflexivity|exact Hc]. }
      destruct Hm as [Hm Hc].
      destruct (replyTo_answers c u m) as (l & text & Hr).
      rewrite (HandleCommands_step c u us m l text Hm Hc Hr).
      cbn [fst snd]. split; [exact IH1|].
      split; [|split].
      * unfold replied. rewrite !omap_app. fold (replied (Notice <$> l)).
        rewrite replied_notices. cbn [omap list_omap]. rewrite Hcmd.
        fold (replied (fst (HandleCommands c us))). rewrite IH2.
        destruct (reply_send u); reflexivity.
      * unfold reply_errors. rewrite !omap_app.
        fold (reply_errors (Notice <$> l)).
        rewrite reply_errors_notices. cbn [omap list_omap]. rewrite Hcmd.
        fold (reply_errors (fst (HandleCommands c us))).
        destruct (reply_send u);
          cbn; fold (reply_errors (fst (HandleCommands c us)));
          rewrite IH3; reflexivity.
      * intros f. cbn [fmap list_fmap].
        rewrite (HandleCommands_step c (from_chat f u) (from_chat f <$> us)
                   {| Chat := f (Chat m); IsCommand := IsCommand m;
                      Command := Command m |} l text).
        -- cbn [fst]. change (reply_send (from_chat f u)) with (reply_send u).
           unfold notified. rewrite !omap_app.
           fold (notified (fst (HandleCommands c (from_chat f <$> us)))).
           fold (notified (fst (HandleCommands c us))).
           rewrite (IH4 f).
           destruct (reply_send u); reflexivity.
        -- unfold from_chat. cbn. rewrite Hm. reflexivity.
        -- exact Hc.
        -- rewrite replyTo_from_chat. exact Hr.
    + rewrite (HandleCommands_skip c u us Hcmd).
      split; [exact IH1|]. split; [|split].
      * cbn [omap list_omap]. rewrite Hcmd. exact IH2.
      * cbn [omap list_omap]. rewrite Hcmd. exact IH3.
      * intros f. cbn [fmap list_fmap].
        rewrite (HandleCommands_skip c (from_chat f u)).
        -- exact (IH4 f).
        -- unfold command_of, from_chat in *. cbn.
           destruct (Message u) as [m|]; [|reflexivity].
           cbn. destruct (IsCommand m); [discriminate Hcmd|reflexivity].
Qed.

(** With the three notifications disabled, [/test] sends nothing and
    replies that the test notifications were sent. *)
Example silent_test (c : Config) (u : Update) (m : Incoming) :
  LoginSuccessEnabled c = false → LoginFailedEnabled c = false →
  IPBannedEnabled c = false → Command m = "test" →
  replyTo c u m = ([], Some TestSentReply).
Proof.
  intros H1 H2 H3 Hc. unfold replyTo. rewrite Hc. cbn.
  unfold TestCommand, NotifyLoginSuccess, NotifyLoginFailed, NotifyIPBanned.
  rewrite H1, H2, H3. reflexivity.
Qed.

End CommandFacts.

(** ** Start *)

Lemma fits_append cur s : fits cur = false → fits (cur +:+ s) = false.
Proof.
  unfold fits. rewrite !N.ltb_ge, length_append. lia.
Qed.

Lemma unfit_nonempty cur : fits cur = false → String.eqb cur "" = false.
Proof.
  intros H. apply String.eqb_neq. intros ->. vm_compute in H. discriminate H.
Qed.

(** Once the line in progress has filled the buffer, the scanner gives
    up whatever follows. *)
Lemma scanFrom_too_long s : ∀ cur,
  fits cur = false → scanFrom cur s = ([], Some ErrTooLong).
Proof.
  induction s as [|c s IH]; intros cur Hcur; cbn [scanFrom].
  - rewrite (unfit_nonempty cur Hcur), Hcur. reflexivity.
  - destruct (Ascii.eqb c LF).
    + rewrite Hcur. reflexivity.
    + apply IH. apply fits_append. exact Hcur.
Qed.

Lemma scanFrom_grow long : ∀ cur rest,
  indexLF long = None →
  scanFrom cur (long +:+ rest) = scanFrom (cur +:+ long) rest.
Proof.
  induction long as [|c long IH]; intros cur rest Hno.
  - rewrite append_nil_l, append_nil_r. reflexivity.
  - apply indexLF_cons in Hno as [Hc Hno].
    rewrite append_cons. cbn [scanFrom]. rewrite Hc.
    rewrite (IH _ _ Hno), append_assoc. reflexivity.
Qed.

Lemma scanLines_long_line good long rest :
  Forall (fun ip => well_formed ip = true) good →
  indexLF long = None → fits long = false →
  scanLines (lf_lines_of good +:+ long +:+ rest) = (good, Some ErrTooLong).
Proof.
  intros Hgood Hno Hfit. unfold scanLines.
  induction Hgood as [|ip l Hip Hl IH].
  - cbn [lf_lines_of foldr]. rewrite append_nil_l.
    rewrite (scanFrom_grow long "" rest Hno), append_nil_l.
    apply scanFrom_too_long. exact Hfit.
  - destruct (well_formed_inv ip Hip) as (_ & Hf & Hlf & Hcr).
    cbn [lf_lines_of foldr]. fold (lf_lines_of l).
    rewrite !append_assoc.
    rewrite (scanFrom_line "" ip _ Hlf), append_nil_l, Hf.
    rewrite <- append_assoc in IH. rewrite <- append_assoc, IH, Hcr.
    reflexivity.
Qed.

(** X25.  A line of 64 KiB or more in the blacklist file keeps the
    monitor from starting: [Start] returns the scanner's "token too
    long" error as soon as [loadBlacklist] has banned the well-formed
    lines before the long one; the lines after it are not read, the ssh
    log is not opened and nothing but the opening of the blacklist has
    happened. *)
Theorem long_line_stops_Start (c : Config) (le : LoadEnv) (te : TailEnv)
    (w : World) (good : list string) (long rest : string) :
  load_open le = None → load_read le = None →
  Forall (fun ip => well_formed ip = true) good →
  indexLF long = None → fits long = false →
  blacklist w = lf_lines_of good +:+ long +:+ rest →
  ∃ w', Start c le te w = Done (Exited ErrTooLong) w' ∧
        trace w' = trace w ++ [OpenRead] ∧
        (∀ ip, ip ∈ good → is_Some (bannedIPs w' !! ip)) ∧
        (∀ ip, ip ∉ good → bannedIPs w' !! ip = bannedIPs w !! ip).
Proof.
  intros Hopen Hread Hgood Hno Hfit Hfile.
  pose proof (scanLines_long_line good long rest Hgood Hno Hfit) as Hscan.
  rewrite <- Hfile in Hscan.
  destruct (insertLines_general c le good 0 (emit_effect OpenRead w))
    as (w' & Hrun & _ & _ & _ & Htr & Hin & Hout).
  exists w'. split; [|split; [|split]].
  - unfold Start, loadBlacklist. run. rewrite Hopen, Hread. simpl.
    rewrite Hscan. run. rewrite Hrun. reflexivity.
  - rewrite Htr. reflexivity.
  - intros ip Hip.
    assert (Hne : ip ≠ "").
    { apply (proj1 (Forall_forall _ _) Hgood) in Hip.
      apply well_formed_inv in Hip. tauto. }
    destruct (Hin ip Hne Hip) as (j & _ & Hj). rewrite Hj. eauto.
  - intros ip Hip. rewrite (Hout ip (or_intror Hip)). reflexivity.
Qed.

Lemma filler_indexLF n : indexLF (filler n) = None.
Proof.
  induction n as [|n IH]; [reflexivity|].
  cbn [filler]. rewrite indexLF_String, IH. reflexivity.
Qed.

Lemma filler_length n : String.length (filler n) = n.
Proof. induction n as [|n IH]; [reflexivity|]. cbn. rewrite IH. reflexivity. Qed.

Lemma long_line_stops_Start_witness :
  ∃ w', Start Scenario.cfg Loading.by_line Tailing.unreadable
          (NewMonitor Overlong.file) = Done (Exited ErrTooLong) w' ∧
        trace w' = [OpenRead] ∧
        is_Some (bannedIPs w' !! "10.0.0.2") ∧
        bannedIPs w' !! "10.0.0.3" = None.
Proof.
  assert (Hgood : Forall (fun ip => well_formed ip = true) Overlong.listed)
    by (repeat constructor).
  assert (Hfit : fits Overlong.line = false).
  { unfold fits, Overlong.line. rewrite filler_length, N2Nat.id.
    reflexivity. }
  destruct (long_line_stops_Start Scenario.cfg Loading.by_line
              Tailing.unreadable (NewMonitor Overlong.file)
              Overlong.listed Overlong.line
              (newline +:+ "10.0.0.3" +:+ newline)
              eq_refl eq_refl Hgood (filler_indexLF _) Hfit eq_refl)
    as (w' & Hrun & Htr & Hin & Hout).
  exists w'. split; [exact Hrun|]. split; [exact Htr|].
  split.
  - apply Hin. unfold Overlong.listed. apply elem_of_cons. right.
    apply elem_of_cons. left. reflexivity.
  - rewrite Hout; [reflexivity|].
    unfold Overlong.listed. intros H.
    apply elem_of_cons in H as [H|H]; [discriminate H|].
    apply elem_of_cons in H as [H|H]; [discriminate H|].
    apply elem_of_nil in H. exact H.
Defined.

(** ** Running without a configuration *)

Section NoConfig.
Import Setup.

Lemma serve_without_config e f calls err :
  ConfigFile.LoadConfig (host e) (source e) = (calls, inr err) →
  serve e f =
    if cmdHelp f then ([Printf Usage], Exit 0)
    else if cmdVersion f then ([Printf VersionInfo], Exit 0)
    else (lift calls ++ [Printf (ConfigFailed err)], Exit 1).
Proof.
  intros Hload. unfold serve. rewrite Hload.
  destruct (cmdHelp f); [reflexivity|].
  destruct (cmdVersion f); [reflexivity|].
  unfold step, mbind, mret, Script_bind, Script_ret. cbn.
  reflexivity.
Qed.

(** X26.  When the configuration file cannot be read, parsed or
    validated, [main] does nothing to the system beyond what the
    validation itself did: every step is a line printed on standard
    output or standard error.  It ends with exit status 2 exactly when
    [flag.Parse] rejects the command line, with status 0 exactly when
    help or the version was asked for (by [-h], by switch or by word),
    and with status 1 otherwise, so that nothing is installed, removed
    or monitored without an accepted configuration. *)
Theorem no_config_no_service (e : MainEnv) (calls : list ConfigFile.FsCall)
    (err : ConfigFile.ConfigError) :
  ConfigFile.LoadConfig (host e) (source e) = (calls, inr err) →
  (∀ s, s ∈ fst (main e) →
     (∃ p, s = Printf p) ∨ (∃ x, s = Stderr x) ∨ s ∈ lift calls) ∧
  (snd (main e) = Exit 2 ↔
     ∃ x, Parse no_flags (arguments e) = Rejected x) ∧
  (snd (main e) = Exit 0 ↔
     Parse no_flags (arguments e) = Helped ∨
     ∃ fl f, Parse no_flags (arguments e) = Parsed fl ∧
             byWord fl (args e) = Some f ∧
             (cmdHelp f = true ∨ cmdVersion f = true)) ∧
  (snd (main e) = Exit 0 ∨ snd (main e) = Exit 1 ∨ snd (main e) = Exit 2).
Proof.
  intros Hload. unfold main.
  destruct (Parse no_flags (arguments e)) as [fl| |x] eqn:Hp.
  - destruct (byWord fl (args e)) as [f|] eqn:Hf.
    + rewrite (serve_without_config e f calls err Hload).
      destruct (cmdHelp f) eqn:Hh; [|destruct (cmdVersion f) eqn:Hv].
      * cbn [fst snd]. split; [|split; [|split]].
        -- intros s Hs. left.
           apply elem_of_cons in Hs as [->|Hs]; [eauto|].
           by apply elem_of_nil in Hs.
        -- split; [discriminate|]. intros (y & Hy). discriminate Hy.
        -- split; [|reflexivity]. intros _. right. exists fl, f. auto.
        -- left. reflexivity.
      * cbn [fst snd]. split; [|split; [|split]].
        -- intros s Hs. left.
           apply elem_of_cons in Hs as [->|Hs]; [eauto|].
           by apply elem_of_nil in Hs.
        -- split; [discriminate|]. intros (y & Hy). discriminate Hy.
        -- split; [|reflexivity]. intros _. right. exists fl, f. auto.
        -- left. reflexivity.
      * cbn [fst snd]. split; [|split; [|split]].
        -- intros s Hs. apply elem_of_app in Hs as [Hs|Hs]; [auto|].
           left. apply elem_of_cons in Hs as [->|Hs]; [eauto|].
           by apply elem_of_nil in Hs.
        -- split; [discriminate|]. intros (y & Hy). discriminate Hy.
        -- split; [discriminate|].
           intros [Hy|(fl' & f' & Hfl & Hf' & Hany)]; [discriminate Hy|].
           injection Hfl as <-. rewrite Hf in Hf'. injection Hf' as <-.
           destruct Hany; congruence.
        -- right. left. reflexivity.
    + cbn. split; [|split; [|split]].
      * intros s Hs. left.
        apply elem_of_cons in Hs as [->|Hs]; [eauto|].
        apply elem_of_cons in Hs as [->|Hs]; [eauto|].
        by apply elem_of_nil in Hs.
      * split; [discriminate|]. intros (y & Hy). discriminate Hy.
      * split; [discriminate|].
        intros [Hy|(fl' & f' & Hfl & Hf' & _)]; [discriminate Hy|].
        injection Hfl as <-. rewrite Hf in Hf'. discriminate Hf'.
      * right. left. reflexivity.
  - cbn. split; [|split; [|split]].
    + intros s Hs. left.
      apply elem_of_cons in Hs as [->|Hs]; [eauto|].
      by apply elem_of_nil in Hs.
    + split; [discriminate|]. intros (y & Hy). discriminate Hy.
    + split; [|reflexivity]. intros _. left. reflexivity.
    + left. reflexivity.
  - cbn. split; [|split; [|split]].
    + intros s Hs.
      apply elem_of_cons in Hs as [->|Hs]; [right; left; eauto|].
      apply elem_of_cons in Hs as [->|Hs]; [left; eauto|].
      by apply elem_of_nil in Hs.
    + split; [|reflexivity]. intros _. eauto.
    + split; [discriminate|].
      intros [Hy|(fl' & f' & Hfl & _)]; [discriminate Hy|discriminate Hfl].
    + right. right. reflexivity.
Qed.

Lemma no_config_no_service_witness :
  snd (main (started_with ConfigFile.shipped ["install"])) = Exit 0 ∨
  snd (main (started_with ConfigFile.shipped ["install"])) = Exit 1 ∨
  snd (main (started_with ConfigFile.shipped ["install"])) = Exit 2.
Proof.
  exact (proj2 (proj2 (proj2 (no_config_no_service
                  (started_with ConfigFile.shipped ["install"])
                  [] ConfigFile.BadBotToken eq_refl)))).
Defined.

(** Asked to install with the configuration file as shipped, the
    program prints the validation error and does nothing else. *)
Example install_from_shipped_config :
  main (started_with ConfigFile.shipped ["install"])
  = ([Printf (ConfigFailed ConfigFile.BadBotToken)], Exit 1).
Proof. vm_compute. reflexivity. Qed.

(** A switch that is not defined ends the program inside [flag.Parse]
    with status 2; [-h] ends it there with status 0. *)
Example undefined_switch :
  main (started ["-x"])
  = ([Stderr (NotDefined "x"); Printf Usage], Exit 2) ∧
  main (started ["-h"]) = ([Printf Usage], Exit 0) ∧
  main (started ["-install=maybe"])
  = ([Stderr (BadBoolean "maybe" "install"); Printf Usage], Exit 2) ∧
  main (started ["-install=false"])
  = ([Printf (UnknownCommand "-install=false"); Printf Usage], Exit 1).
Proof. vm_compute. repeat split; reflexivity. Qed.

End NoConfig.
